(** * The scheduling session of kube-batch (pkg/scheduler/framework/session.go)

    A shallow embedding of the session: its data (jobs, tasks, nodes and the
    session's indices), the primitives [openSession], [Allocate], [dispatch],
    [Evict], [Pipeline], [UpdateJobCondition], and the status reconciler
    [jobStatus] run by [closeSession].

    Go pointers ([*api.JobInfo], [*api.TaskInfo], [*api.NodeInfo]) are
    locations in a store, so that the aliasing between [Session.Jobs],
    [Session.JobIndex], a job's task-status index and the task handed to a
    primitive is the one of the program.  A dereference of a location that
    the store does not hold stands for a nil dereference and panics. *)

From Stdlib Require Import ZArith Lia.
From stdpp Require Import gmap strings list fin_maps.

Open Scope Z_scope.
Open Scope string_scope.
Open Scope list_scope.

(** ** Machine integers *)

(** [wrap w z] is [z] read as a signed [w]-bit integer (two's complement). *)
Definition wrap (w : Z) (z : Z) : Z := (z + 2 ^ (w - 1)) mod 2 ^ w - 2 ^ (w - 1).

(** Go's [int32(x)] conversion, and [int] arithmetic on a 64-bit platform. *)
Definition int32 (z : Z) : Z := wrap 32 z.
Definition int64 (z : Z) : Z := wrap 64 z.

(** Go's [len] on a map. *)
Definition len {K} `{Countable K} {A} (m : gmap K A) : Z := Z.of_nat (size m).

(** ** Names *)

Abbreviation loc := positive (only parsing).
Abbreviation JobID := string (only parsing).
Abbreviation TaskID := string (only parsing).
Abbreviation QueueID := string (only parsing).
Abbreviation error := string (only parsing).

(** ** package api *)

(** Modelled from the spec: the declaration of [api.TaskStatus] is not in the
    sources at hand; these are the statuses of the spec's task state set (§3),
    which include every status session.go names. *)
Inductive TaskStatus :=
  | Pending | Pipelined | Allocated | AllocatedOverBackfill | Binding
  | Running | Releasing | Succeeded | Failed.

#[global] Instance TaskStatus_eq_dec : EqDecision TaskStatus.
Proof. solve_decision. Defined.

Definition TaskStatus_code (s : TaskStatus) : nat :=
  match s with
  | Pending => 0 | Pipelined => 1 | Allocated => 2 | AllocatedOverBackfill => 3
  | Binding => 4 | Running => 5 | Releasing => 6 | Succeeded => 7 | Failed => 8
  end%nat.

Definition TaskStatus_of_code (n : nat) : option TaskStatus :=
  match n with
  | 0 => Some Pending | 1 => Some Pipelined | 2 => Some Allocated
  | 3 => Some AllocatedOverBackfill | 4 => Some Binding | 5 => Some Running
  | 6 => Some Releasing | 7 => Some Succeeded | 8 => Some Failed
  | _ => None
  end%nat.

#[global] Program Instance TaskStatus_countable : Countable TaskStatus :=
  inj_countable TaskStatus_code TaskStatus_of_code _.
Next Obligation. by intros []. Qed.

(** Modelled from the spec: [api.Resource] is not in the sources at hand; a
    vector of two quantities stands for a task's footprint and a node's
    capacity (§3).  The session only hands it to the node's accounting. *)
Record Resource := mkResource { MilliCPU : Z; Memory : Z }.

Definition Resource_Add (a b : Resource) : Resource :=
  mkResource (MilliCPU a + MilliCPU b) (Memory a + Memory b).
Definition Resource_Sub (a b : Resource) : Resource :=
  mkResource (MilliCPU a - MilliCPU b) (Memory a - Memory b).

(** Modelled from the spec: the declarations of [api.TaskInfo], [api.JobInfo],
    [api.NodeInfo], [api.QueueInfo] and [api.ValidateResult] are not in the
    sources at hand.  The records below have the fields session.go reads and
    writes, with the meaning §3 gives them. *)
Record TaskInfo := mkTaskInfo {
  task_UID : TaskID;
  task_Job : JobID;
  task_Name : string;
  task_Namespace : string;
  task_NodeName : string;
  task_Status : TaskStatus;
  task_Resreq : Resource;
}.

Definition task_with_Status (t : TaskInfo) (s : TaskStatus) : TaskInfo :=
  mkTaskInfo (task_UID t) (task_Job t) (task_Name t) (task_Namespace t)
             (task_NodeName t) s (task_Resreq t).
Definition task_with_NodeName (t : TaskInfo) (h : string) : TaskInfo :=
  mkTaskInfo (task_UID t) (task_Job t) (task_Name t) (task_Namespace t)
             h (task_Status t) (task_Resreq t).

(** ** package v1alpha1 / v1 *)

(** Modelled from the spec: the declarations of [v1alpha1.PodGroup], its
    status and conditions and of the phase and condition constants are not in
    the sources at hand.  The records have the fields session.go reads and
    writes; the phases are the three of §3, and the constants are distinct
    strings, as their Go types are string types. *)
Definition PodGroupUnschedulableType : string := "Unschedulable".
Definition ConditionTrue : string := "True".
Definition PodGroupPending : string := "Pending".
Definition PodGroupRunning : string := "Running".
Definition PodGroupUnknown : string := "Unknown".

Record PodGroupCondition := mkCond {
  cond_Type : string;
  cond_Status : string;
  cond_LastTransitionTime : Z;
  cond_TransitionID : string;
  cond_Reason : string;
  cond_Message : string;
}.

Record PodGroupStatus := mkStatus {
  st_Phase : string;
  st_Conditions : list PodGroupCondition;
  st_Running : Z;
  st_Failed : Z;
  st_Succeeded : Z;
}.

Record PodGroup := mkPodGroup {
  pg_MinMember : Z;          (* Spec.MinMember, an int32 *)
  pg_Status : PodGroupStatus;
}.

Definition pg_with_Status (pg : PodGroup) (st : PodGroupStatus) : PodGroup :=
  mkPodGroup (pg_MinMember pg) st.

(** A job; its task-status index is [map[TaskStatus]map[TaskID]*TaskInfo]. *)
Record JobInfo := mkJobInfo {
  job_UID : JobID;
  job_Name : string;
  job_Namespace : string;
  job_PodGroup : option PodGroup;           (* a pointer: nil for PDB jobs *)
  job_TaskStatusIndex : gmap TaskStatus (gmap TaskID loc);
}.

Definition job_with_PodGroup (j : JobInfo) (pg : option PodGroup) : JobInfo :=
  mkJobInfo (job_UID j) (job_Name j) (job_Namespace j) pg (job_TaskStatusIndex j).
(** The job with [PodGroup.Status.Conditions] set, [pg] being its pod group. *)
Definition job_with_Conditions (j : JobInfo) (pg : PodGroup)
    (conds : list PodGroupCondition) : JobInfo :=
  job_with_PodGroup j
    (Some (pg_with_Status pg
             (mkStatus (st_Phase (pg_Status pg)) conds (st_Running (pg_Status pg))
                       (st_Failed (pg_Status pg)) (st_Succeeded (pg_Status pg))))).
Definition job_with_TaskStatusIndex (j : JobInfo)
    (idx : gmap TaskStatus (gmap string loc)) : JobInfo :=
  mkJobInfo (job_UID j) (job_Name j) (job_Namespace j) (job_PodGroup j) idx.

(** [ji.TaskStatusIndex[s]]: a missing key reads as the nil (empty) map. *)
Definition bucket (idx : gmap TaskStatus (gmap string loc)) (s : TaskStatus)
    : gmap string loc :=
  default ∅ (idx !! s).

Record NodeInfo := mkNodeInfo {
  node_Name : string;
  node_Idle : Resource;
  node_Used : Resource;
  node_Releasing : Resource;
  node_Tasks : gmap TaskID TaskInfo;        (* the node keeps its own copy *)
}.

Record QueueInfo := mkQueueInfo { queue_UID : QueueID; queue_Name : string }.

Record ValidateResult := mkValidateResult {
  vr_Pass : bool;
  vr_Reason : string;
  vr_Message : string;
}.

#[global] Instance ValidateResult_eq_dec : EqDecision ValidateResult.
Proof. solve_decision. Defined.

(** ** The session and the world it runs in *)

(** An event handler: two optional callbacks, each named by a number. *)
Record EventHandler := mkEventHandler {
  AllocateFunc : option nat;
  DeallocateFunc : option nat;
}.

Record Session := mkSession {
  UID : string;
  Jobs : list loc;
  TopDogReadyJobs : gmap JobID loc;
  JobIndex : gmap JobID loc;
  Nodes : list loc;
  NodeIndex : gmap string loc;
  Queues : list loc;
  QueueIndex : gmap QueueID loc;
  Others : list loc;
  Backlog : list loc;
  eventHandlers : list EventHandler;
}.

Record Store := mkStore {
  jobs : gmap loc JobInfo;
  tasks : gmap loc TaskInfo;
  nodes : gmap loc NodeInfo;
  queues : gmap loc QueueInfo;
}.

(** What the session asks of the cache. *)
Inductive CacheCall :=
  | AllocateVolumes (task : loc) (hostname : string)
  | BindVolumes (task : loc)
  | Bind (task : loc) (hostname : string)
  | CacheEvict (task : loc) (reason : string)
  | UpdateJobStatus (job : loc)
  | RecordJobStatusEvent (job : loc).

(** The places where session.go logs an error with [glog.Errorf]. *)
Inductive LogMsg :=
  | LogUpdateJobCondition (err : error)
  | LogUpdateTaskStatus (task : loc) (status : TaskStatus) (err : error)
  | LogJobNotFound (job : JobID)
  | LogAddTask (task : loc) (hostname : string) (err : error)
  | LogNodeNotFound (hostname : string)
  | LogDispatch (task : loc) (err : error)
  | LogUpdateTask (task : loc) (err : error)
  | LogUpdateJob (job : loc) (err : error).

(** Everything the session does that is seen from outside, in order. *)
Inductive Event :=
  | ECache (c : CacheCall) (r : option error)
  | EAllocateFunc (fn : nat) (task : loc)
  | EDeallocateFunc (fn : nat) (task : loc)
  | ELog (m : LogMsg).

Record World := mkWorld {
  ssn : Session;
  heap : Store;
  trace : list Event;
}.

(** ** A monad for state and panics *)

Inductive Res (A : Type) := Ok (a : A) | Panic.
Arguments Ok {A} a.
Arguments Panic {A}.

Definition M (A : Type) : Type := World -> Res (A * World).

Definition ret {A} (a : A) : M A := fun w => Ok (a, w).
Definition bind {A B} (m : M A) (k : A -> M B) : M B :=
  fun w => match m w with Ok (a, w') => k a w' | Panic => Panic end.
Definition panic {A} : M A := fun _ => Panic.
Definition get : M World := fun w => Ok (w, w).
Definition put (w : World) : M unit := fun _ => Ok (tt, w).

Declare Scope go_scope.
Delimit Scope go_scope with go.
Notation "x <- c1 ;; c2" := (bind c1 (fun x => c2))
  (at level 100, c1 at next level, right associativity) : go_scope.
Notation "c1 ;; c2" := (bind c1 (fun _ => c2))
  (at level 100, right associativity) : go_scope.
Open Scope go_scope.

(** [for _, x := range l { body x }] over a slice. *)
Fixpoint for_each {A} (l : list A) (body : A -> M unit) : M unit :=
  match l with
  | [] => ret tt
  | x :: l' => body x ;; for_each l' body
  end.

Definition modify_ssn (f : Session -> Session) : M unit :=
  fun w => Ok (tt, mkWorld (f (ssn w)) (heap w) (trace w)).
Definition modify_heap (f : Store -> Store) : M unit :=
  fun w => Ok (tt, mkWorld (ssn w) (f (heap w)) (trace w)).
Definition emit (e : Event) : M unit :=
  fun w => Ok (tt, mkWorld (ssn w) (heap w) (trace w ++ [e])).
Definition glog_Errorf (m : LogMsg) : M unit := emit (ELog m).

Definition store_job (p : loc) (j : JobInfo) : M unit :=
  modify_heap (fun h => mkStore (<[p := j]> (jobs h)) (tasks h) (nodes h) (queues h)).
Definition store_task (p : loc) (t : TaskInfo) : M unit :=
  modify_heap (fun h => mkStore (jobs h) (<[p := t]> (tasks h)) (nodes h) (queues h)).
Definition store_node (p : loc) (n : NodeInfo) : M unit :=
  modify_heap (fun h => mkStore (jobs h) (tasks h) (<[p := n]> (nodes h)) (queues h)).

Definition of_option {A} (o : option A) : M A :=
  match o with Some a => ret a | None => panic end.
Definition deref_job (p : loc) : M JobInfo :=
  w <- get ;; of_option (jobs (heap w) !! p).
Definition deref_task (p : loc) : M TaskInfo :=
  w <- get ;; of_option (tasks (heap w) !! p).
Definition deref_node (p : loc) : M NodeInfo :=
  w <- get ;; of_option (nodes (heap w) !! p).
Definition deref_queue (p : loc) : M QueueInfo :=
  w <- get ;; of_option (queues (heap w) !! p).

Definition ssn_with_Jobs (s : Session) (x : list loc) : Session :=
  mkSession (UID s) x (TopDogReadyJobs s) (JobIndex s) (Nodes s) (NodeIndex s)
            (Queues s) (QueueIndex s) (Others s) (Backlog s) (eventHandlers s).
Definition ssn_with_TopDogReadyJobs (s : Session) (x : gmap string loc) : Session :=
  mkSession (UID s) (Jobs s) x (JobIndex s) (Nodes s) (NodeIndex s)
            (Queues s) (QueueIndex s) (Others s) (Backlog s) (eventHandlers s).
Definition ssn_with_JobIndex (s : Session) (x : gmap string loc) : Session :=
  mkSession (UID s) (Jobs s) (TopDogReadyJobs s) x (Nodes s) (NodeIndex s)
            (Queues s) (QueueIndex s) (Others s) (Backlog s) (eventHandlers s).
Definition ssn_with_Nodes (s : Session) (x : list loc) : Session :=
  mkSession (UID s) (Jobs s) (TopDogReadyJobs s) (JobIndex s) x (NodeIndex s)
            (Queues s) (QueueIndex s) (Others s) (Backlog s) (eventHandlers s).
Definition ssn_with_NodeIndex (s : Session) (x : gmap string loc) : Session :=
  mkSession (UID s) (Jobs s) (TopDogReadyJobs s) (JobIndex s) (Nodes s) x
            (Queues s) (QueueIndex s) (Others s) (Backlog s) (eventHandlers s).
Definition ssn_with_Queues (s : Session) (x : list loc) : Session :=
  mkSession (UID s) (Jobs s) (TopDogReadyJobs s) (JobIndex s) (Nodes s) (NodeIndex s)
            x (QueueIndex s) (Others s) (Backlog s) (eventHandlers s).
Definition ssn_with_QueueIndex (s : Session) (x : gmap string loc) : Session :=
  mkSession (UID s) (Jobs s) (TopDogReadyJobs s) (JobIndex s) (Nodes s) (NodeIndex s)
            (Queues s) x (Others s) (Backlog s) (eventHandlers s).
Definition ssn_with_Others (s : Session) (x : list loc) : Session :=
  mkSession (UID s) (Jobs s) (TopDogReadyJobs s) (JobIndex s) (Nodes s) (NodeIndex s)
            (Queues s) (QueueIndex s) x (Backlog s) (eventHandlers s).
Definition ssn_with_Backlog (s : Session) (x : list loc) : Session :=
  mkSession (UID s) (Jobs s) (TopDogReadyJobs s) (JobIndex s) (Nodes s) (NodeIndex s)
            (Queues s) (QueueIndex s) (Others s) x (eventHandlers s).
Definition ssn_with_eventHandlers (s : Session) (x : list EventHandler) : Session :=
  mkSession (UID s) (Jobs s) (TopDogReadyJobs s) (JobIndex s) (Nodes s) (NodeIndex s)
            (Queues s) (QueueIndex s) (Others s) (Backlog s) x.

(** What [cache.Snapshot()] hands to [openSession]: pointers to the
    snapshot's objects, which the store holds. *)
Record ClusterInfo := mkClusterInfo {
  ci_Jobs : list loc;
  ci_Nodes : list loc;
  ci_Queues : list loc;
  ci_Others : list loc;
}.

(** ** The status reconciler's loops *)

(** Lines 170-179: the scan for an unschedulable condition of this session. *)
Definition is_unschedulable (uid : string) (c : PodGroupCondition) : bool :=
  bool_decide (cond_Type c = PodGroupUnschedulableType)
  && bool_decide (cond_Status c = ConditionTrue)
  && bool_decide (cond_TransitionID c = uid).

Fixpoint scan_unschedulable (uid : string) (conds : list PodGroupCondition) : bool :=
  match conds with
  | [] => false
  | c :: conds' => if is_unschedulable uid c then true else scan_unschedulable uid conds'
  end.

(** Lines 381-386: the index of the first condition of type [ty], if any
    ([None] is the source's [-1]). *)
Definition find_condition (ty : string) (conds : list PodGroupCondition) : option nat :=
  fst <$> list_find (fun c => cond_Type c = ty) conds.

(** Lines 389-393. *)
Definition set_condition (conds : list PodGroupCondition) (cond : PodGroupCondition)
    : list PodGroupCondition :=
  match find_condition (cond_Type cond) conds with
  | None => conds ++ [cond]
  | Some index => <[index := cond]> conds
  end.

Section Framework.

Set Default Proof Using "Type".

(** The parts of the repository that session.go calls and that are not in
    the sources at hand are parameters of the development. *)

(** [api.AllocatedStatus]: the statuses that count as resource committed. *)
Variable AllocatedStatus : TaskStatus -> bool.

(** [validateStatusUpdate] of package api: [None] when the transition is
    accepted, the error otherwise. *)
Variable validateStatusUpdate : TaskStatus -> TaskStatus -> option error.

(** [Session.JobValid] and [Session.JobReady] (session_plugins.go): what the
    registered policies answer.  [JobValid] answers nil ([None]) or a result,
    from the objects of the snapshot; [JobReady] answers in the world as it is
    at the call, and is also asked about the nil job that a failed index
    lookup leaves in [job]. *)
Variable JobValid : Store -> loc -> option ValidateResult.
Variable JobReady : World -> option loc -> bool.

(** The cache: the answer (nil or an error) to each call, which may depend
    on everything that happened before.  The cache works on its own objects
    and does not write to the session's. *)
Variable cache : World -> CacheCall -> option error.

(** [metav1.Now()]. *)
Variable Now : World -> Z.

(** The order in which a [range] over a map produces its entries. *)
Variable range_order : World -> gmap string loc -> list (string * loc).

Definition cache_call (c : CacheCall) : M (option error) :=
  fun w => let r := cache w c in
           Ok (r, mkWorld (ssn w) (heap w) (trace w ++ [ECache c r])).

(** *** package api: the helpers session.go calls *)

(** Modelled from the spec: the move of a task between the buckets of a
    task-status index is not in the sources at hand.  §3 makes the index a
    mapping from status to the tasks currently in that status: the task leaves
    the bucket of its current status and enters the bucket of the new one,
    under its UID. *)
Definition move_task (idx : gmap TaskStatus (gmap string loc))
    (t : TaskInfo) (task : loc) (status : TaskStatus)
    : gmap TaskStatus (gmap string loc) :=
  let idx1 := <[task_Status t := delete (task_UID t) (bucket idx (task_Status t))]> idx in
  <[status := <[task_UID t := task]> (bucket idx1 status)]> idx1.

(** Modelled from the spec: [JobInfo.UpdateTaskStatus] is not in the sources
    at hand.  It marks the task with the new status in the job's index (§4.3,
    §4.4) and sets the task's own status, unless the transition is refused. *)
Definition UpdateTaskStatus (jp task : loc) (status : TaskStatus) : M (option error) :=
  ji <- deref_job jp ;;
  t <- deref_task task ;;
  match validateStatusUpdate (task_Status t) status with
  | Some err => ret (Some err)
  | None =>
    store_task task (task_with_Status t status) ;;
    store_job jp (job_with_TaskStatusIndex ji
                    (move_task (job_TaskStatusIndex ji) t task status)) ;;
    ret None
  end.

(** Modelled from the spec: the node's accounting is not in the sources at
    hand.  §3: capacity is partitioned into idle, used and releasing, and
    their sum is the node's total; a releasing task's resources count in
    [releasing], any other task's in [used]. *)
Definition node_account_add (n : NodeInfo) (t : TaskInfo) : NodeInfo :=
  let r := task_Resreq t in
  match task_Status t with
  | Releasing =>
      mkNodeInfo (node_Name n) (Resource_Sub (node_Idle n) r) (node_Used n)
                 (Resource_Add (node_Releasing n) r) (<[task_UID t := t]> (node_Tasks n))
  | _ =>
      mkNodeInfo (node_Name n) (Resource_Sub (node_Idle n) r) (Resource_Add (node_Used n) r)
                 (node_Releasing n) (<[task_UID t := t]> (node_Tasks n))
  end.

(** Modelled from the spec: taking a task off a node undoes the accounting of
    [node_account_add], so that idle, used and releasing still sum to the
    node's total (§3). *)
Definition node_account_remove (n : NodeInfo) (t : TaskInfo) : NodeInfo :=
  let r := task_Resreq t in
  match task_Status t with
  | Releasing =>
      mkNodeInfo (node_Name n) (Resource_Add (node_Idle n) r) (node_Used n)
                 (Resource_Sub (node_Releasing n) r) (delete (task_UID t) (node_Tasks n))
  | _ =>
      mkNodeInfo (node_Name n) (Resource_Add (node_Idle n) r) (Resource_Sub (node_Used n) r)
                 (node_Releasing n) (delete (task_UID t) (node_Tasks n))
  end.

(** Modelled from the spec: [NodeInfo.AddTask] attaches a copy of the task
    to the node's task list and capacity accounting (§4.3); a task already on
    the node is an error.  What the attachment does on a node that lacks the
    capacity the spec does not say, and the model has no such failure: the
    properties of a placement are stated for a placement that returns. *)
Definition AddTask (np task : loc) : M (option error) :=
  n <- deref_node np ;;
  t <- deref_task task ;;
  match node_Tasks n !! task_UID t with
  | Some _ => ret (Some "task already on node")
  | None => store_node np (node_account_add n t) ;; ret None
  end.

(** Modelled from the spec: [NodeInfo.UpdateTask] replaces the node's copy of
    the task by its current state and redoes the accounting (§4.4: an evicted
    task's resources move from used to releasing); a task that is not on the
    node is an error. *)
Definition UpdateTask (np task : loc) : M (option error) :=
  n <- deref_node np ;;
  t <- deref_task task ;;
  match node_Tasks n !! task_UID t with
  | None => ret (Some "failed to find task on node")
  | Some old => store_node np (node_account_add (node_account_remove n old) t) ;; ret None
  end.

(** *** session.go *)

(** [jobStatus], lines 165-207.  The sum of line 187 does not depend on the
    order of the range. *)
Definition count_allocated (idx : gmap TaskStatus (gmap string loc)) : Z :=
  map_fold (fun status tasks allocated =>
              if AllocatedStatus status then int64 (allocated + len tasks) else allocated)
           0 idx.

Definition jobStatus (ssn : Session) (jobInfo : JobInfo) : Res PodGroupStatus :=
  match job_PodGroup jobInfo with
  | None => Panic
  | Some pg =>
    let status := pg_Status pg in
    let unschedulable := scan_unschedulable (UID ssn) (st_Conditions status) in
    let phase :=
      if negb (len (bucket (job_TaskStatusIndex jobInfo) Running) =? 0)%Z && unschedulable
      then PodGroupUnknown
      else
        let allocated := count_allocated (job_TaskStatusIndex jobInfo) in
        if (int32 allocated >? pg_MinMember pg)%Z then PodGroupRunning else PodGroupPending in
    Ok (mkStatus phase (st_Conditions status)
                 (int32 (len (bucket (job_TaskStatusIndex jobInfo) Running)))
                 (int32 (len (bucket (job_TaskStatusIndex jobInfo) Failed)))
                 (int32 (len (bucket (job_TaskStatusIndex jobInfo) Succeeded))))
  end.

(** [UpdateJobCondition], lines 374-396. *)
Definition UpdateJobCondition (jobInfo : loc) (cond : PodGroupCondition)
    : M (option error) :=
  ji <- deref_job jobInfo ;;
  w <- get ;;
  match JobIndex (ssn w) !! job_UID ji with
  | None =>
      ret (Some ("failed to find job <" +:+ job_Namespace ji +:+ "/" +:+ job_Name ji +:+ ">"))
  | Some jp =>
      job <- deref_job jp ;;
      pg <- of_option (job_PodGroup job) ;;
      store_job jp
        (job_with_Conditions job pg (set_condition (st_Conditions (pg_Status pg)) cond)) ;;
      ret None
  end.

(** [AddEventHandler], lines 398-400. *)
Definition AddEventHandler (eh : EventHandler) : M unit :=
  modify_ssn (fun s => ssn_with_eventHandlers s (eventHandlers s ++ [eh])).

(** Lines 242-248 and 290-296. *)
Definition fire_AllocateFunc (task : loc) : M unit :=
  w <- get ;;
  for_each (eventHandlers (ssn w))
    (fun eh => match AllocateFunc eh with
               | Some fn => emit (EAllocateFunc fn task)
               | None => ret tt
               end).

(** Lines 362-368. *)
Definition fire_DeallocateFunc (task : loc) : M unit :=
  w <- get ;;
  for_each (eventHandlers (ssn w))
    (fun eh => match DeallocateFunc eh with
               | Some fn => emit (EDeallocateFunc fn task)
               | None => ret tt
               end).

(** Lines 216-248 of [Pipeline] and 258-296 of [Allocate] are the same text
    up to the status written: the status update in the job found in the index,
    the node name, the attachment to the node found in the index, and the
    allocate callbacks.  The result is [job], nil when the lookup failed. *)
Definition place (task : loc) (hostname : string) (newStatus : TaskStatus)
    : M (option loc) :=
  t <- deref_task task ;;
  w <- get ;;
  let job := JobIndex (ssn w) !! task_Job t in
  match job with
  | Some jp =>
      err <- UpdateTaskStatus jp task newStatus ;;
      match err with
      | Some e => glog_Errorf (LogUpdateTaskStatus task newStatus e)
      | None => ret tt
      end
  | None => glog_Errorf (LogJobNotFound (task_Job t))
  end ;;
  t <- deref_task task ;;
  store_task task (task_with_NodeName t hostname) ;;
  w <- get ;;
  match NodeIndex (ssn w) !! hostname with
  | Some np =>
      err <- AddTask np task ;;
      match err with
      | Some e => glog_Errorf (LogAddTask task hostname e)
      | None => ret tt
      end
  | None => glog_Errorf (LogNodeNotFound hostname)
  end ;;
  fire_AllocateFunc task ;;
  ret job.

(** [Pipeline], lines 215-251. *)
Definition Pipeline (task : loc) (hostname : string) : M (option error) :=
  place task hostname Pipelined ;;
  ret None.

(** [dispatch], lines 314-335. *)
Definition dispatch (task : loc) : M (option error) :=
  r <- cache_call (BindVolumes task) ;;
  match r with
  | Some err => ret (Some err)
  | None =>
    t <- deref_task task ;;
    r <- cache_call (Bind task (task_NodeName t)) ;;
    match r with
    | Some err => ret (Some err)
    | None =>
      w <- get ;;
      match JobIndex (ssn w) !! task_Job t with
      | Some jp =>
          err <- UpdateTaskStatus jp task Binding ;;
          match err with
          | Some e => glog_Errorf (LogUpdateTaskStatus task Binding e)
          | None => ret tt
          end
      | None => glog_Errorf (LogJobNotFound (task_Job t))
      end ;;
      ret None
    end
  end.

(** [for _, task := range job.TaskStatusIndex[status] { body task }]: the
    entries come in the order [range_order] gives; an entry that the body
    removed from the map before its turn is not produced. *)
Definition range_entry (jp : loc) (status : TaskStatus) (body : loc -> M unit)
    (entry : string * loc) : M unit :=
  job <- deref_job jp ;;
  match bucket (job_TaskStatusIndex job) status !! entry.1 with
  | Some task => body task
  | None => ret tt
  end.

Definition range_tasks (jp : loc) (status : TaskStatus) (body : loc -> M unit)
    : M unit :=
  job <- deref_job jp ;;
  w <- get ;;
  for_each (range_order w (bucket (job_TaskStatusIndex job) status))
           (range_entry jp status body).

(** Lines 300-305. *)
Definition dispatch_logged (task : loc) : M unit :=
  err <- dispatch task ;;
  match err with
  | Some e => glog_Errorf (LogDispatch task e)
  | None => ret tt
  end.

Definition dispatch_ready (jp : loc) : M unit :=
  range_tasks jp Allocated dispatch_logged.

(** Lines 298-309: [job] is nil when the index lookup failed, and reading
    [job.TaskStatusIndex] or [job.UID] then panics. *)
Definition Allocate_ready (job : option loc) (usingBackfillTaskRes : bool) : M unit :=
  w <- get ;;
  if JobReady w job && negb usingBackfillTaskRes then
    jp <- of_option job ;;
    dispatch_ready jp
  else if JobReady w job then
    jp <- of_option job ;;
    ji <- deref_job jp ;;
    modify_ssn (fun s => ssn_with_TopDogReadyJobs s (<[job_UID ji := jp]> (TopDogReadyJobs s)))
  else ret tt.

(** [Allocate], lines 253-312. *)
Definition Allocate (task : loc) (hostname : string) (usingBackfillTaskRes : bool)
    : M (option error) :=
  r <- cache_call (AllocateVolumes task hostname) ;;
  match r with
  | Some err => ret (Some err)
  | None =>
    job <- place task hostname
             (if usingBackfillTaskRes then AllocatedOverBackfill else Allocated) ;;
    Allocate_ready job usingBackfillTaskRes ;;
    ret None
  end.

(** [Evict], lines 337-371. *)
Definition Evict (reclaimee : loc) (reason : string) : M (option error) :=
  r <- cache_call (CacheEvict reclaimee reason) ;;
  match r with
  | Some err => ret (Some err)
  | None =>
    t <- deref_task reclaimee ;;
    w <- get ;;
    match JobIndex (ssn w) !! task_Job t with
    | Some jp =>
        err <- UpdateTaskStatus jp reclaimee Releasing ;;
        match err with
        | Some e => glog_Errorf (LogUpdateTaskStatus reclaimee Releasing e)
        | None => ret tt
        end
    | None => glog_Errorf (LogJobNotFound (task_Job t))
    end ;;
    t <- deref_task reclaimee ;;
    w <- get ;;
    match NodeIndex (ssn w) !! task_NodeName t with
    | Some np =>
        err <- UpdateTask np reclaimee ;;
        match err with
        | Some e => glog_Errorf (LogUpdateTask reclaimee e)
        | None => ret tt
        end
    | None => ret tt
    end ;;
    fire_DeallocateFunc reclaimee ;;
    ret None
  end.

(** [openSession], lines 65-132.  [uid] is the fresh [uuid.NewUUID()]; the
    world it starts in holds the snapshot's objects.  [snapshot] is what
    [cache.Snapshot()] returned at line 85: that call is made before the
    function modelled here starts and is not an event of the trace. *)
Definition new_Session (uid : string) : Session :=
  mkSession uid [] ∅ ∅ [] ∅ [] ∅ [] [] [].

(** Lines 88-107, the body of the loop over the snapshot's jobs. *)
Definition validate_job (job : loc) : M unit :=
  w <- get ;;
  match JobValid (heap w) job with
  | Some vjr =>
      if negb (vr_Pass vjr) then
        let jc := mkCond PodGroupUnschedulableType ConditionTrue (Now w)
                         (UID (ssn w)) (vr_Reason vjr) (vr_Message vjr) in
        err <- UpdateJobCondition job jc ;;
        match err with
        | Some e => glog_Errorf (LogUpdateJobCondition e)
        | None => ret tt
        end
      else ret tt
  | None => modify_ssn (fun s => ssn_with_Jobs s (Jobs s ++ [job]))
  end.

(** Lines 111, 116 and 121. *)
Definition index_job (job : loc) : M unit :=
  ji <- deref_job job ;;
  modify_ssn (fun s => ssn_with_JobIndex s (<[job_UID ji := job]> (JobIndex s))).
Definition index_node (node : loc) : M unit :=
  n <- deref_node node ;;
  modify_ssn (fun s => ssn_with_NodeIndex s (<[node_Name n := node]> (NodeIndex s))).
Definition index_queue (queue : loc) : M unit :=
  q <- deref_queue queue ;;
  modify_ssn (fun s => ssn_with_QueueIndex s (<[queue_UID q := queue]> (QueueIndex s))).

Definition openSession (uid : string) (snapshot : ClusterInfo) : M unit :=
  modify_ssn (fun _ => new_Session uid) ;;
  for_each (ci_Jobs snapshot) validate_job ;;
  w <- get ;;
  for_each (Jobs (ssn w)) index_job ;;
  modify_ssn (fun s => ssn_with_Nodes s (ci_Nodes snapshot)) ;;
  w <- get ;;
  for_each (Nodes (ssn w)) index_node ;;
  modify_ssn (fun s => ssn_with_Queues s (ci_Queues snapshot)) ;;
  w <- get ;;
  for_each (Queues (ssn w)) index_queue ;;
  modify_ssn (fun s => ssn_with_Others s (ci_Others snapshot)) ;;
  modify_ssn (fun s => ssn_with_TopDogReadyJobs s ∅).

(** The status update of line 143: [job.PodGroup.Status = jobStatus(ssn, job)]. *)
Definition reconcile (ssn : Session) (job : JobInfo) : Res JobInfo :=
  match jobStatus ssn job, job_PodGroup job with
  | Ok st, Some pg => Ok (job_with_PodGroup job (Some (pg_with_Status pg st)))
  | _, _ => Panic
  end.

Definition lift_res {A} (r : Res A) : M A :=
  match r with Ok a => ret a | Panic => panic end.

(** [closeSession], lines 134-161. *)
Definition closeSession : M unit :=
  w <- get ;;
  for_each (Jobs (ssn w))
    (fun job =>
       ji <- deref_job job ;;
       match job_PodGroup ji with
       | None => cache_call (RecordJobStatusEvent job) ;; ret tt
       | Some _ =>
           w <- get ;;
           ji' <- lift_res (reconcile (ssn w) ji) ;;
           store_job job ji' ;;
           err <- cache_call (UpdateJobStatus job) ;;
           match err with
           | Some e => glog_Errorf (LogUpdateJob job e)
           | None => ret tt
           end
       end) ;;
  modify_ssn (fun s =>
    mkSession (UID s) [] (TopDogReadyJobs s) ∅ [] ∅ (Queues s) (QueueIndex s)
              (Others s) [] []).


(** ** Notions the properties are stated with *)

Definition all_statuses : list TaskStatus :=
  [Pending; Pipelined; Allocated; AllocatedOverBackfill; Binding;
   Running; Releasing; Succeeded; Failed].

(** The number of tasks of a job that are in a resource-committed status. *)
Definition committed_in (idx : gmap TaskStatus (gmap string loc)) : Z :=
  foldr Z.add 0
    ((fun s => if AllocatedStatus s then len (bucket idx s) else 0) <$> all_statuses).

Definition committed_count (job : JobInfo) : Z := committed_in (job_TaskStatusIndex job).

(** The job carries an Unschedulable condition with status true written by
    the session with this UID. *)
Definition flagged_unschedulable (uid : string) (conds : list PodGroupCondition) : Prop :=
  exists c, c ∈ conds /\ cond_Type c = PodGroupUnschedulableType
            /\ cond_Status c = ConditionTrue /\ cond_TransitionID c = uid.

(** The condition list holds at most one condition of each type. *)
Definition one_slot_per_type (conds : list PodGroupCondition) : Prop :=
  NoDup (cond_Type <$> conds).

(** The jobs of a snapshot that [JobValid] has no objection to, in order. *)
Definition accepted_jobs (h : Store) (l : list loc) : list loc :=
  filter (fun job => JobValid h job = None) l.

(** The error [UpdateJobCondition] returns for a job that is not indexed. *)
Definition not_indexed_error (ji : JobInfo) : string :=
  "failed to find job <" +:+ job_Namespace ji +:+ "/" +:+ job_Name ji +:+ ">".

(** What the validity loop of [openSession] logs. *)
Definition validate_log (h : Store) (job : loc) : list Event :=
  match JobValid h job, jobs h !! job with
  | Some vjr, Some ji =>
      if vr_Pass vjr then [] else [ELog (LogUpdateJobCondition (not_indexed_error ji))]
  | _, _ => []
  end.

(** The job index built by the loop of line 110. *)
Definition build_JobIndex (h : Store) (l : list loc) (idx : gmap string loc)
    : gmap string loc :=
  foldl (fun idx job =>
           match jobs h !! job with
           | Some ji => <[job_UID ji := job]> idx
           | None => idx
           end) idx l.

(** The snapshot's pointers are not nil. *)
Definition snapshot_valid (h : Store) (snapshot : ClusterInfo) : Prop :=
  Forall (fun job => is_Some (jobs h !! job)) (ci_Jobs snapshot)
  /\ Forall (fun node => is_Some (nodes h !! node)) (ci_Nodes snapshot)
  /\ Forall (fun queue => is_Some (queues h !! queue)) (ci_Queues snapshot).


(** The callbacks a list of handlers runs for a task, in registration order. *)
Definition alloc_events (l : list EventHandler) (task : loc) : list Event :=
  flat_map (fun eh => match AllocateFunc eh with
                      | Some fn => [EAllocateFunc fn task]
                      | None => []
                      end) l.

Definition dealloc_events (l : list EventHandler) (task : loc) : list Event :=
  flat_map (fun eh => match DeallocateFunc eh with
                      | Some fn => [EDeallocateFunc fn task]
                      | None => []
                      end) l.

(** ** A scheduling cycle: the primitives an action calls, in order *)

Inductive Op :=
  | OpPipeline (task : loc) (hostname : string)
  | OpAllocate (task : loc) (hostname : string) (usingBackfillTaskRes : bool)
  | OpEvict (task : loc) (reason : string).

Definition run_op (o : Op) : M (option error) :=
  match o with
  | OpPipeline task hostname => Pipeline task hostname
  | OpAllocate task hostname b => Allocate task hostname b
  | OpEvict task reason => Evict task reason
  end.

Fixpoint run_ops (l : list Op) : M unit :=
  match l with
  | [] => ret tt
  | o :: l' => run_op o ;; run_ops l'
  end.

(** The world right after the cache answered [r] to the call [c]. *)
Definition after_call (w : World) (c : CacheCall) (r : option string) : World :=
  mkWorld (ssn w) (heap w) (trace w ++ [ECache c r]).

(** Partial correctness: if [m] returns from a world with [P], the result and
    the world it leaves satisfy [Q]. *)
Definition hoare {A} (P : World -> Prop) (m : M A) (Q : A -> World -> Prop) : Prop :=
  forall w a w', P w -> m w = Ok (a, w') -> Q a w'.

(** The task an event dispatches, if it is one of [dispatch]'s calls. *)
Definition dispatched_task (e : Event) : option loc :=
  match e with
  | ECache (BindVolumes task) _ => Some task
  | ECache (Bind task _) _ => Some task
  | _ => None
  end.

(** The session's job index is consistent: an indexed job exists and is
    indexed by its UID, and the tasks in its task-status index are its own. *)
Definition index_consistent (w : World) : Prop :=
  (forall u jp, JobIndex (ssn w) !! u = Some jp ->
     exists job, jobs (heap w) !! jp = Some job /\ job_UID job = u)
  /\ (forall u jp job s k p t,
        JobIndex (ssn w) !! u = Some jp -> jobs (heap w) !! jp = Some job ->
        bucket (job_TaskStatusIndex job) s !! k = Some p ->
        tasks (heap w) !! p = Some t -> task_Job t = u).

(** What a cycle that only places job [jid] over backfill keeps true, [w0]
    being the world the cycle started in: no task of [jid] is newly Binding,
    none was handed to [dispatch], and once the job is in the backfill-ready
    set ([td]) it stays there. *)
Definition deferral_inv (jid : string) (w0 : World) (td : option loc) (w : World)
    : Prop :=
  index_consistent w
  /\ JobIndex (ssn w) = JobIndex (ssn w0)
  /\ (forall tp, task_Job <$> tasks (heap w) !! tp = task_Job <$> tasks (heap w0) !! tp)
  /\ (forall tp t t0, tasks (heap w) !! tp = Some t -> tasks (heap w0) !! tp = Some t0 ->
        task_Job t = jid -> task_Status t = Binding -> task_Status t0 = Binding)
  /\ (forall e tp t0, e ∈ trace w -> dispatched_task e = Some tp ->
        tasks (heap w0) !! tp = Some t0 -> task_Job t0 = jid -> e ∈ trace w0)
  /\ (forall jp, td = Some jp ->
        TopDogReadyJobs (ssn w) !! jid = Some jp /\ JobIndex (ssn w) !! jid = Some jp).



(** ** A small cluster, for the examples

    One job of three tasks with a minimum of two members, on one node: [t1]
    is pending, [t2] is allocated and [t3] runs. *)

Definition ex_t1 : TaskInfo :=
  mkTaskInfo "t1" "job-1" "t1" "default" "" Pending (mkResource 1000 1024).
Definition ex_t2 : TaskInfo :=
  mkTaskInfo "t2" "job-1" "t2" "default" "node-a" Allocated (mkResource 1000 1024).
Definition ex_t3 : TaskInfo :=
  mkTaskInfo "t3" "job-1" "t3" "default" "node-a" Running (mkResource 1000 1024).

Definition ex_cond : PodGroupCondition :=
  mkCond PodGroupUnschedulableType ConditionTrue 0 "ssn-0" "NotEnoughResources" "old".

Definition ex_pg : PodGroup := mkPodGroup 2 (mkStatus PodGroupPending [ex_cond] 7 7 7).

Definition ex_job : JobInfo :=
  mkJobInfo "job-1" "train" "default" (Some ex_pg)
    (<[Pending := {["t1" := 11%positive]}]>
       (<[Allocated := {["t2" := 12%positive]}]>
          {[Running := {["t3" := 13%positive]}]})).

Definition ex_node : NodeInfo :=
  mkNodeInfo "node-a" (mkResource 2000 6144) (mkResource 2000 2048) (mkResource 0 0)
    (<["t2" := ex_t2]> {["t3" := ex_t3]}).

Definition ex_store : Store :=
  mkStore {[1%positive := ex_job]}
          (<[11%positive := ex_t1]> (<[12%positive := ex_t2]> {[13%positive := ex_t3]}))
          {[21%positive := ex_node]} ∅.

Definition ex_snapshot : ClusterInfo := mkClusterInfo [1%positive] [21%positive] [] [].

(** The session as [openSession] builds it from [ex_snapshot], with one
    registered event handler. *)
Definition ex_ssn : Session :=
  mkSession "ssn-1" [1%positive] ∅ {["job-1" := 1%positive]}
            [21%positive] {["node-a" := 21%positive]} [] ∅ [] []
            [mkEventHandler (Some 0%nat) (Some 1%nat)].

Definition ex_world : World := mkWorld ex_ssn ex_store [].

(** The same session with the job missing from its index. *)
Definition ex_ssn_unindexed : Session := ssn_with_JobIndex ex_ssn ∅.
Definition ex_world_unindexed : World := mkWorld ex_ssn_unindexed ex_store [].

(** The world [openSession] starts in: the snapshot's objects, no session. *)
Definition ex_world0 : World := mkWorld (mkSession "" [] ∅ ∅ [] ∅ [] ∅ [] [] []) ex_store [].

(** Policies and a cache for the examples. *)
Definition ex_AllocatedStatus (s : TaskStatus) : bool :=
  match s with
  | Allocated | AllocatedOverBackfill | Binding | Running => true
  | _ => false
  end.

Definition ex_validate (from to : TaskStatus) : option string := None.

Definition ex_JobValid_nil (h : Store) (job : loc) : option ValidateResult := None.
Definition ex_JobValid_fail (h : Store) (job : loc) : option ValidateResult :=
  Some (mkValidateResult false "NotEnoughPods" "not enough valid tasks for gang-scheduling").

(** Gang readiness: the committed tasks reach the minimum; no opinion on a
    job it cannot read. *)
Definition ex_JobReady (w : World) (job : option loc) : bool :=
  match job with
  | Some jp =>
      match jobs (heap w) !! jp with
      | Some ji =>
          match job_PodGroup ji with
          | Some pg =>
              (pg_MinMember pg
               <=? len (bucket (job_TaskStatusIndex ji) Allocated)
                   + len (bucket (job_TaskStatusIndex ji) AllocatedOverBackfill)
                   + len (bucket (job_TaskStatusIndex ji) Binding)
                   + len (bucket (job_TaskStatusIndex ji) Running))%Z
          | None => true
          end
      | None => true
      end
  | None => true
  end.

(** No readiness policy registered: every job passes. *)
Definition ex_JobReady_pass (w : World) (job : option loc) : bool := true.

Definition ex_cache (w : World) (c : CacheCall) : option string := None.
Definition ex_cache_no_volumes (w : World) (c : CacheCall) : option string :=
  match c with
  | AllocateVolumes _ _ => Some "no persistent volume for claim"
  | _ => None
  end.
Definition ex_cache_no_evict (w : World) (c : CacheCall) : option string :=
  match c with
  | CacheEvict _ _ => Some "pod not found"
  | _ => None
  end.
(** Binding task 12 fails, every other call succeeds. *)
Definition ex_cache_bind_fails (w : World) (c : CacheCall) : option string :=
  match c with
  | Bind 12%positive _ => Some "binding rejected"
  | _ => None
  end.

Definition ex_Now (w : World) : Z := 1545000000.

Definition ex_range_order (w : World) (m : gmap string loc) : list (string * loc) :=
  map_to_list m.

(** ** What a run shows of itself *)

(** The calls made to the cache in a run, with their answers, in order.  The
    snapshot [openSession] works from was taken before its run starts and is
    not among them. *)
Definition cache_calls (tr : list Event) : list (CacheCall * option error) :=
  omap (fun e => match e with ECache c r => Some (c, r) | _ => None end) tr.

(** The callbacks of the event handlers that ran, in order. *)
Definition callbacks (tr : list Event) : list Event :=
  omap (fun e => match e with
                 | EAllocateFunc _ _ | EDeallocateFunc _ _ => Some e
                 | _ => None
                 end) tr.

(** The errors logged, in order. *)
Definition logged (tr : list Event) : list LogMsg :=
  omap (fun e => match e with ELog m => Some m | _ => None end) tr.

(** The status reports among the calls to the cache: UpdateJobStatus and
    RecordJobStatusEvent. *)
Definition is_status_call (c : CacheCall) : bool :=
  match c with
  | UpdateJobStatus _ | RecordJobStatusEvent _ => true
  | _ => false
  end.

Definition status_calls (tr : list Event) : list (CacheCall * option error) :=
  List.filter (fun c => is_status_call c.1) (cache_calls tr).

(** A task that differs from [t] at most in its status, which is [t]'s or
    [status], and in its node name, which is [hostname]. *)
Definition placed_as (t : TaskInfo) (hostname : string) (status : TaskStatus)
    (t' : TaskInfo) : Prop :=
  task_UID t' = task_UID t /\ task_Job t' = task_Job t
  /\ task_Name t' = task_Name t /\ task_Namespace t' = task_Namespace t
  /\ task_Resreq t' = task_Resreq t
  /\ task_NodeName t' = hostname
  /\ (task_Status t' = task_Status t \/ task_Status t' = status).

(** ** What a scheduling cycle keeps *)

(** What stays of a task, of a job and of a node whatever the primitives do
    to them: the task's identity, job and request; the job's identity and
    PodGroup; the node's name. *)
Definition task_kept (t t' : TaskInfo) : Prop :=
  task_UID t' = task_UID t /\ task_Job t' = task_Job t
  /\ task_Name t' = task_Name t /\ task_Namespace t' = task_Namespace t
  /\ task_Resreq t' = task_Resreq t.

Definition job_kept (j j' : JobInfo) : Prop :=
  job_UID j' = job_UID j /\ job_Name j' = job_Name j
  /\ job_Namespace j' = job_Namespace j /\ job_PodGroup j' = job_PodGroup j.

Definition node_kept (n n' : NodeInfo) : Prop := node_Name n' = node_Name n.

(** No object is created or dropped, the queues are as they were, and each
    task, job and node keeps what is said above. *)
Definition heap_kept (h h' : Store) : Prop :=
  queues h' = queues h
  /\ (forall p, option_Forall2 task_kept (tasks h !! p) (tasks h' !! p))
  /\ (forall p, option_Forall2 job_kept (jobs h !! p) (jobs h' !! p))
  /\ (forall p, option_Forall2 node_kept (nodes h !! p) (nodes h' !! p)).

(** The session record is as it was, but for [TopDogReadyJobs], which has
    lost no key and has gained only jobs of the job index. *)
Definition session_kept (s s' : Session) : Prop :=
  UID s' = UID s /\ Jobs s' = Jobs s /\ JobIndex s' = JobIndex s
  /\ Nodes s' = Nodes s /\ NodeIndex s' = NodeIndex s
  /\ Queues s' = Queues s /\ QueueIndex s' = QueueIndex s
  /\ Others s' = Others s /\ Backlog s' = Backlog s
  /\ eventHandlers s' = eventHandlers s
  /\ (forall u, is_Some (TopDogReadyJobs s !! u) -> is_Some (TopDogReadyJobs s' !! u))
  /\ (forall u jp, TopDogReadyJobs s' !! u = Some jp ->
        TopDogReadyJobs s !! u = Some jp \/ exists k, JobIndex s !! k = Some jp).

Definition world_kept (w w' : World) : Prop :=
  session_kept (ssn w) (ssn w')
  /\ heap_kept (heap w) (heap w')
  /\ exists evs, trace w' = trace w ++ evs.

(** A cycle without an allocation over backfill. *)
Definition no_backfill (o : Op) : bool :=
  match o with
  | OpAllocate _ _ usingBackfillTaskRes => negb usingBackfillTaskRes
  | _ => true
  end.

(** What a dispatch batch does to the session: nothing to the session record,
    the nodes and the callbacks; a task is as it was, or Binding. *)
Definition batch_rel (w w' : World) : Prop :=
  ssn w' = ssn w
  /\ world_kept w w'
  /\ nodes (heap w') = nodes (heap w)
  /\ callbacks (trace w') = callbacks (trace w)
  /\ (forall q t, tasks (heap w) !! q = Some t ->
        exists t', tasks (heap w') !! q = Some t'
                   /\ placed_as t (task_NodeName t) Binding t').

(** The session holds no nil pointer: an indexed job and an indexed node
    exist, and so does every task in the Allocated bucket of a job. *)
Definition pointers_valid (w : World) : Prop :=
  (forall u jp, JobIndex (ssn w) !! u = Some jp -> is_Some (jobs (heap w) !! jp))
  /\ (forall h np, NodeIndex (ssn w) !! h = Some np -> is_Some (nodes (heap w) !! np))
  /\ (forall jp job k p,
        jobs (heap w) !! jp = Some job ->
        bucket (job_TaskStatusIndex job) Allocated !! k = Some p ->
        is_Some (tasks (heap w) !! p)).

(** ** Closing a session *)

(** The job as [closeSession] leaves it: with the status [jobStatus]
    computes, or as it was when it has no PodGroup. *)
Definition closed_job (s : Session) (ji : JobInfo) : JobInfo :=
  match reconcile s ji with Ok ji' => ji' | Panic => ji end.

(** The call [closeSession] makes to the cache for a job. *)
Definition close_call (h : Store) (job : loc) : CacheCall :=
  match jobs h !! job with
  | Some ji =>
      match job_PodGroup ji with
      | Some _ => UpdateJobStatus job
      | None => RecordJobStatusEvent job
      end
  | None => RecordJobStatusEvent job
  end.

(** What [closeSession] logs for a call: the error of a status update. *)
Definition close_log (c : CacheCall * option error) : option LogMsg :=
  match c with
  | (UpdateJobStatus job, Some e) => Some (LogUpdateJob job e)
  | _ => None
  end.

(** ** The indices of a session *)

(** The index the loops of lines 110-122 of [openSession] build over [idx]:
    each object of the list is entered under its key, a later object
    replacing an earlier one with the same key. *)
Definition build_index (key : loc -> option string) (l : list loc)
    (idx : gmap string loc) : gmap string loc :=
  foldl (fun idx p => match key p with Some k => <[k := p]> idx | None => idx end) idx l.

(** [idx] is the index of the list [l] of objects by [key]: an entry is an
    object of the list under its own key, and a key carried by an object of
    the list is mapped to the last such object. *)
Definition indexes {A} (objs : gmap loc A) (key : A -> string) (l : list loc)
    (idx : gmap string loc) : Prop :=
  (forall k p, idx !! k = Some p ->
     p ∈ l /\ exists x, objs !! p = Some x /\ key x = k)
  /\ (forall l1 p l2 x,
        l = l1 ++ p :: l2 -> objs !! p = Some x ->
        (forall q y, q ∈ l2 -> objs !! q = Some y -> key y <> key x) ->
        idx !! key x = Some p).

(** Two conditions of one type, for the examples. *)
Definition ex_cond_a : PodGroupCondition :=
  mkCond PodGroupUnschedulableType ConditionTrue 5 "ssn-1" "NotEnoughPods" "a".
Definition ex_cond_b : PodGroupCondition :=
  mkCond PodGroupUnschedulableType "False" 6 "ssn-1" "Enough" "b".

(** ** Well-formed sessions over a cycle *)

(** The entries of the task-status indices in [w'] come from [w]: each was
    there, or is a task that [w] holds, entered in the job that the job index
    gives for it. *)
Definition buckets_from (w w' : World) : Prop :=
  forall jp job' s k p,
    jobs (heap w') !! jp = Some job' ->
    bucket (job_TaskStatusIndex job') s !! k = Some p ->
    (exists job, jobs (heap w) !! jp = Some job
                 /\ bucket (job_TaskStatusIndex job) s !! k = Some p)
    \/ (exists t, tasks (heap w) !! p = Some t
                  /\ JobIndex (ssn w) !! task_Job t = Some jp).

Definition good_step (w w' : World) : Prop := world_kept w w' /\ buckets_from w w'.

(** A readiness policy that turns every job down. *)
Definition ex_JobReady_never (w : World) (job : option loc) : bool := false.

(** ** Running the monad *)

(** Read the fields of a world that is given by its parts. *)
Ltac wsimp := cbn [ssn heap trace jobs tasks nodes queues].

(** Unfold the monad's operations, leaving the program's data alone. *)
Ltac mrun :=
  cbv [bind ret get put panic of_option lift_res
       deref_job deref_task deref_node deref_queue
       modify_ssn modify_heap emit glog_Errorf
       store_job store_task store_node cache_call];
  cbn [ssn heap trace jobs tasks nodes queues].

Tactic Notation "mrun" "in" hyp(H) :=
  cbv [bind ret get put panic of_option lift_res
       deref_job deref_task deref_node deref_queue
       modify_ssn modify_heap emit glog_Errorf
       store_job store_task store_node cache_call] in H;
  cbn [ssn heap trace jobs tasks nodes queues] in H.

(** Membership in a list that is given by its elements. *)
Ltac in_list := cbn [app]; repeat first [apply list_elem_of_here | apply list_elem_of_further].

(** Symbolic execution of a run [H : m w = Ok (a, w')]: unfold the monad and
    split on the innermost scrutinee that stands in the way, dropping the
    branches that panic. *)
Ltac mcase H :=
  match type of H with
  | context [match ?x with _ => _ end] =>
      lazymatch x with
      | context [match _ with _ => _ end] => fail
      | _ => destruct x eqn:?
      end
  end.

(** ** Machine integers *)

Lemma int32_small z : -2 ^ 31 <= z < 2 ^ 31 -> int32 z = z.
Proof.
  intros Hz. unfold int32, wrap.
  change (32 - 1) with 31. rewrite Z.mod_small; lia.
Qed.

Lemma int64_small z : -2 ^ 63 <= z < 2 ^ 63 -> int64 z = z.
Proof.
  intros Hz. unfold int64, wrap.
  change (64 - 1) with 63. rewrite Z.mod_small; lia.
Qed.

Lemma len_nonneg {K} `{Countable K} {A} (m : gmap K A) : 0 <= len m.
Proof. unfold len. lia. Qed.

Lemma len_empty : len (∅ : gmap string loc) = 0.
Proof. unfold len. by rewrite map_size_empty. Qed.

Lemma len_zero_iff {K} `{Countable K} {A} (m : gmap K A) : len m = 0 <-> size m = 0%nat.
Proof. unfold len. lia. Qed.

(** ** The status reconciler *)

Lemma scan_unschedulable_spec uid conds :
  scan_unschedulable uid conds = true <-> flagged_unschedulable uid conds.
Proof.
  unfold flagged_unschedulable. induction conds as [|c conds IH]; simpl.
  - split; [done | intros (c & Hc & _); by apply elem_of_nil in Hc].
  - destruct (is_unschedulable uid c) eqn:Hc.
    + split; [intros _ | done]. exists c. split; [left |].
      unfold is_unschedulable in Hc.
      apply andb_prop in Hc as [Hc H3]. apply andb_prop in Hc as [H1 H2].
      by apply bool_decide_eq_true in H1, H2, H3.
    + rewrite IH. split.
      * intros (c' & Hin & Hp). exists c'. split; [by right | done].
      * intros (c' & Hin & H1 & H2 & H3).
        apply elem_of_cons in Hin as [-> | Hin]; [| by exists c'].
        unfold is_unschedulable in Hc.
        by rewrite !bool_decide_eq_true_2 in Hc.
Qed.

Lemma bucket_insert_eq idx s ts : bucket (<[s := ts]> idx) s = ts.
Proof. unfold bucket. by rewrite lookup_insert_eq. Qed.

Lemma bucket_insert_ne idx s s' ts : s ≠ s' -> bucket (<[s := ts]> idx) s' = bucket idx s'.
Proof. intros. unfold bucket. by rewrite lookup_insert_ne. Qed.

Lemma bucket_None idx s : idx !! s = None -> bucket idx s = ∅.
Proof. intros Hs. unfold bucket. by rewrite Hs. Qed.

Lemma if_same_Z (b : bool) (z : Z) : (if b then z else z) = z.
Proof. by destruct b. Qed.

Lemma committed_in_insert idx s ts :
  idx !! s = None ->
  committed_in (<[s := ts]> idx)
  = committed_in idx + (if AllocatedStatus s then len ts else 0).
Proof.
  intros Hs. pose proof (bucket_None _ _ Hs) as Hb.
  unfold committed_in, all_statuses. simpl.
  destruct s;
    rewrite bucket_insert_eq, ?bucket_insert_ne by done;
    rewrite Hb, len_empty, if_same_Z; lia.
Qed.

Lemma committed_in_empty : committed_in ∅ = 0.
Proof.
  unfold committed_in, all_statuses. simpl.
  rewrite !(bucket_None ∅) by apply lookup_empty. rewrite len_empty.
  by rewrite !if_same_Z.
Qed.

Lemma committed_in_nonneg idx : 0 <= committed_in idx.
Proof.
  unfold committed_in. generalize all_statuses.
  intros l. induction l as [|s l IH]; csimpl; [lia |].
  destruct (AllocatedStatus s); [pose proof (len_nonneg (bucket idx s)) |]; lia.
Qed.

(** Line 186-191 compute the committed count as long as it fits an [int]. *)
Lemma count_allocated_committed idx :
  committed_in idx < 2 ^ 63 -> count_allocated idx = committed_in idx.
Proof.
  unfold count_allocated.
  apply (map_fold_weak_ind
           (fun r m => committed_in m < 2 ^ 63 -> r = committed_in m)).
  - intros _. by rewrite committed_in_empty.
  - intros s ts m r Hs IH. rewrite committed_in_insert by done.
    pose proof (committed_in_nonneg m). pose proof (len_nonneg ts).
    destruct (AllocatedStatus s); intros Hlt.
    + rewrite IH by lia. apply int64_small. lia.
    + rewrite IH by lia. lia.
Qed.

(** The status computed is a function of the index, the conditions and the
    minimum member count. *)
Lemma jobStatus_ext ssn job job' pg pg' :
  job_PodGroup job = Some pg ->
  job_PodGroup job' = Some pg' ->
  job_TaskStatusIndex job' = job_TaskStatusIndex job ->
  st_Conditions (pg_Status pg') = st_Conditions (pg_Status pg) ->
  pg_MinMember pg' = pg_MinMember pg ->
  jobStatus ssn job' = jobStatus ssn job.
Proof.
  intros Hpg Hpg' Hidx Hconds Hmin. unfold jobStatus.
  by rewrite Hpg, Hpg', Hidx, Hconds, Hmin.
Qed.

Lemma jobStatus_total ssn job pg :
  job_PodGroup job = Some pg -> exists st, jobStatus ssn job = Ok st.
Proof. intros Hpg. unfold jobStatus. rewrite Hpg. eauto. Qed.

Lemma jobStatus_Conditions ssn job pg st :
  job_PodGroup job = Some pg -> jobStatus ssn job = Ok st ->
  st_Conditions st = st_Conditions (pg_Status pg).
Proof. intros Hpg. unfold jobStatus. rewrite Hpg. by intros [= <-]. Qed.

(** C4: for a job with a gang specification whose committed count fits an
    int32, the phase computed by [jobStatus] is Unknown exactly when the job
    has a Running task and carries an Unschedulable condition with status true
    whose transition ID is the session's UID; otherwise it is Running exactly
    when the number of tasks in a resource-committed status strictly exceeds
    the minimum member count; otherwise it is Pending. *)
Theorem jobStatus_phase (ssn : Session) (job : JobInfo) (pg : PodGroup) :
  job_PodGroup job = Some pg ->
  committed_count job < 2 ^ 31 ->
  exists st, jobStatus ssn job = Ok st /\
    let unknown :=
      size (bucket (job_TaskStatusIndex job) Running) ≠ 0%nat
      /\ flagged_unschedulable (UID ssn) (st_Conditions (pg_Status pg)) in
    (st_Phase st = PodGroupUnknown <-> unknown)
    /\ (~ unknown ->
        (st_Phase st = PodGroupRunning <-> pg_MinMember pg < committed_count job))
    /\ (~ unknown -> ~ pg_MinMember pg < committed_count job ->
        st_Phase st = PodGroupPending).
Proof.
  intros Hpg Hfit. unfold jobStatus. rewrite Hpg. eexists. split; [done |].
  cbn zeta. simpl st_Phase.
  pose proof (committed_in_nonneg (job_TaskStatusIndex job)) as Hnn.
  unfold committed_count in *.
  rewrite count_allocated_committed by lia.
  rewrite int32_small by lia.
  pose proof (scan_unschedulable_spec (UID ssn) (st_Conditions (pg_Status pg))) as Hscan.
  pose proof (len_zero_iff (bucket (job_TaskStatusIndex job) Running)) as Hlen.
  destruct (Z.eqb_spec (len (bucket (job_TaskStatusIndex job) Running)) 0) as [Hz | Hz];
    destruct (scan_unschedulable (UID ssn) (st_Conditions (pg_Status pg))) eqn:Hs;
    simpl;
    destruct (Z.gtb_spec (committed_in (job_TaskStatusIndex job)) (pg_MinMember pg));
    unfold PodGroupUnknown, PodGroupRunning, PodGroupPending;
    intuition (try discriminate; try lia; try done).
Qed.

(** C8: the reconciler recomputes from scratch.  Two jobs with the same
    task-status index, conditions and minimum member count get the same
    status whatever their prior phase and counters were; applying the
    reconciler again to its own result changes nothing; and the counters it
    writes are the sizes of the Running, Failed and Succeeded buckets (read as
    int32). *)
Theorem jobStatus_idempotent (ssn : Session) (job job' : JobInfo) (pg pg' : PodGroup) :
  job_PodGroup job = Some pg ->
  job_PodGroup job' = Some pg' ->
  job_TaskStatusIndex job' = job_TaskStatusIndex job ->
  st_Conditions (pg_Status pg') = st_Conditions (pg_Status pg) ->
  pg_MinMember pg' = pg_MinMember pg ->
  exists st job1,
    jobStatus ssn job = Ok st /\ jobStatus ssn job' = Ok st
    /\ reconcile ssn job = Ok job1 /\ reconcile ssn job1 = Ok job1
    /\ jobStatus ssn job1 = Ok st
    /\ st_Running st = int32 (len (bucket (job_TaskStatusIndex job) Running))
    /\ st_Failed st = int32 (len (bucket (job_TaskStatusIndex job) Failed))
    /\ st_Succeeded st = int32 (len (bucket (job_TaskStatusIndex job) Succeeded))
    /\ (len (bucket (job_TaskStatusIndex job) Running) < 2 ^ 31 ->
        st_Running st = Z.of_nat (size (bucket (job_TaskStatusIndex job) Running)))
    /\ (len (bucket (job_TaskStatusIndex job) Failed) < 2 ^ 31 ->
        st_Failed st = Z.of_nat (size (bucket (job_TaskStatusIndex job) Failed)))
    /\ (len (bucket (job_TaskStatusIndex job) Succeeded) < 2 ^ 31 ->
        st_Succeeded st = Z.of_nat (size (bucket (job_TaskStatusIndex job) Succeeded))).
Proof.
  intros Hpg Hpg' Hidx Hconds Hmin.
  destruct (jobStatus_total ssn job pg Hpg) as [st Hst].
  pose proof (jobStatus_Conditions _ _ _ _ Hpg Hst) as Hc.
  set (job1 := job_with_PodGroup job (Some (pg_with_Status pg st))).
  assert (jobStatus ssn job1 = Ok st) as Hst1.
  { rewrite <- Hst. by apply (jobStatus_ext ssn job job1 pg (pg_with_Status pg st)). }
  assert (forall s, len (bucket (job_TaskStatusIndex job) s) < 2 ^ 31 ->
            int32 (len (bucket (job_TaskStatusIndex job) s))
            = Z.of_nat (size (bucket (job_TaskStatusIndex job) s))) as Hfit.
  { intros s Hlt. rewrite int32_small; [done |].
    pose proof (len_nonneg (bucket (job_TaskStatusIndex job) s)). lia. }
  assert (st_Running st = int32 (len (bucket (job_TaskStatusIndex job) Running))
          /\ st_Failed st = int32 (len (bucket (job_TaskStatusIndex job) Failed))
          /\ st_Succeeded st = int32 (len (bucket (job_TaskStatusIndex job) Succeeded)))
    as (Hr & Hf & Hs).
  { revert Hst. unfold jobStatus. rewrite Hpg. by intros [= <-]. }
  exists st, job1. split_and!; try done.
  - rewrite <- Hst. by apply (jobStatus_ext ssn job job' pg pg').
  - unfold reconcile. by rewrite Hst, Hpg.
  - unfold reconcile. rewrite Hst1. simpl. unfold job1. by destruct job.
  - intros Hlt. rewrite Hr. by apply Hfit.
  - intros Hlt. rewrite Hf. by apply Hfit.
  - intros Hlt. rewrite Hs. by apply Hfit.
Qed.

(** ** Job conditions *)

Lemma set_condition_cases conds cond :
  (exists i c,
      conds !! i = Some c /\ cond_Type c = cond_Type cond
      /\ (forall j c', (j < i)%nat -> conds !! j = Some c' -> cond_Type c' ≠ cond_Type cond)
      /\ set_condition conds cond = <[i := cond]> conds)
  \/ ((forall c, c ∈ conds -> cond_Type c ≠ cond_Type cond)
      /\ set_condition conds cond = conds ++ [cond]).
Proof.
  unfold set_condition, find_condition.
  destruct (list_find (fun c => cond_Type c = cond_Type cond) conds) as [[i c]|] eqn:Hfind;
    simpl.
  - left. apply list_find_Some in Hfind as (Hi & Hty & Hfirst).
    exists i, c. split_and!; [done | done | | done].
    intros j c' Hj Hc'. by apply (Hfirst j c').
  - right. apply list_find_None in Hfind. split; [| done].
    intros c Hc. by apply (proj1 (Forall_forall _ _) Hfind c).
Qed.

Lemma set_condition_one_slot conds cond :
  one_slot_per_type conds -> one_slot_per_type (set_condition conds cond).
Proof.
  unfold one_slot_per_type. intros Hnd.
  destruct (set_condition_cases conds cond)
    as [(i & c & Hi & Hty & _ & ->) | (Hnone & ->)].
  - rewrite list_fmap_insert, <- Hty.
    rewrite list_insert_id; [done |]. by rewrite list_lookup_fmap, Hi.
  - rewrite fmap_app. apply NoDup_app. split_and!; [done | | apply NoDup_singleton].
    intros ty Hin Hin'. apply list_elem_of_singleton in Hin'. subst ty.
    apply list_elem_of_fmap in Hin as (c & Hc & Hin). by apply (Hnone c).
Qed.

(** C9: for a job of the session's index that has a pod group,
    [UpdateJobCondition] returns nil and changes only that job's condition
    list: when the list has an entry of the new condition's type, the first
    such entry is replaced and no other entry changes; otherwise the condition
    is appended.  A list with at most one condition per type keeps that
    property. *)
Theorem UpdateJobCondition_one_slot (w : World) (jobInfo jp : loc)
    (ji job : JobInfo) (pg : PodGroup) (cond : PodGroupCondition) :
  jobs (heap w) !! jobInfo = Some ji ->
  JobIndex (ssn w) !! job_UID ji = Some jp ->
  jobs (heap w) !! jp = Some job ->
  job_PodGroup job = Some pg ->
  exists conds',
    UpdateJobCondition jobInfo cond w
    = Ok (None,
          mkWorld (ssn w)
            (mkStore (<[jp := job_with_Conditions job pg conds']> (jobs (heap w)))
                     (tasks (heap w)) (nodes (heap w)) (queues (heap w)))
            (trace w))
    /\ ((exists i c,
            st_Conditions (pg_Status pg) !! i = Some c
            /\ cond_Type c = cond_Type cond
            /\ (forall j c', (j < i)%nat -> st_Conditions (pg_Status pg) !! j = Some c' ->
                             cond_Type c' ≠ cond_Type cond)
            /\ conds' = <[i := cond]> (st_Conditions (pg_Status pg)))
        \/ ((forall c, c ∈ st_Conditions (pg_Status pg) -> cond_Type c ≠ cond_Type cond)
            /\ conds' = st_Conditions (pg_Status pg) ++ [cond]))
    /\ (one_slot_per_type (st_Conditions (pg_Status pg)) -> one_slot_per_type conds').
Proof.
  intros Hji Hidx Hjob Hpg.
  exists (set_condition (st_Conditions (pg_Status pg)) cond). split_and!.
  - cbv [UpdateJobCondition bind deref_job get].
    rewrite Hji. cbv [of_option ret]. rewrite Hidx.
    cbv [bind deref_job get]. rewrite Hjob. cbv [of_option ret]. by rewrite Hpg.
  - apply set_condition_cases.
  - apply set_condition_one_slot.
Qed.

(** ** Allocate: a failed volume reservation *)

(** C5: when the cache's AllocateVolumes answers with an error, [Allocate]
    returns that error and the session and its objects are as before: no task
    status or node name, no node's task list or accounting, no index and not
    the backfill-ready set change; the only thing that happened is the call to
    the cache, so no allocate callback ran. *)
Theorem Allocate_volumes_error (w : World) (task : loc) (hostname : string)
    (usingBackfillTaskRes : bool) (err : string) :
  cache w (AllocateVolumes task hostname) = Some err ->
  Allocate task hostname usingBackfillTaskRes w
  = Ok (Some err,
        mkWorld (ssn w) (heap w)
                (trace w ++ [ECache (AllocateVolumes task hostname) (Some err)])).
Proof.
  intros Hcache. unfold Allocate. mrun. by rewrite Hcache.
Qed.

(** ** openSession *)

Lemma world_eta w : mkWorld (ssn w) (heap w) (trace w) = w.
Proof. by destruct w. Qed.

Lemma ssn_with_Jobs_id s : ssn_with_Jobs s (Jobs s) = s.
Proof. by destruct s. Qed.

Lemma ssn_with_JobIndex_id s : ssn_with_JobIndex s (JobIndex s) = s.
Proof. by destruct s. Qed.

Lemma ssn_with_Jobs_twice s a b : ssn_with_Jobs (ssn_with_Jobs s a) b = ssn_with_Jobs s b.
Proof. reflexivity. Qed.

Lemma Jobs_ssn_with_Jobs s a : Jobs (ssn_with_Jobs s a) = a.
Proof. reflexivity. Qed.

Lemma accepted_jobs_cons h job l :
  accepted_jobs h (job :: l) = accepted_jobs h [job] ++ accepted_jobs h l.
Proof.
  unfold accepted_jobs. rewrite !filter_cons, filter_nil. by destruct (decide _).
Qed.

Lemma for_each_cons {A} (x : A) l (body : A -> M unit) w :
  for_each (x :: l) body w
  = match body x w with Ok (_, w') => for_each l body w' | Panic => Panic end.
Proof. reflexivity. Qed.

(** The validity loop runs while the job index is still empty: a job that
    fails validity is looked up in an empty index. *)
Lemma validate_job_run w job :
  JobIndex (ssn w) = ∅ ->
  is_Some (jobs (heap w) !! job) ->
  validate_job job w
  = Ok (tt, mkWorld (ssn_with_Jobs (ssn w) (Jobs (ssn w) ++ accepted_jobs (heap w) [job]))
                    (heap w) (trace w ++ validate_log (heap w) job)).
Proof.
  intros Hidx [ji Hji]. unfold validate_job, accepted_jobs, validate_log.
  rewrite filter_cons, filter_nil. mrun. rewrite Hji.
  destruct (JobValid (heap w) job) as [vjr|] eqn:Hv.
  - rewrite decide_False by done. rewrite app_nil_r, ssn_with_Jobs_id.
    destruct (vr_Pass vjr); simpl.
    + by rewrite app_nil_r, world_eta.
    + unfold UpdateJobCondition. mrun. rewrite Hji, Hidx, lookup_empty. done.
  - rewrite decide_True by done. by rewrite app_nil_r.
Qed.

Lemma validate_jobs_run l : forall w,
  JobIndex (ssn w) = ∅ ->
  Forall (fun job => is_Some (jobs (heap w) !! job)) l ->
  for_each l validate_job w
  = Ok (tt, mkWorld (ssn_with_Jobs (ssn w) (Jobs (ssn w) ++ accepted_jobs (heap w) l))
                    (heap w) (trace w ++ flat_map (validate_log (heap w)) l)).
Proof.
  induction l as [|job l IH]; intros w Hidx Hl.
  - simpl. unfold ret, accepted_jobs. rewrite filter_nil, !app_nil_r.
    by rewrite ssn_with_Jobs_id, world_eta.
  - apply Forall_cons in Hl as [Hjob Hl].
    rewrite for_each_cons, validate_job_run by done.
    rewrite IH; [| by destruct (ssn w) | done]. cbn [ssn heap trace].
    rewrite ssn_with_Jobs_twice, Jobs_ssn_with_Jobs, (accepted_jobs_cons _ job l).
    by rewrite <- !app_assoc.
Qed.

Lemma index_jobs_run l : forall w,
  Forall (fun job => is_Some (jobs (heap w) !! job)) l ->
  for_each l index_job w
  = Ok (tt, mkWorld (ssn_with_JobIndex (ssn w) (build_JobIndex (heap w) l (JobIndex (ssn w))))
                    (heap w) (trace w)).
Proof.
  induction l as [|job l IH]; intros w Hl.
  - simpl. unfold ret. by rewrite ssn_with_JobIndex_id, world_eta.
  - apply Forall_cons in Hl as [[ji Hji] Hl].
    rewrite for_each_cons. unfold index_job at 1. mrun. rewrite Hji.
    rewrite IH by done. cbn [ssn heap trace]. simpl build_JobIndex. rewrite Hji.
    by destruct (ssn w).
Qed.

Lemma index_nodes_run l : forall w,
  Forall (fun node => is_Some (nodes (heap w) !! node)) l ->
  exists idx,
    for_each l index_node w
    = Ok (tt, mkWorld (ssn_with_NodeIndex (ssn w) idx) (heap w) (trace w)).
Proof.
  induction l as [|node l IH]; intros w Hl.
  - exists (NodeIndex (ssn w)). simpl. unfold ret. by destruct w as [[] ? ?].
  - apply Forall_cons in Hl as [[n Hn] Hl].
    rewrite for_each_cons. unfold index_node at 1. mrun. rewrite Hn.
    edestruct IH as [idx ->]; [done |]. exists idx. cbn [ssn heap trace].
    by destruct (ssn w).
Qed.

Lemma index_queues_run l : forall w,
  Forall (fun queue => is_Some (queues (heap w) !! queue)) l ->
  exists idx,
    for_each l index_queue w
    = Ok (tt, mkWorld (ssn_with_QueueIndex (ssn w) idx) (heap w) (trace w)).
Proof.
  induction l as [|queue l IH]; intros w Hl.
  - exists (QueueIndex (ssn w)). simpl. unfold ret. by destruct w as [[] ? ?].
  - apply Forall_cons in Hl as [[q Hq] Hl].
    rewrite for_each_cons. unfold index_queue at 1. mrun. rewrite Hq.
    edestruct IH as [idx ->]; [done |]. exists idx. cbn [ssn heap trace].
    by destruct (ssn w).
Qed.

(** What [openSession] returns. *)
Lemma openSession_run uid snapshot w :
  snapshot_valid (heap w) snapshot ->
  exists nidx qidx,
    openSession uid snapshot w
    = Ok (tt,
          mkWorld
            (mkSession uid (accepted_jobs (heap w) (ci_Jobs snapshot)) ∅
               (build_JobIndex (heap w) (accepted_jobs (heap w) (ci_Jobs snapshot)) ∅)
               (ci_Nodes snapshot) nidx (ci_Queues snapshot) qidx
               (ci_Others snapshot) [] [])
            (heap w)
            (trace w ++ flat_map (validate_log (heap w)) (ci_Jobs snapshot))).
Proof.
  intros (Hjobs & Hnodes & Hqueues). unfold openSession.
  cbv [bind modify_ssn get]. cbn [ssn heap trace].
  rewrite validate_jobs_run by done. cbn [ssn heap trace new_Session Jobs ssn_with_Jobs].
  rewrite index_jobs_run.
  2:{ cbn [heap]. unfold accepted_jobs. rewrite Forall_forall in Hjobs |- *.
      intros job Hjob. apply list_elem_of_filter in Hjob as [_ Hjob]. by apply Hjobs. }
  cbn [ssn heap trace ssn_with_JobIndex ssn_with_Nodes Nodes].
  edestruct (index_nodes_run (ci_Nodes snapshot)) as [nidx ->]; [done |].
  cbn [ssn heap trace ssn_with_NodeIndex ssn_with_Queues Queues].
  edestruct (index_queues_run (ci_Queues snapshot)) as [qidx ->]; [done |].
  exists nidx, qidx. reflexivity.
Qed.

Lemma build_JobIndex_lookup h l : forall idx u p,
  build_JobIndex h l idx !! u = Some p ->
  idx !! u = Some p
  \/ (p ∈ l /\ exists ji, jobs h !! p = Some ji /\ job_UID ji = u).
Proof.
  induction l as [|job l IH]; intros idx u p Hu; simpl in Hu; [by left |].
  apply IH in Hu as [Hu | (Hin & ji & Hji & Hu)].
  - destruct (jobs h !! job) as [ji|] eqn:Hji; [| by left].
    destruct (decide (job_UID ji = u)) as [<- | Hne].
    + rewrite lookup_insert_eq in Hu. injection Hu as <-.
      right. split; [left | by exists ji].
    + rewrite lookup_insert_ne in Hu by done. by left.
  - right. split; [by right | by exists ji].
Qed.

Lemma build_JobIndex_mono h l : forall idx u,
  is_Some (idx !! u) -> is_Some (build_JobIndex h l idx !! u).
Proof.
  induction l as [|job l IH]; intros idx u Hu; simpl; [done |].
  apply IH. destruct (jobs h !! job) as [ji|]; [| done].
  destruct (decide (job_UID ji = u)) as [<- | Hne].
  - rewrite lookup_insert_eq. eauto.
  - by rewrite lookup_insert_ne.
Qed.

Lemma build_JobIndex_indexed h l : forall idx p ji,
  p ∈ l -> jobs h !! p = Some ji ->
  is_Some (build_JobIndex h l idx !! job_UID ji).
Proof.
  induction l as [|job l IH]; intros idx p ji Hin Hji.
  - by apply elem_of_nil in Hin.
  - apply elem_of_cons in Hin as [<- | Hin]; simpl.
    + rewrite Hji. apply build_JobIndex_mono. rewrite lookup_insert_eq. eauto.
    + by apply (IH _ p).
Qed.

(** C1: a job of the snapshot that passes validity is in [Session.Jobs] when
    [openSession] returns and is indexed by its UID.  The code reads the pass
    off a nil answer of [JobValid] (line 88), which is what it gets when no
    validity function is registered or none objects; only such a job is taken
    in.  [Session.JobIndex] maps the job's UID to a job of [Session.Jobs] with
    that UID: the job itself when no other job of the snapshot carries its
    UID. *)
Theorem openSession_accepts (uid : string) (snapshot : ClusterInfo) (w : World)
    (jp : loc) (ji : JobInfo) :
  snapshot_valid (heap w) snapshot ->
  jp ∈ ci_Jobs snapshot ->
  jobs (heap w) !! jp = Some ji ->
  exists w',
    openSession uid snapshot w = Ok (tt, w')
    /\ heap w' = heap w
    /\ (jp ∈ Jobs (ssn w') <-> JobValid (heap w) jp = None)
    /\ (JobValid (heap w) jp = None ->
        exists jp' ji',
          JobIndex (ssn w') !! job_UID ji = Some jp'
          /\ jp' ∈ Jobs (ssn w')
          /\ jobs (heap w) !! jp' = Some ji' /\ job_UID ji' = job_UID ji
          /\ ((forall q qi, q ∈ ci_Jobs snapshot -> jobs (heap w) !! q = Some qi ->
                            job_UID qi = job_UID ji -> q = jp) ->
              jp' = jp)).
Proof.
  intros Hvalid Hin Hji.
  destruct (openSession_run uid snapshot w Hvalid) as (nidx & qidx & Hrun).
  eexists. split; [exact Hrun |]. cbn [ssn heap Jobs JobIndex].
  split; [done |]. split.
  { unfold accepted_jobs. rewrite list_elem_of_filter. split; [by intros [? _] | done]. }
  intros Hnil.
  assert (jp ∈ accepted_jobs (heap w) (ci_Jobs snapshot)) as Hacc.
  { unfold accepted_jobs. by apply list_elem_of_filter. }
  destruct (build_JobIndex_indexed (heap w) _ ∅ jp ji Hacc Hji) as [jp' Hjp'].
  destruct (build_JobIndex_lookup _ _ _ _ _ Hjp') as [Hemp | (Hin' & ji' & Hji' & Huid)].
  { by rewrite lookup_empty in Hemp. }
  exists jp', ji'. split_and!; [done | done | done | done |].
  intros Huniq. apply (Huniq jp' ji'); [| done | done].
  unfold accepted_jobs in Hin'. by apply list_elem_of_filter in Hin' as [_ ?].
Qed.

(** C2, what the code does instead: a job of the snapshot that fails validity
    is left out of [Session.Jobs], but no condition is recorded on it.
    [UpdateJobCondition] looks the job up in [Session.JobIndex], which is
    still empty while the validity loop runs; it returns its not-found error,
    which [openSession] logs, and the job is as the snapshot had it. *)
Theorem openSession_condition_not_recorded (uid : string) (snapshot : ClusterInfo)
    (w : World) (jp : loc) (ji : JobInfo) (vjr : ValidateResult) :
  snapshot_valid (heap w) snapshot ->
  jp ∈ ci_Jobs snapshot ->
  jobs (heap w) !! jp = Some ji ->
  JobValid (heap w) jp = Some vjr ->
  vr_Pass vjr = false ->
  exists w',
    openSession uid snapshot w = Ok (tt, w')
    /\ jobs (heap w') !! jp = Some ji
    /\ (jp ∉ Jobs (ssn w'))
    /\ ELog (LogUpdateJobCondition (not_indexed_error ji)) ∈ trace w'.
Proof.
  intros Hvalid Hin Hji Hv Hfail.
  destruct (openSession_run uid snapshot w Hvalid) as (nidx & qidx & Hrun).
  eexists. split; [exact Hrun |]. cbn [ssn heap trace Jobs]. split_and!.
  - done.
  - unfold accepted_jobs. rewrite list_elem_of_filter. intros [Hnil _]. congruence.
  - apply elem_of_app. right. apply list_elem_of_In, in_flat_map.
    exists jp. split; [by apply list_elem_of_In |].
    unfold validate_log. rewrite Hv, Hji, Hfail. by left.
Qed.

(** ** The helpers of package api *)

Lemma UpdateTaskStatus_run w jp task status ji t :
  jobs (heap w) !! jp = Some ji ->
  tasks (heap w) !! task = Some t ->
  validateStatusUpdate (task_Status t) status = None ->
  UpdateTaskStatus jp task status w
  = Ok (None,
        mkWorld (ssn w)
          (mkStore
             (<[jp := job_with_TaskStatusIndex ji
                        (move_task (job_TaskStatusIndex ji) t task status)]> (jobs (heap w)))
             (<[task := task_with_Status t status]> (tasks (heap w)))
             (nodes (heap w)) (queues (heap w)))
          (trace w)).
Proof.
  intros Hji Ht Hv. unfold UpdateTaskStatus. mrun. by rewrite Hji, Ht, Hv.
Qed.

Lemma UpdateTaskStatus_refused w jp task status ji t err :
  jobs (heap w) !! jp = Some ji ->
  tasks (heap w) !! task = Some t ->
  validateStatusUpdate (task_Status t) status = Some err ->
  UpdateTaskStatus jp task status w = Ok (Some err, w).
Proof.
  intros Hji Ht Hv. unfold UpdateTaskStatus. mrun. by rewrite Hji, Ht, Hv.
Qed.

Lemma fire_AllocateFunc_run task w :
  fire_AllocateFunc task w
  = Ok (tt, mkWorld (ssn w) (heap w)
                    (trace w ++ alloc_events (eventHandlers (ssn w)) task)).
Proof.
  unfold fire_AllocateFunc. cbv [bind get].
  generalize (eventHandlers (ssn w)). intros l. revert w.
  induction l as [|eh l IH]; intros w.
  - simpl. unfold ret. by rewrite app_nil_r, world_eta.
  - rewrite for_each_cons. destruct (AllocateFunc eh) as [fn|] eqn:Hfn.
    + mrun. rewrite IH. cbn [ssn heap trace alloc_events flat_map].
      by rewrite Hfn, <- app_assoc.
    + mrun. rewrite IH. cbn [alloc_events flat_map]. by rewrite Hfn.
Qed.

Lemma fire_DeallocateFunc_run task w :
  fire_DeallocateFunc task w
  = Ok (tt, mkWorld (ssn w) (heap w)
                    (trace w ++ dealloc_events (eventHandlers (ssn w)) task)).
Proof.
  unfold fire_DeallocateFunc. cbv [bind get].
  generalize (eventHandlers (ssn w)). intros l. revert w.
  induction l as [|eh l IH]; intros w.
  - simpl. unfold ret. by rewrite app_nil_r, world_eta.
  - rewrite for_each_cons. destruct (DeallocateFunc eh) as [fn|] eqn:Hfn.
    + mrun. rewrite IH. cbn [ssn heap trace dealloc_events flat_map].
      by rewrite Hfn, <- app_assoc.
    + mrun. rewrite IH. cbn [dealloc_events flat_map]. by rewrite Hfn.
Qed.

Lemma Resource_Add_Sub a r : Resource_Sub (Resource_Add a r) r = a.
Proof. destruct a, r. unfold Resource_Sub, Resource_Add. simpl. f_equal; lia. Qed.

(** The accounting of an eviction: the node's copy [old] of the task is not
    releasing, the task now is. *)
Lemma evict_accounting node old t :
  task_Status old ≠ Releasing ->
  task_Status t = Releasing ->
  task_Resreq old = task_Resreq t ->
  let node' := node_account_add (node_account_remove node old) t in
  node_Used node' = Resource_Sub (node_Used node) (task_Resreq t)
  /\ node_Releasing node' = Resource_Add (node_Releasing node) (task_Resreq t)
  /\ node_Idle node' = node_Idle node
  /\ node_Tasks node' !! task_UID t = Some t.
Proof.
  intros Hold Ht Hreq. unfold node_account_add, node_account_remove.
  rewrite Ht, Hreq. destruct (task_Status old); try done; cbn;
    rewrite Resource_Add_Sub, lookup_insert_eq; done.
Qed.

Lemma move_task_new idx t task status :
  bucket (move_task idx t task status) status !! task_UID t = Some task.
Proof. unfold move_task. by rewrite bucket_insert_eq, lookup_insert_eq. Qed.

Lemma move_task_old idx t task status :
  task_Status t ≠ status ->
  bucket (move_task idx t task status) (task_Status t) !! task_UID t = None.
Proof.
  intros Hne. unfold move_task.
  rewrite bucket_insert_ne by done. by rewrite bucket_insert_eq, lookup_delete_eq.
Qed.

(** ** Evict *)

(** C7: when the cache's Evict fails, [Evict] returns that error and nothing
    of the session or its objects changes.  When it succeeds, for a task whose
    job and node are in the session's indices and whose node holds it as a
    task that is not releasing, [Evict] returns nil, the task's status is
    Releasing and the job's index has it in the Releasing bucket, the node's
    accounting has moved the task's resources from used to releasing with idle
    as before, and the deallocate callbacks have run in registration order. *)
Theorem Evict_spec (w : World) (reclaimee : loc) (reason : string) :
  (forall err,
      cache w (CacheEvict reclaimee reason) = Some err ->
      Evict reclaimee reason w
      = Ok (Some err,
            mkWorld (ssn w) (heap w)
                    (trace w ++ [ECache (CacheEvict reclaimee reason) (Some err)])))
  /\ (forall t jp job np node old,
      cache w (CacheEvict reclaimee reason) = None ->
      tasks (heap w) !! reclaimee = Some t ->
      JobIndex (ssn w) !! task_Job t = Some jp ->
      jobs (heap w) !! jp = Some job ->
      validateStatusUpdate (task_Status t) Releasing = None ->
      NodeIndex (ssn w) !! task_NodeName t = Some np ->
      nodes (heap w) !! np = Some node ->
      node_Tasks node !! task_UID t = Some old ->
      task_Status old ≠ Releasing ->
      task_Resreq old = task_Resreq t ->
      exists job' node',
        Evict reclaimee reason w
        = Ok (None,
              mkWorld (ssn w)
                (mkStore (<[jp := job']> (jobs (heap w)))
                         (<[reclaimee := task_with_Status t Releasing]> (tasks (heap w)))
                         (<[np := node']> (nodes (heap w)))
                         (queues (heap w)))
                (trace w ++ [ECache (CacheEvict reclaimee reason) None]
                         ++ dealloc_events (eventHandlers (ssn w)) reclaimee))
        /\ bucket (job_TaskStatusIndex job') Releasing !! task_UID t = Some reclaimee
        /\ (task_Status t ≠ Releasing ->
            bucket (job_TaskStatusIndex job') (task_Status t) !! task_UID t = None)
        /\ node_Used node' = Resource_Sub (node_Used node) (task_Resreq t)
        /\ node_Releasing node' = Resource_Add (node_Releasing node) (task_Resreq t)
        /\ node_Idle node' = node_Idle node
        /\ node_Tasks node' !! task_UID t = Some (task_with_Status t Releasing)).
Proof.
  split.
  - intros err Hcache. unfold Evict. mrun. by rewrite Hcache.
  - intros t jp job np node old Hcache Ht Hjp Hjob Hv Hnp Hnode Hold Hst Hreq.
    set (t' := task_with_Status t Releasing).
    exists (job_with_TaskStatusIndex job
              (move_task (job_TaskStatusIndex job) t reclaimee Releasing)),
           (node_account_add (node_account_remove node old) t').
    split.
    + unfold Evict. mrun. rewrite Hcache. mrun. rewrite Ht. mrun. rewrite Hjp.
      erewrite UpdateTaskStatus_run by (wsimp; eassumption).
      mrun. rewrite lookup_insert_eq. mrun.
      cbn [task_NodeName task_with_Status]. rewrite Hnp.
      unfold UpdateTask. mrun. rewrite Hnode. mrun. rewrite lookup_insert_eq. mrun.
      cbn [task_UID task_with_Status]. rewrite Hold. mrun.
      rewrite fire_DeallocateFunc_run. wsimp.
      by rewrite <- app_assoc.
    + cbn [job_TaskStatusIndex job_with_TaskStatusIndex].
      split; [apply move_task_new |]. split; [apply move_task_old |].
      by apply (evict_accounting node old t').
Qed.

(** ** Rules for partial correctness *)

Lemma hoare_ret {A} (P : World -> Prop) (a : A) (Q : A -> World -> Prop) :
  (forall w, P w -> Q a w) -> hoare P (ret a) Q.
Proof. intros HPQ w a' w' HP [= <- <-]. by apply HPQ. Qed.

Lemma hoare_bind {A B} (P : World -> Prop) (m : M A) (Q : A -> World -> Prop)
    (k : A -> M B) (R : B -> World -> Prop) :
  hoare P m Q -> (forall a, hoare (Q a) (k a) R) -> hoare P (bind m k) R.
Proof.
  intros Hm Hk w b w' HP Hrun. unfold bind in Hrun.
  destruct (m w) as [[a w1]|] eqn:Hmw; [| done].
  eapply Hk; [| exact Hrun]. by eapply Hm.
Qed.

Lemma hoare_pre {A} (P P' : World -> Prop) (m : M A) (Q : A -> World -> Prop) :
  (forall w, P w -> P' w) -> hoare P' m Q -> hoare P m Q.
Proof. intros HP Hm w a w' Hw Hrun. eapply Hm; [by apply HP | done]. Qed.

Lemma hoare_post {A} (P : World -> Prop) (m : M A) (Q Q' : A -> World -> Prop) :
  (forall a w, Q' a w -> Q a w) -> hoare P m Q' -> hoare P m Q.
Proof. intros HQ Hm w a w' Hw Hrun. apply HQ. by eapply Hm. Qed.

Lemma hoare_get (P : World -> Prop) :
  hoare P get (fun w0 w => w = w0 /\ P w).
Proof. by intros w a w' HP [= <- <-]. Qed.

Lemma hoare_panic {A} (P : World -> Prop) (Q : A -> World -> Prop) : hoare P panic Q.
Proof. by intros w a w' _ Hrun. Qed.

Lemma hoare_of_option {A} (P : World -> Prop) (o : option A) :
  hoare P (of_option o) (fun a w => o = Some a /\ P w).
Proof. destruct o; [| apply hoare_panic]. by intros w a' w' HP [= <- <-]. Qed.

Lemma hoare_for_each {A} (I : World -> Prop) (l : list A) (body : A -> M unit) :
  (forall x, x ∈ l -> hoare I (body x) (fun _ => I)) ->
  hoare I (for_each l body) (fun _ => I).
Proof.
  induction l as [|x l IH]; intros Hbody.
  - by apply hoare_ret.
  - simpl. eapply hoare_bind; [apply Hbody; left |].
    intros []. apply IH. intros y Hy. apply Hbody. by right.
Qed.

Lemma hoare_deref_job (P : World -> Prop) p :
  hoare P (deref_job p) (fun j w => jobs (heap w) !! p = Some j /\ P w).
Proof.
  intros w j w' HP Hrun. unfold deref_job in Hrun. mrun in Hrun.
  destruct (jobs (heap w) !! p) eqn:Hp; [| done]. by simplify_eq.
Qed.

Lemma hoare_deref_task (P : World -> Prop) p :
  hoare P (deref_task p) (fun t w => tasks (heap w) !! p = Some t /\ P w).
Proof.
  intros w j w' HP Hrun. unfold deref_task in Hrun. mrun in Hrun.
  destruct (tasks (heap w) !! p) eqn:Hp; [| done]. by simplify_eq.
Qed.

Lemma hoare_pure {A} (P : World -> Prop) (phi : Prop) (m : M A) (Q : A -> World -> Prop) :
  (forall w, P w -> phi) -> (phi -> hoare P m Q) -> hoare P m Q.
Proof. intros Hphi Hm w a w' HP. apply Hm; eauto. Qed.

(** ** Backfill deferral *)

Section Deferral.

Variable jid : string.
Variable w0 : World.
Variable td : option loc.

Local Abbreviation Inv := (deferral_inv jid w0 td).

(** An event that does not hand a task of [jid] to [dispatch]. *)
Local Abbreviation harmless e :=
  (forall tp t0, dispatched_task e = Some tp ->
                 tasks (heap w0) !! tp = Some t0 -> task_Job t0 ≠ jid).

Lemma inv_trace w evs :
  Inv w -> (forall e, e ∈ evs -> harmless e) ->
  Inv (mkWorld (ssn w) (heap w) (trace w ++ evs)).
Proof.
  intros (Hic & Hidx & Hjob & Hbind & Htr & Htd) Hevs.
  split_and!; try done. cbn [trace]. intros e tp t0 Hin He Ht0 Hj.
  apply elem_of_app in Hin as [Hin | Hin]; [by eapply Htr |].
  by destruct (Hevs e Hin tp t0 He Ht0).
Qed.

Lemma inv_emit w e :
  Inv w -> dispatched_task e = None ->
  Inv (mkWorld (ssn w) (heap w) (trace w ++ [e])).
Proof.
  intros HI He. apply inv_trace; [done |].
  intros e' Hin tp t0 He'. apply list_elem_of_singleton in Hin. congruence.
Qed.

Lemma inv_nodes w n :
  Inv w ->
  Inv (mkWorld (ssn w)
         (mkStore (jobs (heap w)) (tasks (heap w)) n (queues (heap w))) (trace w)).
Proof. by intros (Hic & Hidx & Hjob & Hbind & Htr & Htd). Qed.

Lemma inv_topdog w u jp :
  Inv w -> JobIndex (ssn w) !! u = Some jp ->
  Inv (mkWorld (ssn_with_TopDogReadyJobs (ssn w) (<[u := jp]> (TopDogReadyJobs (ssn w))))
               (heap w) (trace w)).
Proof.
  intros (Hic & Hidx & Hjob & Hbind & Htr & Htd) Hu.
  split_and!; try done. intros jp0 Htd0. destruct (Htd jp0 Htd0) as [Ht Hi].
  cbn [ssn ssn_with_TopDogReadyJobs TopDogReadyJobs JobIndex]. split; [| done].
  destruct (decide (u = jid)) as [-> | Hne].
  - rewrite lookup_insert_eq. congruence.
  - by rewrite lookup_insert_ne.
Qed.

Lemma inv_nodename w task t hostname :
  Inv w -> tasks (heap w) !! task = Some t ->
  Inv (mkWorld (ssn w)
         (mkStore (jobs (heap w)) (<[task := task_with_NodeName t hostname]> (tasks (heap w)))
                  (nodes (heap w)) (queues (heap w)))
         (trace w)).
Proof.
  intros ((Hi1 & Hi2) & Hidx & Hjob & Hbind & Htr & Htd) Ht.
  split_and!; try done; cbn [ssn heap jobs tasks].
  - split; [exact Hi1 |]. cbn [ssn heap jobs tasks].
    intros u jp job s k p t' Hu Hjp Hk Hp.
    destruct (decide (task = p)) as [<- | Hne].
    + rewrite lookup_insert_eq in Hp. injection Hp as <-.
      by apply (Hi2 u jp job s k task t).
    + rewrite lookup_insert_ne in Hp by done. by apply (Hi2 u jp job s k p t').
  - intros tp. destruct (decide (task = tp)) as [<- | Hne].
    + rewrite lookup_insert_eq, <- Hjob, Ht. done.
    + by rewrite lookup_insert_ne.
  - intros tp t' t0 Hp Hp0. destruct (decide (task = tp)) as [<- | Hne].
    + rewrite lookup_insert_eq in Hp. injection Hp as <-. by apply (Hbind task t t0).
    + rewrite lookup_insert_ne in Hp by done. by apply (Hbind tp t' t0).
Qed.

Lemma move_task_lookup idx t task status s k p :
  bucket (move_task idx t task status) s !! k = Some p ->
  p = task \/ bucket idx s !! k = Some p.
Proof.
  unfold move_task. intros Hk.
  destruct (decide (status = s)) as [<- | Hne].
  - rewrite bucket_insert_eq in Hk.
    destruct (decide (task_UID t = k)) as [<- | Hk'].
    + rewrite lookup_insert_eq in Hk. left. congruence.
    + rewrite lookup_insert_ne in Hk by done.
      destruct (decide (task_Status t = status)) as [Hst | Hst].
      * rewrite Hst, bucket_insert_eq in Hk.
        apply lookup_delete_Some in Hk as [_ Hk]. by right.
      * rewrite bucket_insert_ne in Hk by done. by right.
  - rewrite bucket_insert_ne in Hk by done.
    destruct (decide (task_Status t = s)) as [<- | Hst].
    + rewrite bucket_insert_eq in Hk.
      apply lookup_delete_Some in Hk as [_ Hk]. by right.
    + rewrite bucket_insert_ne in Hk by done. by right.
Qed.

Lemma inv_UpdateTaskStatus w jp ji task t status :
  Inv w ->
  tasks (heap w) !! task = Some t ->
  JobIndex (ssn w) !! task_Job t = Some jp ->
  jobs (heap w) !! jp = Some ji ->
  status ≠ Binding \/ task_Job t ≠ jid ->
  Inv (mkWorld (ssn w)
         (mkStore
            (<[jp := job_with_TaskStatusIndex ji
                       (move_task (job_TaskStatusIndex ji) t task status)]> (jobs (heap w)))
            (<[task := task_with_Status t status]> (tasks (heap w)))
            (nodes (heap w)) (queues (heap w)))
         (trace w)).
Proof.
  intros ((Hi1 & Hi2) & Hidx & Hjob & Hbind & Htr & Htd) Ht Hjp Hji Hsafe.
  assert (forall p t', <[task := task_with_Status t status]> (tasks (heap w)) !! p = Some t' ->
            exists t'', tasks (heap w) !! p = Some t'' /\ task_Job t'' = task_Job t'
                        /\ (p ≠ task -> t'' = t')) as Htasks.
  { intros p t' Hp. destruct (decide (task = p)) as [<- | Hne].
    - rewrite lookup_insert_eq in Hp. injection Hp as <-. by exists t.
    - rewrite lookup_insert_ne in Hp by done. by exists t'. }
  split_and!; try done; cbn [ssn heap jobs tasks].
  - split; cbn [ssn heap jobs tasks].
    + intros u jp' Hu. destruct (Hi1 u jp' Hu) as (job & Hjob' & Huid).
      destruct (decide (jp = jp')) as [<- | Hne].
      * rewrite lookup_insert_eq. eexists. split; [done |].
        cbn. congruence.
      * rewrite lookup_insert_ne by done. eauto.
    + intros u jp' job s k p t' Hu Hjp' Hk Hp.
      destruct (Htasks p t' Hp) as (t'' & Hp'' & Hjob'' & _). rewrite <- Hjob''.
      destruct (decide (jp = jp')) as [<- | Hne].
      * rewrite lookup_insert_eq in Hjp'. injection Hjp' as <-.
        cbn [job_TaskStatusIndex job_with_TaskStatusIndex] in Hk.
        apply move_task_lookup in Hk as [-> | Hk].
        -- rewrite Ht in Hp''. injection Hp'' as <-.
           destruct (Hi1 u jp Hu) as (job1 & Hjob1 & Hu1).
           destruct (Hi1 _ jp Hjp) as (job2 & Hjob2 & Hu2). congruence.
        -- by apply (Hi2 u jp ji s k p t'').
      * rewrite lookup_insert_ne in Hjp' by done.
        by apply (Hi2 u jp' job s k p t'').
  - intros tp. destruct (decide (task = tp)) as [<- | Hne].
    + rewrite lookup_insert_eq, <- Hjob, Ht. done.
    + by rewrite lookup_insert_ne.
  - intros tp t' t0 Hp Hp0 Hj Hst. destruct (decide (task = tp)) as [<- | Hne].
    + rewrite lookup_insert_eq in Hp. injection Hp as <-.
      cbn in Hj, Hst. destruct Hsafe as [Hs | Hs]; congruence.
    + rewrite lookup_insert_ne in Hp by done. by apply (Hbind tp t' t0).
Qed.

(** Facts about the starting world that the invariant carries to the
    current one. *)
Lemma inv_task_job w task t :
  Inv w -> tasks (heap w) !! task = Some t ->
  task_Job <$> tasks (heap w0) !! task = Some (task_Job t).
Proof. intros (_ & _ & Hjob & _) Ht. by rewrite <- Hjob, Ht. Qed.

Lemma inv_task_here w task j :
  Inv w -> task_Job <$> tasks (heap w0) !! task = Some j ->
  tasks (heap w) !! task = None
  \/ exists t, tasks (heap w) !! task = Some t /\ task_Job t = j.
Proof.
  intros (_ & _ & Hjob & _) Hj. rewrite <- Hjob in Hj.
  destruct (tasks (heap w) !! task) as [t|]; [right | by left].
  exists t. split; [done |]. by injection Hj.
Qed.

Lemma inv_index w : Inv w -> JobIndex (ssn w) = JobIndex (ssn w0).
Proof. by intros (_ & Hidx & _). Qed.

Lemma hoare_emit e :
  dispatched_task e = None -> hoare Inv (emit e) (fun _ => Inv).
Proof. intros He w [] w' HI [= <-]. by apply inv_emit. Qed.

Lemma hoare_glog m : hoare Inv (glog_Errorf m) (fun _ => Inv).
Proof. by apply hoare_emit. Qed.

Lemma hoare_cache c :
  harmless (ECache c None) -> hoare Inv (cache_call c) (fun _ => Inv).
Proof.
  intros Hc w r w' HI [= <- <-]. apply inv_trace; [done |].
  intros e Hin tp t0 He. apply list_elem_of_singleton in Hin. subst e.
  apply Hc. by destruct c.
Qed.

Lemma hoare_fire_AllocateFunc task : hoare Inv (fire_AllocateFunc task) (fun _ => Inv).
Proof.
  intros w [] w' HI Hrun. rewrite fire_AllocateFunc_run in Hrun. injection Hrun as <-.
  apply inv_trace; [done |]. intros e Hin tp t0 He.
  apply list_elem_of_In, in_flat_map in Hin as (eh & _ & Hin).
  destruct (AllocateFunc eh); [| done]. by destruct Hin as [<- | []].
Qed.

Lemma hoare_fire_DeallocateFunc task : hoare Inv (fire_DeallocateFunc task) (fun _ => Inv).
Proof.
  intros w [] w' HI Hrun. rewrite fire_DeallocateFunc_run in Hrun. injection Hrun as <-.
  apply inv_trace; [done |]. intros e Hin tp t0 He.
  apply list_elem_of_In, in_flat_map in Hin as (eh & _ & Hin).
  destruct (DeallocateFunc eh); [| done]. by destruct Hin as [<- | []].
Qed.

Lemma hoare_UpdateTaskStatus jp task status j :
  task_Job <$> tasks (heap w0) !! task = Some j ->
  JobIndex (ssn w0) !! j = Some jp ->
  status ≠ Binding \/ j ≠ jid ->
  hoare Inv (UpdateTaskStatus jp task status) (fun _ => Inv).
Proof.
  intros Hj Hjp Hsafe w r w' HI Hrun.
  unfold UpdateTaskStatus in Hrun. mrun in Hrun.
  destruct (jobs (heap w) !! jp) as [ji|] eqn:Hji; [| done]. mrun in Hrun.
  destruct (tasks (heap w) !! task) as [t|] eqn:Ht; [| done]. mrun in Hrun.
  pose proof (inv_task_job w task t HI Ht) as Hj'.
  assert (task_Job t = j) as <- by congruence.
  destruct (validateStatusUpdate (task_Status t) status); mrun in Hrun;
    injection Hrun as <- <-; [done |].
  apply inv_UpdateTaskStatus; try done. by rewrite (inv_index w HI).
Qed.

Lemma hoare_AddTask np task : hoare Inv (AddTask np task) (fun _ => Inv).
Proof.
  intros w r w' HI Hrun. unfold AddTask in Hrun. mrun in Hrun.
  destruct (nodes (heap w) !! np) as [n|]; [| done]. mrun in Hrun.
  destruct (tasks (heap w) !! task) as [t|]; [| done]. mrun in Hrun.
  destruct (node_Tasks n !! task_UID t); mrun in Hrun; injection Hrun as <- <-;
    [done | by apply inv_nodes].
Qed.

Lemma hoare_UpdateTask np task : hoare Inv (UpdateTask np task) (fun _ => Inv).
Proof.
  intros w r w' HI Hrun. unfold UpdateTask in Hrun. mrun in Hrun.
  destruct (nodes (heap w) !! np) as [n|]; [| done]. mrun in Hrun.
  destruct (tasks (heap w) !! task) as [t|]; [| done]. mrun in Hrun.
  destruct (node_Tasks n !! task_UID t); mrun in Hrun; injection Hrun as <- <-;
    [by apply inv_nodes | done].
Qed.

(** Logging the error of a helper, if there is one. *)
Lemma hoare_log_error (mk : string -> LogMsg) (err : option string) :
  hoare Inv (match err with Some e => glog_Errorf (mk e) | None => ret tt end)
        (fun _ => Inv).
Proof. destruct err; [apply hoare_glog | by apply hoare_ret]. Qed.

(** The placement of [Pipeline] and [Allocate] never writes Binding. *)
Lemma hoare_place task hostname newStatus :
  newStatus ≠ Binding ->
  hoare Inv (place task hostname newStatus)
    (fun job w =>
       Inv w /\ forall jp, job = Some jp ->
                 exists j, task_Job <$> tasks (heap w0) !! task = Some j
                           /\ JobIndex (ssn w0) !! j = Some jp).
Proof.
  intros Hst. unfold place.
  eapply hoare_bind; [apply hoare_deref_task |]. intros t.
  eapply hoare_bind; [apply hoare_get |]. intros w1. cbv zeta.
  apply (hoare_pure _ (task_Job <$> tasks (heap w0) !! task = Some (task_Job t)
                       /\ JobIndex (ssn w0) !! task_Job t = JobIndex (ssn w1) !! task_Job t)).
  { intros w (-> & Ht & HI). split; [by eapply inv_task_job |].
    by rewrite (inv_index w1 HI). }
  intros [Hj Hidx].
  eapply (hoare_bind _ _ (fun _ => Inv)).
  { eapply hoare_pre; [by intros w (_ & _ & HI) |].
    destruct (JobIndex (ssn w1) !! task_Job t) as [jp|] eqn:Hjp; [| apply hoare_glog].
    eapply hoare_bind; [by eapply hoare_UpdateTaskStatus; eauto |].
    intros err. apply hoare_log_error. }
  intros [].
  eapply hoare_bind; [apply hoare_deref_task |]. intros t'.
  eapply (hoare_bind _ _ (fun _ => Inv)).
  { intros w [] w' [Ht' HI] [= <-]. by apply inv_nodename. }
  intros [].
  eapply hoare_bind; [apply hoare_get |]. intros w2.
  eapply (hoare_bind _ _ (fun _ => Inv)).
  { eapply hoare_pre; [by intros w (_ & HI) |].
    destruct (NodeIndex (ssn w2) !! hostname) as [np|]; [| apply hoare_glog].
    eapply hoare_bind; [apply hoare_AddTask |].
    intros err. apply hoare_log_error. }
  intros [].
  eapply hoare_bind; [apply hoare_fire_AllocateFunc |]. intros [].
  apply hoare_ret. intros w HI. split; [done |].
  intros jp Hjp. exists (task_Job t). split; [done |]. congruence.
Qed.

(** [dispatch] of a task that is not of [jid]. *)
Lemma hoare_dispatch p :
  (forall t0, tasks (heap w0) !! p = Some t0 -> task_Job t0 ≠ jid) ->
  hoare Inv (dispatch p) (fun _ => Inv).
Proof.
  intros Hp. unfold dispatch.
  eapply hoare_bind.
  { apply hoare_cache. intros tp t0 [= <-]. apply Hp. }
  intros [err|]; [by apply hoare_ret |].
  eapply hoare_bind; [apply hoare_deref_task |]. intros t.
  apply (hoare_pure _ (task_Job <$> tasks (heap w0) !! p = Some (task_Job t))).
  { intros w [Ht HI]. by eapply inv_task_job. }
  intros Hj.
  eapply (hoare_bind _ _ (fun _ => Inv)).
  { eapply hoare_pre; [by intros w [_ HI] |].
    apply hoare_cache. intros tp t0 [= <-]. apply Hp. }
  intros [err|]; [by apply hoare_ret |].
  eapply hoare_bind; [apply hoare_get |]. intros w1.
  apply (hoare_pure _ (JobIndex (ssn w0) !! task_Job t = JobIndex (ssn w1) !! task_Job t)).
  { intros w [-> HI]. by rewrite (inv_index w1 HI). }
  intros Hidx.
  eapply (hoare_bind _ _ (fun _ => Inv)); [| intros []; by apply hoare_ret].
  eapply hoare_pre; [by intros w [_ HI] |].
  destruct (JobIndex (ssn w1) !! task_Job t) as [jp|] eqn:Hjp; [| apply hoare_glog].
  eapply hoare_bind; [| intros err; apply hoare_log_error].
  eapply hoare_UpdateTaskStatus; [exact Hj | done |]. right.
  destruct (tasks (heap w0) !! p) as [t0|] eqn:Ht0; [| done].
  injection Hj as <-. by apply Hp.
Qed.

(** The dispatch loop over the Allocated tasks of a job other than [jid]. *)
Lemma hoare_dispatch_ready jp u :
  JobIndex (ssn w0) !! u = Some jp -> u ≠ jid ->
  hoare Inv (dispatch_ready jp) (fun _ => Inv).
Proof.
  intros Hu Hne. unfold dispatch_ready, range_tasks.
  eapply hoare_bind; [apply hoare_deref_job |]. intros job.
  eapply hoare_bind; [apply hoare_get |]. intros w1.
  eapply hoare_pre; [by intros w (_ & _ & HI) |].
  apply hoare_for_each. intros [k p0] _. unfold range_entry. cbn [fst].
  eapply hoare_bind; [apply hoare_deref_job |]. intros job'.
  destruct (bucket (job_TaskStatusIndex job') Allocated !! k) as [task|] eqn:Hk;
    [| apply hoare_ret; by intros w [_ HI]].
  apply (hoare_pure _ (forall t0, tasks (heap w0) !! task = Some t0 -> task_Job t0 ≠ jid)).
  { intros w [Hjob HI] t0 Ht0.
    assert (task_Job <$> tasks (heap w0) !! task = Some (task_Job t0)) as Hj
      by by rewrite Ht0.
    destruct (inv_task_here w task _ HI Hj) as [Hnone | (t & Ht & Htj)].
    { destruct HI as (_ & _ & Hjobs & _). specialize (Hjobs task).
      by rewrite Hnone, Ht0 in Hjobs. }
    destruct HI as ((_ & Hi2) & Hidx & _). rewrite <- Hidx in Hu.
    rewrite <- Htj. by rewrite (Hi2 u jp job' Allocated k task t). }
  intros Hsafe. unfold dispatch_logged.
  eapply hoare_bind; [| intros err; apply hoare_log_error].
  eapply hoare_pre; [by intros w [_ HI] |]. by apply hoare_dispatch.
Qed.

Lemma hoare_Allocate_ready job b :
  (forall jp, job = Some jp ->
     exists u, JobIndex (ssn w0) !! u = Some jp /\ (b = false -> u ≠ jid)) ->
  hoare Inv (Allocate_ready job b) (fun _ => Inv).
Proof.
  intros Hjob. unfold Allocate_ready.
  eapply hoare_bind; [apply hoare_get |]. intros w1.
  destruct (JobReady w1 job && negb b) eqn:Hready.
  - apply andb_prop in Hready as [_ Hb]. apply negb_true_iff in Hb.
    eapply hoare_bind; [apply hoare_of_option |]. intros jp.
    apply (hoare_pure _ (job = Some jp)); [by intros w [? _] |]. intros Hjp.
    destruct (Hjob jp Hjp) as (u & Hu & Hne).
    eapply hoare_pre; [by intros w (_ & _ & HI) |].
    apply (hoare_dispatch_ready jp u); auto.
  - destruct (JobReady w1 job); [| apply hoare_ret; by intros w [_ HI]].
    eapply hoare_bind; [apply hoare_of_option |]. intros jp.
    apply (hoare_pure _ (job = Some jp)); [by intros w [? _] |]. intros Hjp.
    destruct (Hjob jp Hjp) as (u & Hu & _).
    eapply hoare_bind; [apply hoare_deref_job |]. intros ji.
    intros w [] w' (Hji & _ & _ & HI) [= <-].
    pose proof HI as ((Hi1 & _) & Hidx & _). rewrite <- Hidx in Hu.
    destruct (Hi1 u jp Hu) as (ji' & Hji' & Huid).
    assert (ji' = ji) as -> by congruence. rewrite Huid.
    by apply inv_topdog.
Qed.

Lemma hoare_Allocate task hostname b :
  (b = false -> forall t0, tasks (heap w0) !! task = Some t0 -> task_Job t0 ≠ jid) ->
  hoare Inv (Allocate task hostname b) (fun _ => Inv).
Proof.
  intros Hsafe. unfold Allocate.
  eapply hoare_bind; [by apply hoare_cache |].
  intros [err|]; [by apply hoare_ret |].
  eapply hoare_bind; [apply hoare_place; by destruct b |]. intros job.
  apply (hoare_pure _ (forall jp, job = Some jp ->
           exists j, task_Job <$> tasks (heap w0) !! task = Some j
                     /\ JobIndex (ssn w0) !! j = Some jp)); [by intros w [_ ?] |].
  intros Hjob.
  eapply (hoare_bind _ _ (fun _ => Inv)); [| intros []; by apply hoare_ret].
  eapply hoare_pre; [by intros w [HI _] |].
  apply hoare_Allocate_ready. intros jp Hjp.
  destruct (Hjob jp Hjp) as (j & Hj & Hidx). exists j. split; [done |].
  intros Hb. destruct (tasks (heap w0) !! task) as [t0|] eqn:Ht0; [| done].
  injection Hj as <-. by apply Hsafe.
Qed.

Lemma hoare_Pipeline task hostname :
  hoare Inv (Pipeline task hostname) (fun _ => Inv).
Proof.
  unfold Pipeline.
  eapply hoare_bind; [by apply hoare_place |].
  intros job. apply hoare_ret. by intros w [HI _].
Qed.

Lemma hoare_Evict task reason : hoare Inv (Evict task reason) (fun _ => Inv).
Proof.
  unfold Evict.
  eapply hoare_bind; [by apply hoare_cache |].
  intros [err|]; [by apply hoare_ret |].
  eapply hoare_bind; [apply hoare_deref_task |]. intros t.
  eapply hoare_bind; [apply hoare_get |]. intros w1.
  apply (hoare_pure _ (task_Job <$> tasks (heap w0) !! task = Some (task_Job t)
                       /\ JobIndex (ssn w0) !! task_Job t = JobIndex (ssn w1) !! task_Job t)).
  { intros w (-> & Ht & HI). split; [by eapply inv_task_job |].
    by rewrite (inv_index w1 HI). }
  intros [Hj Hidx].
  eapply (hoare_bind _ _ (fun _ => Inv)).
  { eapply hoare_pre; [by intros w (_ & _ & HI) |].
    destruct (JobIndex (ssn w1) !! task_Job t) as [jp|] eqn:Hjp; [| apply hoare_glog].
    eapply hoare_bind; [by eapply hoare_UpdateTaskStatus; eauto |].
    intros err. apply hoare_log_error. }
  intros [].
  eapply hoare_bind; [apply hoare_deref_task |]. intros t'.
  eapply hoare_bind; [apply hoare_get |]. intros w2.
  eapply (hoare_bind _ _ (fun _ => Inv)).
  { eapply hoare_pre; [by intros w (_ & _ & HI) |].
    destruct (NodeIndex (ssn w2) !! task_NodeName t') as [np|]; [| by apply hoare_ret].
    eapply hoare_bind; [apply hoare_UpdateTask |].
    intros err. apply hoare_log_error. }
  intros [].
  eapply hoare_bind; [apply hoare_fire_DeallocateFunc |]. intros [].
  by apply hoare_ret.
Qed.

(** A cycle keeps the invariant when every placement of a task of [jid] that
    is not over backfill is excluded. *)
Lemma hoare_run_ops ops :
  (forall task hostname t0,
      OpAllocate task hostname false ∈ ops ->
      tasks (heap w0) !! task = Some t0 -> task_Job t0 ≠ jid) ->
  hoare Inv (run_ops ops) (fun _ => Inv).
Proof.
  induction ops as [|o ops IH]; intros Hops; [by apply hoare_ret |].
  simpl. eapply (hoare_bind _ _ (fun _ => Inv)).
  - destruct o as [task hostname | task hostname b | task reason]; simpl.
    + apply hoare_Pipeline.
    + apply hoare_Allocate. intros -> t0. apply (Hops task hostname). left.
    + apply hoare_Evict.
  - intros _. apply IH. intros task hostname t0 Hin. apply (Hops task hostname). by right.
Qed.

End Deferral.

Lemma run_ops_app l1 l2 w :
  run_ops (l1 ++ l2) w
  = match run_ops l1 w with Ok (_, w1) => run_ops l2 w1 | Panic => Panic end.
Proof.
  revert w. induction l1 as [|o l1 IH]; intros w; [done |].
  simpl. unfold bind. destruct (run_op o w) as [[r w1]|]; [apply IH | done].
Qed.

Lemma deferral_inv_start jid w0 : index_consistent w0 -> deferral_inv jid w0 None w0.
Proof.
  intros Hic. split_and!; try done.
  intros tp t t0 Ht Ht0. congruence.
Qed.

Lemma deferral_inv_recorded jid w0 w jp :
  deferral_inv jid w0 None w ->
  TopDogReadyJobs (ssn w) !! jid = Some jp ->
  JobIndex (ssn w) !! jid = Some jp ->
  deferral_inv jid w0 (Some jp) w.
Proof.
  intros (Hic & Hidx & Hjob & Hbind & Htr & _) Htd Hjp.
  split_and!; try done. by intros jp' [= <-].
Qed.

(** C3: take a cycle in which every [Allocate] of a task of the job passes
    usingBackfillTaskRes=true, so that the job can only become ready over
    backfill capacity.  Then no task of the job reaches Binding during the
    cycle, none is handed to [dispatch] (the cache is asked no BindVolumes and
    no Bind for it), and once an [Allocate] of the cycle has found the job
    ready the job is in the session's backfill-ready set. *)
Theorem backfill_deferral (jid : string) (w0 : World) (ops : list Op) (w' : World) :
  index_consistent w0 ->
  (forall task hostname t0,
      OpAllocate task hostname false ∈ ops ->
      tasks (heap w0) !! task = Some t0 -> task_Job t0 ≠ jid) ->
  run_ops ops w0 = Ok (tt, w') ->
  (forall tp t', tasks (heap w') !! tp = Some t' ->
      task_Job t' = jid -> task_Status t' = Binding ->
      exists t0, tasks (heap w0) !! tp = Some t0 /\ task_Status t0 = Binding)
  /\ (forall e tp t',
        e ∈ trace w' -> dispatched_task e = Some tp ->
        tasks (heap w') !! tp = Some t' -> task_Job t' = jid -> e ∈ trace w0)
  /\ (forall ops1 task hostname ops2 w1 jp wc,
        ops = ops1 ++ OpAllocate task hostname true :: ops2 ->
        run_ops ops1 w0 = Ok (tt, w1) ->
        cache w1 (AllocateVolumes task hostname) = None ->
        place task hostname AllocatedOverBackfill
              (after_call w1 (AllocateVolumes task hostname) None) = Ok (Some jp, wc) ->
        JobIndex (ssn w0) !! jid = Some jp ->
        JobReady wc (Some jp) = true ->
        TopDogReadyJobs (ssn w') !! jid = Some jp).
Proof.
  intros Hic Hops Hrun.
  pose proof (deferral_inv_start jid w0 Hic) as HI0.
  pose proof (hoare_run_ops jid w0 None ops Hops w0 tt w' HI0 Hrun)
    as (_ & _ & Hjob & Hbind & Htr & _).
  assert (forall tp t', tasks (heap w') !! tp = Some t' ->
            exists t0, tasks (heap w0) !! tp = Some t0 /\ task_Job t0 = task_Job t') as Hback.
  { intros tp t' Ht'. specialize (Hjob tp). rewrite Ht' in Hjob.
    destruct (tasks (heap w0) !! tp) as [t0|]; [| done].
    exists t0. split; [done |]. by injection Hjob. }
  split_and!.
  - intros tp t' Ht' Hj Hst. destruct (Hback tp t' Ht') as (t0 & Ht0 & _).
    exists t0. split; [done |]. by apply (Hbind tp t' t0).
  - intros e tp t' He Hd Ht' Hj. destruct (Hback tp t' Ht') as (t0 & Ht0 & Hj0).
    apply (Htr e tp t0); [done | done | done | congruence].
  - intros ops1 task hostname ops2 w1 jp wc -> Hrun1 Hcache Hplace Hjp Hready.
    rewrite run_ops_app, Hrun1 in Hrun.
    assert (forall task' hostname' t0,
              OpAllocate task' hostname' false ∈ ops1 ->
              tasks (heap w0) !! task' = Some t0 -> task_Job t0 ≠ jid) as Hops1.
    { intros ??? Hin. apply (Hops task' hostname'). apply elem_of_app. by left. }
    assert (forall task' hostname' t0,
              OpAllocate task' hostname' false ∈ ops2 ->
              tasks (heap w0) !! task' = Some t0 -> task_Job t0 ≠ jid) as Hops2.
    { intros ??? Hin. apply (Hops task' hostname'). apply elem_of_app. right. by right. }
    pose proof (hoare_run_ops jid w0 None ops1 Hops1 w0 tt w1 HI0 Hrun1) as HI1.
    assert (deferral_inv jid w0 None (after_call w1 (AllocateVolumes task hostname) None))
      as HI1'.
    { by apply inv_emit. }
    destruct (hoare_place jid w0 None task hostname AllocatedOverBackfill
                ltac:(done) _ _ _ HI1' Hplace) as [HIc _].
    pose proof HIc as ((Hi1 & _) & Hidx & _).
    rewrite <- Hidx in Hjp. destruct (Hi1 jid jp Hjp) as (ji & Hji & Huid).
    simpl in Hrun. unfold bind at 1 in Hrun. unfold Allocate in Hrun.
    unfold bind at 1, cache_call at 1 in Hrun. rewrite Hcache in Hrun.
    unfold bind at 1 in Hrun. fold (after_call w1 (AllocateVolumes task hostname) None) in Hrun.
    rewrite Hplace in Hrun.
    unfold bind at 1, Allocate_ready in Hrun. mrun in Hrun.
    rewrite Hready in Hrun. cbn [negb andb] in Hrun. cbv beta in Hrun.
    rewrite Hji in Hrun. rewrite Huid in Hrun.
    match type of Hrun with run_ops ops2 ?wtd = _ =>
      assert (deferral_inv jid w0 (Some jp) wtd) as HItd end.
    { apply deferral_inv_recorded; cbn [ssn ssn_with_TopDogReadyJobs TopDogReadyJobs JobIndex];
        [| by rewrite lookup_insert_eq | done].
      by apply inv_topdog. }
    pose proof (hoare_run_ops jid w0 (Some jp) ops2 Hops2 _ tt w' HItd Hrun)
      as (_ & _ & _ & _ & _ & Htd).
    by destruct (Htd jp eq_refl).
Qed.

(** ** The readiness-triggered dispatch batch *)





(** ** What Allocate returns *)

(** When [Allocate] returns, what it returns is the cache's answer to
    AllocateVolumes: nothing that goes wrong after the reservation shows in
    the result. *)
Lemma Allocate_returns_cache_answer w task hostname b r w' :
  Allocate task hostname b w = Ok (r, w') ->
  r = cache w (AllocateVolumes task hostname).
Proof.
  unfold Allocate. unfold bind at 1, cache_call at 1.
  destruct (cache w (AllocateVolumes task hostname)) as [err|].
  - by intros [= <- _].
  - unfold bind at 1. destruct (place _ _ _ _) as [[job w2]|]; [| done].
    unfold bind at 1. destruct (Allocate_ready _ _ _) as [[[] w3]|]; [| done].
    by intros [= <- _].
Qed.

(** ** Allocate when the task's job is not in the index *)

(** C10, what the code does: when the volumes are reserved and the task's job
    is not in the session's index, [job] is nil; if the readiness policies
    accept the nil job, reading [job.TaskStatusIndex] (or [job.UID], over
    backfill) is a nil dereference and [Allocate] panics instead of returning
    nil. *)
Theorem Allocate_missing_job_panics (w : World) (task : loc) (hostname : string)
    (usingBackfillTaskRes : bool) (w2 : World) :
  cache w (AllocateVolumes task hostname) = None ->
  place task hostname (if usingBackfillTaskRes then AllocatedOverBackfill else Allocated)
        (after_call w (AllocateVolumes task hostname) None)
  = Ok (None, w2) ->
  JobReady w2 None = true ->
  Allocate task hostname usingBackfillTaskRes w = Panic.
Proof.
  intros Hcache Hplace Hready.
  unfold Allocate. unfold bind at 1, cache_call at 1. rewrite Hcache.
  fold (after_call w (AllocateVolumes task hostname) None).
  unfold bind at 1. rewrite Hplace.
  unfold bind at 1, Allocate_ready. mrun. rewrite Hready.
  by destruct usingBackfillTaskRes.
Qed.

(** ** What the primitives leave alone *)

Lemma cache_calls_app tr1 tr2 :
  cache_calls (tr1 ++ tr2) = cache_calls tr1 ++ cache_calls tr2.
Proof. apply omap_app. Qed.

Lemma callbacks_app tr1 tr2 : callbacks (tr1 ++ tr2) = callbacks tr1 ++ callbacks tr2.
Proof. apply omap_app. Qed.

Lemma logged_app tr1 tr2 : logged (tr1 ++ tr2) = logged tr1 ++ logged tr2.
Proof. apply omap_app. Qed.

Lemma cache_calls_alloc_events l task : cache_calls (alloc_events l task) = [].
Proof. induction l as [|eh l IH]; [done|]. cbn. by destruct (AllocateFunc eh). Qed.

Lemma cache_calls_dealloc_events l task : cache_calls (dealloc_events l task) = [].
Proof. induction l as [|eh l IH]; [done|]. cbn. by destruct (DeallocateFunc eh). Qed.

Lemma callbacks_alloc_events l task :
  callbacks (alloc_events l task) = alloc_events l task.
Proof.
  induction l as [|eh l IH]; [done|]. cbn.
  destruct (AllocateFunc eh); cbn; [f_equal|]; exact IH.
Qed.

Lemma callbacks_dealloc_events l task :
  callbacks (dealloc_events l task) = dealloc_events l task.
Proof.
  induction l as [|eh l IH]; [done|]. cbn.
  destruct (DeallocateFunc eh); cbn; [f_equal|]; exact IH.
Qed.

Lemma logged_alloc_events l task : logged (alloc_events l task) = [].
Proof. induction l as [|eh l IH]; [done|]. cbn. by destruct (AllocateFunc eh). Qed.

Lemma logged_dealloc_events l task : logged (dealloc_events l task) = [].
Proof. induction l as [|eh l IH]; [done|]. cbn. by destruct (DeallocateFunc eh). Qed.

Ltac mexec H :=
  repeat first
    [ progress mrun in H
    | rewrite lookup_insert_eq in H
    | rewrite fire_AllocateFunc_run in H
    | rewrite fire_DeallocateFunc_run in H
    | mcase H; try discriminate H ].

Ltac tr_simpl :=
  rewrite ?cache_calls_app, ?callbacks_app, ?logged_app,
    ?cache_calls_alloc_events, ?cache_calls_dealloc_events,
    ?callbacks_alloc_events, ?callbacks_dealloc_events,
    ?logged_alloc_events, ?logged_dealloc_events;
  cbn; rewrite ?app_nil_r, <- ?app_assoc; cbn [app].

Ltac placed :=
  cbv [placed_as task_with_NodeName task_with_Status]; cbn; repeat split; auto.

Ltac conjs := repeat match goal with |- _ /\ _ => split end.

Lemma place_effect task hostname status w job w' :
  place task hostname status w = Ok (job, w') ->
  exists t t',
    tasks (heap w) !! task = Some t
    /\ tasks (heap w') !! task = Some t'
    /\ placed_as t hostname status t'
    /\ job = JobIndex (ssn w) !! task_Job t
    /\ ssn w' = ssn w
    /\ queues (heap w') = queues (heap w)
    /\ (forall q, q <> task -> tasks (heap w') !! q = tasks (heap w) !! q)
    /\ (forall p, job <> Some p -> jobs (heap w') !! p = jobs (heap w) !! p)
    /\ (forall p, NodeIndex (ssn w) !! hostname <> Some p ->
          nodes (heap w') !! p = nodes (heap w) !! p)
    /\ cache_calls (trace w') = cache_calls (trace w)
    /\ callbacks (trace w')
       = callbacks (trace w) ++ alloc_events (eventHandlers (ssn w)) task.
Proof.
  intros H. unfold place, UpdateTaskStatus, AddTask in H.
  mexec H.
  all: simplify_eq; wsimp; eexists _, _.
  all: split; [reflexivity|].
  all: split; [apply lookup_insert_eq|].
  all: split; [cbv [placed_as task_with_NodeName task_with_Status]; cbn; repeat split; auto|].
  all: split; [done|].
  all: split; [done|].
  all: split; [done|].
  all: split; [by intros q Hq; rewrite !lookup_insert_ne|].
  all: split; [intros q Hq; try rewrite lookup_insert_ne by congruence; done|].
  all: split; [intros q Hq; try rewrite lookup_insert_ne by congruence; done|].
  all: rewrite !cache_calls_app, !callbacks_app, cache_calls_alloc_events,
         callbacks_alloc_events; cbn; by rewrite ?app_nil_r.
Qed.


Lemma dispatch_effect task w r w' :
  dispatch task w = Ok (r, w') ->
  ssn w' = ssn w
  /\ nodes (heap w') = nodes (heap w)
  /\ queues (heap w') = queues (heap w)
  /\ callbacks (trace w') = callbacks (trace w)
  /\ (forall q, q <> task -> tasks (heap w') !! q = tasks (heap w) !! q)
  /\ (forall q t, tasks (heap w) !! q = Some t ->
        exists t', tasks (heap w') !! q = Some t' /\ placed_as t (task_NodeName t) Binding t')
  /\ (forall p, is_Some (jobs (heap w') !! p) <-> is_Some (jobs (heap w) !! p))
  /\ match r with
     | Some err =>
         heap w' = heap w
         /\ logged (trace w') = logged (trace w)
         /\ (cache_calls (trace w')
             = cache_calls (trace w) ++ [(BindVolumes task, Some err)]
             \/ exists t, tasks (heap w) !! task = Some t
                  /\ cache_calls (trace w')
                     = cache_calls (trace w)
                       ++ [(BindVolumes task, None);
                           (Bind task (task_NodeName t), Some err)])
     | None =>
         exists t t',
           tasks (heap w) !! task = Some t
           /\ tasks (heap w') !! task = Some t'
           /\ cache_calls (trace w')
              = cache_calls (trace w)
                ++ [(BindVolumes task, None); (Bind task (task_NodeName t), None)]
           /\ (task_Status t' = Binding /\ logged (trace w') = logged (trace w)
               \/ heap w' = heap w
                  /\ exists m, logged (trace w') = logged (trace w) ++ [m])
     end.
Proof.
  intros H. unfold dispatch, UpdateTaskStatus in H.
  mexec H.
  all: simplify_eq; wsimp; conjs; try done.
  all: try (tr_simpl; done).
  all: try (intros q Hq; rewrite ?lookup_insert_ne by done; done).
  all: try (intros q t0 Hq; destruct (decide (q = task)) as [->|];
            [rewrite ?lookup_insert_eq | rewrite ?lookup_insert_ne by done];
            simplify_eq; eexists; (split; [done|]); placed).
  all: try (intros p0; destruct (decide (p0 = p)) as [->|];
            [rewrite lookup_insert_eq | rewrite lookup_insert_ne by done];
            [split; eauto | done]).
  - left. tr_simpl. done.
  - right. eexists. split; [done|]. tr_simpl. done.
  - eexists _, _. split; [done|]. split; [eassumption|]. split; [tr_simpl; done|].
    right. split; [done|]. eexists. tr_simpl. done.
  - eexists _, _. split; [done|]. split; [apply lookup_insert_eq|].
    split; [tr_simpl; done|]. left. split; [done|]. tr_simpl. done.
  - eexists _, _. split; [done|]. split; [eassumption|]. split; [tr_simpl; done|].
    right. split; [done|]. eexists. tr_simpl. done.
Qed.

Lemma Evict_effect reclaimee reason w r w' :
  Evict reclaimee reason w = Ok (r, w') ->
  r = cache w (CacheEvict reclaimee reason)
  /\ ssn w' = ssn w
  /\ queues (heap w') = queues (heap w)
  /\ cache_calls (trace w')
     = cache_calls (trace w) ++ [(CacheEvict reclaimee reason, r)]
  /\ (forall q, q <> reclaimee -> tasks (heap w') !! q = tasks (heap w) !! q)
  /\ match r with
     | Some _ =>
         heap w' = heap w
         /\ callbacks (trace w') = callbacks (trace w)
         /\ logged (trace w') = logged (trace w)
     | None =>
         exists t t',
           tasks (heap w) !! reclaimee = Some t
           /\ tasks (heap w') !! reclaimee = Some t'
           /\ placed_as t (task_NodeName t) Releasing t'
           /\ callbacks (trace w')
              = callbacks (trace w) ++ dealloc_events (eventHandlers (ssn w)) reclaimee
           /\ (forall p, JobIndex (ssn w) !! task_Job t <> Some p ->
                 jobs (heap w') !! p = jobs (heap w) !! p)
           /\ (forall p, NodeIndex (ssn w) !! task_NodeName t <> Some p ->
                 nodes (heap w') !! p = nodes (heap w) !! p)
           /\ (JobIndex (ssn w) !! task_Job t = None ->
                 t' = t /\ LogJobNotFound (task_Job t) ∈ logged (trace w'))
           /\ (NodeIndex (ssn w) !! task_NodeName t = None ->
                 length (logged (trace w')) <= S (length (logged (trace w))))%nat
     end.
Proof.
  intros H. unfold Evict, UpdateTaskStatus, UpdateTask in H.
  mexec H.
  all: simplify_eq; wsimp; conjs; try done.
  all: try (tr_simpl; done).
  all: try (intros q Hq; rewrite ?lookup_insert_ne by done; done).
  all: eexists _, _; split; [done|].
  all: split; [first [eassumption | apply lookup_insert_eq]|].
  all: split; [placed|]; conjs.
  all: try (tr_simpl; done).
  all: try (intros q Hq; rewrite ?lookup_insert_ne by congruence; done).
  all: try (intros Hnone; congruence).
  all: try (intros Hnone; split; [done|]; tr_simpl; apply elem_of_app; right; in_list).
  all: try (intros Hnone; tr_simpl; rewrite ?length_app; cbn; lia).
  all: intros q Hq; rewrite lookup_insert_ne; [done | intros ->; apply Hq; assumption].
Qed.

(** ** The primitives return *)

Ltac mabsurd Hj Hn :=
  simplify_eq;
  first
    [ destruct (Hj _ eq_refl) as [? ?]; congruence
    | destruct (Hn _ eq_refl) as [? ?]; congruence
    | match goal with
      | Hx : JobIndex _ !! _ = Some ?p, Hy : jobs _ !! ?p = None |- _ =>
          destruct (Hj _ Hx) as [? ?]; congruence
      | Hx : NodeIndex _ !! _ = Some ?p, Hy : nodes _ !! ?p = None |- _ =>
          destruct (Hn _ Hx) as [? ?]; congruence
      end ].

Lemma Evict_returns reclaimee reason w t :
  tasks (heap w) !! reclaimee = Some t ->
  (forall jp, JobIndex (ssn w) !! task_Job t = Some jp -> is_Some (jobs (heap w) !! jp)) ->
  (forall np, NodeIndex (ssn w) !! task_NodeName t = Some np ->
     is_Some (nodes (heap w) !! np)) ->
  exists w', Evict reclaimee reason w = Ok (cache w (CacheEvict reclaimee reason), w').
Proof.
  intros Ht Hj Hn.
  destruct (Evict reclaimee reason w) as [[r w']|] eqn:H.
  - apply Evict_effect in H as (-> & _). eauto.
  - exfalso. unfold Evict, UpdateTaskStatus, UpdateTask in H. mexec H.
    all: mabsurd Hj Hn.
Qed.

Lemma dispatch_returns task w t :
  tasks (heap w) !! task = Some t ->
  (forall jp, JobIndex (ssn w) !! task_Job t = Some jp -> is_Some (jobs (heap w) !! jp)) ->
  exists r w', dispatch task w = Ok (r, w').
Proof.
  intros Ht Hj. destruct (dispatch task w) as [[r w']|] eqn:H; [eauto|].
  exfalso. unfold dispatch, UpdateTaskStatus in H. mexec H.
  all: simplify_eq; first [ destruct (Hj _ eq_refl) as [? ?]; congruence
                          | match goal with
                            | Hx : JobIndex _ !! _ = Some _ |- _ =>
                                destruct (Hj _ Hx) as [? ?]; congruence
                            end ].
Qed.

(** ** What a cycle keeps *)

Lemma task_kept_refl t : task_kept t t.
Proof. by repeat split. Qed.

Lemma job_kept_refl j : job_kept j j.
Proof. by repeat split. Qed.

Lemma task_kept_trans t1 t2 t3 : task_kept t1 t2 -> task_kept t2 t3 -> task_kept t1 t3.
Proof.
  intros (H1 & H2 & H3 & H4 & H5) (G1 & G2 & G3 & G4 & G5).
  repeat split; congruence.
Qed.

Lemma job_kept_trans j1 j2 j3 : job_kept j1 j2 -> job_kept j2 j3 -> job_kept j1 j3.
Proof.
  intros (H1 & H2 & H3 & H4) (G1 & G2 & G3 & G4). repeat split; congruence.
Qed.

Lemma kept_refl {A} (R : A -> A -> Prop) (o : option A) :
  (forall x, R x x) -> option_Forall2 R o o.
Proof. intros HR. destruct o; constructor. apply HR. Qed.

Lemma kept_trans {A} (R : A -> A -> Prop) (o1 o2 o3 : option A) :
  (forall x y z, R x y -> R y z -> R x z) ->
  option_Forall2 R o1 o2 -> option_Forall2 R o2 o3 -> option_Forall2 R o1 o3.
Proof.
  intros HR H12 H23. destruct H12; inversion H23; subst; constructor. by eapply HR.
Qed.

Lemma kept_insert {A} (R : A -> A -> Prop) (m : gmap loc A) p x y :
  (forall x, R x x) -> m !! p = Some x -> R x y ->
  forall q, option_Forall2 R (m !! q) (<[p := y]> m !! q).
Proof.
  intros HR Hp Hxy q. destruct (decide (q = p)) as [->|Hne].
  - rewrite Hp, lookup_insert_eq. by constructor.
  - rewrite lookup_insert_ne by done. by apply kept_refl.
Qed.

Lemma heap_kept_refl h : heap_kept h h.
Proof.
  split; [done|]. split; [|split]; intros p; by apply kept_refl.
Qed.

Lemma heap_kept_trans h1 h2 h3 : heap_kept h1 h2 -> heap_kept h2 h3 -> heap_kept h1 h3.
Proof.
  intros (Hq & Ht & Hj & Hn) (Hq' & Ht' & Hj' & Hn').
  split; [congruence|]. split; [|split]; intros p.
  - eapply kept_trans; [apply task_kept_trans | apply Ht | apply Ht'].
  - eapply kept_trans; [apply job_kept_trans | apply Hj | apply Hj'].
  - eapply kept_trans; [| apply Hn | apply Hn']. unfold node_kept. congruence.
Qed.

Lemma session_kept_refl s : session_kept s s.
Proof. unfold session_kept. conjs; try done. intros u jp Hu. by left. Qed.

Lemma session_kept_trans s1 s2 s3 :
  session_kept s1 s2 -> session_kept s2 s3 -> session_kept s1 s3.
Proof.
  intros (H1 & H2 & H3 & H4 & H5 & H6 & H7 & H8 & H9 & H10 & H11 & H12)
         (G1 & G2 & G3 & G4 & G5 & G6 & G7 & G8 & G9 & G10 & G11 & G12).
  unfold session_kept. conjs; try congruence.
  - intros u Hu. apply G11, H11, Hu.
  - intros u jp Hu. destruct (G12 u jp Hu) as [Hu' | [k Hk]].
    + by apply H12.
    + right. exists k. by rewrite <- H3.
Qed.

Lemma session_kept_TopDog s u jp k :
  JobIndex s !! k = Some jp ->
  session_kept s (ssn_with_TopDogReadyJobs s (<[u := jp]> (TopDogReadyJobs s))).
Proof.
  intros Hk. unfold session_kept. cbn. conjs; try done.
  - intros u' Hu'. destruct (decide (u' = u)) as [->|Hne].
    + rewrite lookup_insert_eq. eauto.
    + by rewrite lookup_insert_ne.
  - intros u' jp' Hu'. destruct (decide (u' = u)) as [->|Hne].
    + rewrite lookup_insert_eq in Hu'. simplify_eq. right. eauto.
    + rewrite lookup_insert_ne in Hu' by done. by left.
Qed.

Lemma world_kept_refl w : world_kept w w.
Proof.
  split; [apply session_kept_refl|]. split; [apply heap_kept_refl|].
  exists []. by rewrite app_nil_r.
Qed.

Lemma world_kept_trans w1 w2 w3 : world_kept w1 w2 -> world_kept w2 w3 -> world_kept w1 w3.
Proof.
  intros (Hs & Hh & evs & Ht) (Hs' & Hh' & evs' & Ht').
  split; [by eapply session_kept_trans|]. split; [by eapply heap_kept_trans|].
  exists (evs ++ evs'). by rewrite Ht', Ht, app_assoc.
Qed.

(** A world that differs in the heap and the trace only. *)
Lemma world_kept_heap w w' :
  ssn w' = ssn w -> heap_kept (heap w) (heap w') ->
  (exists evs, trace w' = trace w ++ evs) -> world_kept w w'.
Proof. intros Hs Hh Ht. split; [rewrite Hs; apply session_kept_refl | done]. Qed.

Lemma node_kept_add n t : node_kept n (node_account_add n t).
Proof. unfold node_kept, node_account_add. by destruct (task_Status t). Qed.

Lemma node_kept_remove n t : node_kept n (node_account_remove n t).
Proof. unfold node_kept, node_account_remove. by destruct (task_Status t). Qed.

Ltac kept_rel :=
  first
    [ apply task_kept_refl
    | apply job_kept_refl
    | by (cbv [task_kept job_kept node_kept task_with_NodeName task_with_Status
               job_with_TaskStatusIndex]; cbn; repeat split)
    | apply node_kept_add
    | unfold node_kept; etrans; [apply node_kept_add | apply node_kept_remove] ].

Ltac kept_heap :=
  split; [done|]; split; [|split]; wsimp; rewrite ?insert_insert_eq;
  first
    [ intros q; apply kept_refl; first [apply task_kept_refl | apply job_kept_refl | done]
    | eapply kept_insert;
      [ first [apply task_kept_refl | apply job_kept_refl | done]
      | eassumption
      | kept_rel ] ].

Ltac kept_world :=
  apply world_kept_heap; wsimp;
  [ done | kept_heap | eexists; rewrite <- ?app_assoc; reflexivity ].

Lemma place_kept task hostname status w job w' :
  place task hostname status w = Ok (job, w') -> ssn w' = ssn w /\ world_kept w w'.
Proof.
  intros H. unfold place, UpdateTaskStatus, AddTask in H. mexec H.
  all: simplify_eq; split; [done|]; kept_world.
Qed.

Lemma dispatch_kept task w r w' :
  dispatch task w = Ok (r, w') -> world_kept w w'.
Proof.
  intros H. unfold dispatch, UpdateTaskStatus in H. mexec H.
  all: simplify_eq; kept_world.
Qed.

Lemma Evict_kept reclaimee reason w r w' :
  Evict reclaimee reason w = Ok (r, w') -> world_kept w w'.
Proof.
  intros H. unfold Evict, UpdateTaskStatus, UpdateTask in H. mexec H.
  all: simplify_eq; kept_world.
Qed.

Lemma placed_as_refl t status : placed_as t (task_NodeName t) status t.
Proof. unfold placed_as. repeat split; auto. Qed.

Lemma placed_as_trans t t' t'' status :
  placed_as t (task_NodeName t) status t' ->
  placed_as t' (task_NodeName t') status t'' ->
  placed_as t (task_NodeName t) status t''.
Proof.
  intros (H1 & H2 & H3 & H4 & H5 & H6 & H7) (G1 & G2 & G3 & G4 & G5 & G6 & G7).
  unfold placed_as. conjs; try congruence.
  destruct G7 as [G7|G7]; [| by right]. destruct H7 as [H7|H7]; [left | right]; congruence.
Qed.

Lemma batch_rel_refl w : batch_rel w w.
Proof.
  split; [done|]. split; [apply world_kept_refl|]. split; [done|]. split; [done|].
  intros q t Hq. exists t. split; [done | apply placed_as_refl].
Qed.

Lemma batch_rel_trans w1 w2 w3 : batch_rel w1 w2 -> batch_rel w2 w3 -> batch_rel w1 w3.
Proof.
  intros (Hs & Hk & Hn & Hc & Ht) (Hs' & Hk' & Hn' & Hc' & Ht').
  split; [congruence|]. split; [by eapply world_kept_trans|].
  split; [congruence|]. split; [congruence|].
  intros q t Hq. destruct (Ht q t Hq) as (t' & Hq' & Hp).
  destruct (Ht' q t' Hq') as (t'' & Hq'' & Hp').
  exists t''. split; [done|]. by eapply placed_as_trans.
Qed.

Lemma for_each_rel {A} (R : World -> World -> Prop) (l : list A) (body : A -> M unit) :
  (forall w, R w w) ->
  (forall w1 w2 w3, R w1 w2 -> R w2 w3 -> R w1 w3) ->
  (forall x w w', body x w = Ok (tt, w') -> R w w') ->
  forall w w', for_each l body w = Ok (tt, w') -> R w w'.
Proof.
  intros Hrefl Htrans Hbody. induction l as [|x l IH]; intros w w' H.
  - cbn in H. mrun in H. simplify_eq. apply Hrefl.
  - rewrite for_each_cons in H.
    destruct (body x w) as [[[] w1]|] eqn:Hx; [| done].
    eapply Htrans; [by eapply Hbody | by apply IH].
Qed.

Lemma dispatch_logged_rel task w w' :
  dispatch_logged task w = Ok (tt, w') -> batch_rel w w'.
Proof.
  intros H. unfold dispatch_logged in H. mexec H.
  all: simplify_eq.
  all: match goal with
       | Hd : dispatch _ _ = Ok _ |- _ =>
           pose proof (dispatch_kept _ _ _ _ Hd) as Hk;
           apply dispatch_effect in Hd as (Hs & Hn & _ & Hc & _ & Ht & _)
       end.
  all: unfold batch_rel; conjs; wsimp; try done.
  all: first [ rewrite ?callbacks_app, Hc; cbn; by rewrite ?app_nil_r
             | eapply world_kept_trans; [exact Hk|]; kept_world ].
Qed.

Lemma dispatch_ready_rel jp w w' :
  dispatch_ready jp w = Ok (tt, w') -> batch_rel w w'.
Proof.
  intros H. unfold dispatch_ready, range_tasks in H. mrun in H.
  destruct (jobs (heap w) !! jp) as [job|]; [| done]. mrun in H.
  revert H. apply for_each_rel; [apply batch_rel_refl | apply batch_rel_trans |].
  intros [k p] w1 w2 H. unfold range_entry in H. mexec H.
  - by eapply dispatch_logged_rel.
  - simplify_eq. apply batch_rel_refl.
Qed.

Lemma placed_as_kept t hostname status t' :
  placed_as t hostname status t' -> task_kept t t' /\ task_NodeName t' = hostname.
Proof. intros (H1 & H2 & H3 & H4 & H5 & H6 & H7). by repeat split. Qed.

Lemma world_kept_after_call w c r w' :
  world_kept (mkWorld (ssn w) (heap w) (trace w ++ [ECache c r])) w' -> world_kept w w'.
Proof. apply world_kept_trans. kept_world. Qed.

Lemma Allocate_effect task hostname b w r w' :
  Allocate task hostname b w = Ok (r, w') ->
  r = cache w (AllocateVolumes task hostname)
  /\ world_kept w w'
  /\ (b = false -> ssn w' = ssn w)
  /\ (b = true ->
        cache_calls (trace w')
        = cache_calls (trace w) ++ [(AllocateVolumes task hostname, r)])
  /\ (b = true -> forall q, q <> task -> tasks (heap w') !! q = tasks (heap w) !! q)
  /\ callbacks (trace w')
     = callbacks (trace w)
       ++ match r with
          | None => alloc_events (eventHandlers (ssn w)) task
          | Some _ => []
          end
  /\ (r = None ->
        exists t t', tasks (heap w) !! task = Some t
                     /\ tasks (heap w') !! task = Some t'
                     /\ task_kept t t' /\ task_NodeName t' = hostname).
Proof.
  intros H. unfold Allocate, Allocate_ready in H. mexec H.
  all: simplify_eq.
  all: try (match goal with Hx : _ && negb true = true |- _ =>
              cbn in Hx; rewrite andb_false_r in Hx; discriminate end).
  all: try match goal with
       | Hp : place _ _ _ _ = Ok _ |- _ =>
           pose proof (place_kept _ _ _ _ _ _ Hp) as [Hps Hpk];
           apply place_effect in Hp
             as (t & t' & Ht & Ht' & Hpl & Hjob & _ & _ & Hot & _ & _ & Hcc & Hcb);
           apply placed_as_kept in Hpl as [Hpl Hnn];
           cbn [ssn heap trace] in Hps, Hpk, Ht, Hjob, Hot, Hcc, Hcb;
           apply world_kept_after_call in Hpk;
           rewrite cache_calls_app in Hcc; rewrite callbacks_app in Hcb;
           cbn in Hcc, Hcb; rewrite app_nil_r in Hcb
       end.
  - (* the reservation failed *)
    conjs; wsimp; try done.
    + kept_world.
    + intros _. tr_simpl. done.
    + tr_simpl. done.
  - (* over backfill, the job is ready *)
    conjs; wsimp; try done.
    + eapply world_kept_trans; [exact Hpk|].
      split; [| split; [apply heap_kept_refl | exists []; by rewrite app_nil_r]].
      eapply session_kept_TopDog. rewrite Hps. symmetry. exact Hjob.
    + eauto 10.
  - (* over backfill, the job is not ready *)
    conjs; wsimp; try done.
    + eauto 10.
  - (* a ready job: the batch *)
    destruct u.
    apply dispatch_ready_rel in Heqr1 as (Hs & Hk & Hn & Hc & Htk).
    conjs; wsimp; try done.
    + by eapply world_kept_trans.
    + intros _. by rewrite Hs.
    + by rewrite Hc.
    + intros _. destruct (Htk _ _ Ht') as (t'' & Ht'' & Hpl').
      apply placed_as_kept in Hpl' as [Hpl' Hnn'].
      exists t, t''. split; [done|]. split; [done|].
      split; [by eapply task_kept_trans | congruence].
  - (* a job that is not ready *)
    conjs; wsimp; try done.
    + eauto 10.
Qed.

Lemma run_op_kept o w r w' :
  run_op o w = Ok (r, w') ->
  world_kept w w' /\ (no_backfill o = true -> ssn w' = ssn w).
Proof.
  intros H. destruct o as [task hostname | task hostname b | task reason]; cbn [run_op] in H.
  - unfold Pipeline in H. mexec H. simplify_eq.
    match goal with Hp : place _ _ _ _ = Ok _ |- _ => apply place_kept in Hp as [? ?] end.
    done.
  - apply Allocate_effect in H as (_ & Hk & Hs & _). split; [done|].
    cbn. intros Hb. apply Hs. by destruct b.
  - split; [by eapply Evict_kept|]. intros _.
    apply Evict_effect in H as (_ & Hs & _). exact Hs.
Qed.

(** ** The dispatch batch returns *)

Lemma move_task_bucket idx t task status s k q :
  bucket (move_task idx t task status) s !! k = Some q ->
  q = task \/ bucket idx s !! k = Some q.
Proof.
  unfold move_task. intros H.
  destruct (decide (status = s)) as [->|Hs].
  - rewrite bucket_insert_eq in H.
    apply lookup_insert_Some in H as [[_ <-] | [_ H]]; [by left|]. right.
    destruct (decide (task_Status t = s)) as [<-|Hs'].
    + rewrite bucket_insert_eq in H. by apply lookup_delete_Some in H as [_ H].
    + by rewrite bucket_insert_ne in H.
  - rewrite bucket_insert_ne in H by done. right.
    destruct (decide (task_Status t = s)) as [<-|Hs'].
    + rewrite bucket_insert_eq in H. by apply lookup_delete_Some in H as [_ H].
    + by rewrite bucket_insert_ne in H.
Qed.

Lemma is_Some_kept {A} (R : A -> A -> Prop) (o o' : option A) :
  option_Forall2 R o o' -> is_Some o -> is_Some o'.
Proof. intros [] [? ?]; by eauto. Qed.

(** The pointers stay valid over a step that keeps the indices and puts
    into the Allocated buckets only tasks that exist. *)
Lemma pointers_valid_step w w' :
  JobIndex (ssn w') = JobIndex (ssn w) ->
  NodeIndex (ssn w') = NodeIndex (ssn w) ->
  heap_kept (heap w) (heap w') ->
  (forall jp job' k p,
     jobs (heap w') !! jp = Some job' ->
     bucket (job_TaskStatusIndex job') Allocated !! k = Some p ->
     is_Some (tasks (heap w) !! p)
     \/ exists job, jobs (heap w) !! jp = Some job
                    /\ bucket (job_TaskStatusIndex job) Allocated !! k = Some p) ->
  pointers_valid w -> pointers_valid w'.
Proof.
  intros Hji Hni (_ & Ht & Hj & Hn) Hb (Vj & Vn & Vb). split; [|split].
  - intros u jp Hu. rewrite Hji in Hu. eapply is_Some_kept; [apply Hj | by eapply Vj].
  - intros h np Hh. rewrite Hni in Hh. eapply is_Some_kept; [apply Hn | by eapply Vn].
  - intros jp job' k p Hjp Hk. eapply is_Some_kept; [apply Ht|].
    destruct (Hb jp job' k p Hjp Hk) as [Hp | (job & Hjob & Hk')]; [done|].
    by eapply Vb.
Qed.

Ltac valid_buckets :=
  wsimp; intros jp' job' k' p' Hjp' Hk';
  first
    [ right; eexists; split; [exact Hjp' | exact Hk']
    | match type of Hjp' with
      | <[?p := _]> _ !! _ = Some _ =>
          destruct (decide (jp' = p)) as [->|Hne];
          [ rewrite lookup_insert_eq in Hjp'; simplify_eq;
            cbn [job_TaskStatusIndex job_with_TaskStatusIndex] in Hk';
            apply move_task_bucket in Hk' as [-> | Hk'];
            [ left; eauto | right; eexists; split; [eassumption | exact Hk'] ]
          | rewrite lookup_insert_ne in Hjp' by done;
            right; eexists; split; [exact Hjp' | exact Hk'] ]
      end ].

Lemma place_valid task hostname status w job w' :
  place task hostname status w = Ok (job, w') -> pointers_valid w -> pointers_valid w'.
Proof.
  intros H. pose proof (place_kept _ _ _ _ _ _ H) as [Hs (_ & Hk & _)].
  apply pointers_valid_step; [by rewrite Hs | by rewrite Hs | done |].
  clear Hs Hk. unfold place, UpdateTaskStatus, AddTask in H. mexec H.
  all: simplify_eq; valid_buckets.
Qed.

Lemma dispatch_valid task w r w' :
  dispatch task w = Ok (r, w') -> pointers_valid w -> pointers_valid w'.
Proof.
  intros H. pose proof (dispatch_kept _ _ _ _ H) as (_ & Hk & _).
  pose proof (dispatch_effect _ _ _ _ H) as (Hs & _).
  apply pointers_valid_step; [by rewrite Hs | by rewrite Hs | done |].
  clear Hs Hk. unfold dispatch, UpdateTaskStatus in H. mexec H.
  all: simplify_eq; valid_buckets.
Qed.

Lemma for_each_total {A} (I : World -> Prop) (l : list A) (body : A -> M unit) :
  (forall x w, I w -> exists w', body x w = Ok (tt, w') /\ I w') ->
  forall w, I w -> exists w', for_each l body w = Ok (tt, w') /\ I w'.
Proof.
  intros Hbody. induction l as [|x l IH]; intros w Hw.
  - exists w. by split.
  - destruct (Hbody x w Hw) as (w1 & Hx & Hw1).
    destruct (IH w1 Hw1) as (w' & Hl & Hw').
    exists w'. split; [| done]. rewrite for_each_cons. by rewrite Hx.
Qed.

Lemma dispatch_logged_returns task w :
  is_Some (tasks (heap w) !! task) -> pointers_valid w ->
  exists w', dispatch_logged task w = Ok (tt, w')
             /\ ssn w' = ssn w /\ pointers_valid w'.
Proof.
  intros [t Ht] Hv.
  destruct (dispatch_returns task w t Ht) as (r & w1 & Hrun).
  { intros jp Hjp. destruct Hv as (Vj & _). by eapply Vj. }
  pose proof (dispatch_valid _ _ _ _ Hrun Hv) as Hv1.
  pose proof (dispatch_effect _ _ _ _ Hrun) as (Hs & _).
  unfold dispatch_logged, bind. rewrite Hrun. destruct r as [e|]; mrun.
  - eexists. split; [reflexivity|]. wsimp. split; [done|].
    revert Hv1. apply pointers_valid_step; wsimp; try done; [apply heap_kept_refl|].
    intros jp job' k p Hjp Hk. right. eauto.
  - eauto.
Qed.

Lemma dispatch_ready_returns jp w :
  is_Some (jobs (heap w) !! jp) -> pointers_valid w ->
  exists w', dispatch_ready jp w = Ok (tt, w').
Proof.
  intros [job Hjob] Hv. unfold dispatch_ready, range_tasks. mrun. rewrite Hjob. mrun.
  destruct (for_each_total
              (fun w1 => pointers_valid w1 /\ is_Some (jobs (heap w1) !! jp))
              (range_order w (bucket (job_TaskStatusIndex job) Allocated))
              (range_entry jp Allocated dispatch_logged)) with (w := w)
    as (w' & Hrun & _); [| by eauto | by eauto].
  intros [k p] w1 [Hv1 [job1 Hjob1]]. unfold range_entry. mrun. rewrite Hjob1. mrun.
  cbn [fst]. destruct (bucket (job_TaskStatusIndex job1) Allocated !! k) as [task|] eqn:Hk.
  - destruct (dispatch_logged_returns task w1) as (w2 & Hrun & Hs & Hv2); [| done |].
    { destruct Hv1 as (_ & _ & Vb). by eapply Vb. }
    exists w2. split; [done|]. split; [done|].
    unfold dispatch_logged in Hrun. mexec Hrun.
    all: simplify_eq; wsimp.
    all: match goal with
         | Hd : dispatch _ _ = Ok _ |- _ =>
             apply dispatch_kept in Hd as (_ & (_ & _ & Hj & _) & _)
         end.
    all: eapply is_Some_kept; [apply Hj | eauto].
  - mrun. eauto.
Qed.

(** Lines 298-309 return in a session without nil pointers, for a job of the
    job index or a nil job that the readiness policy turns down. *)
Lemma Allocate_ready_returns job usingBackfillTaskRes w :
  pointers_valid w ->
  (job = None -> JobReady w None = false) ->
  (forall jp, job = Some jp -> exists u, JobIndex (ssn w) !! u = Some jp) ->
  exists w', Allocate_ready job usingBackfillTaskRes w = Ok (tt, w').
Proof.
  intros Hv Hnil Hidx. unfold Allocate_ready. mrun.
  destruct job as [jp|].
  - destruct (Hidx jp eq_refl) as [u Hu].
    assert (is_Some (jobs (heap w) !! jp)) as [ji Hji].
    { destruct Hv as (Vj & _). by eapply Vj. }
    destruct (JobReady w (Some jp)); [| mrun; eauto].
    destruct usingBackfillTaskRes; cbn [negb andb]; mrun.
    + rewrite Hji. mrun. eauto.
    + destruct (dispatch_ready_returns jp w) as [w' Hrun]; [by eauto | done |].
      rewrite Hrun. eauto.
  - rewrite (Hnil eq_refl). cbn [andb]. mrun. eauto.
Qed.

(** ** Well-formed sessions over a cycle *)

Lemma Some_kept {A} (R : A -> A -> Prop) (o o' : option A) y :
  option_Forall2 R o o' -> o' = Some y -> exists x, o = Some x /\ R x y.
Proof. intros [] ?; simplify_eq. eauto. Qed.

Lemma Some_kept_fwd {A} (R : A -> A -> Prop) (o o' : option A) x :
  option_Forall2 R o o' -> o = Some x -> exists y, o' = Some y /\ R x y.
Proof. intros [] ?; simplify_eq. eauto. Qed.

Lemma good_step_refl w : good_step w w.
Proof. split; [apply world_kept_refl|]. intros jp job s k p Hjp Hk. left. eauto. Qed.

Lemma good_step_trans w1 w2 w3 : good_step w1 w2 -> good_step w2 w3 -> good_step w1 w3.
Proof.
  intros [Hk Hb] [Hk' Hb']. split; [by eapply world_kept_trans|].
  intros jp job3 s k p Hjp Hp.
  destruct (Hb' jp job3 s k p Hjp Hp) as [(job2 & Hjob2 & Hp2) | (t2 & Ht2 & Hidx)].
  - by eapply Hb.
  - right. destruct Hk as ((_ & _ & Hji & _) & (_ & Ht & _) & _).
    destruct (Some_kept _ _ _ _ (Ht p) Ht2) as (t1 & Ht1 & (_ & Hjob & _)).
    exists t1. split; [done|]. by rewrite <- Hjob, <- Hji.
Qed.

Ltac from_buckets :=
  unfold buckets_from; wsimp; intros jp' job' s' k' p' Hjp' Hk';
  first
    [ left; eexists; split; [exact Hjp' | exact Hk']
    | match type of Hjp' with
      | <[?p := _]> _ !! _ = Some _ =>
          destruct (decide (jp' = p)) as [->|Hne];
          [ rewrite lookup_insert_eq in Hjp'; simplify_eq;
            cbn [job_TaskStatusIndex job_with_TaskStatusIndex] in Hk';
            apply move_task_bucket in Hk' as [-> | Hk'];
            [ right; eexists; split; eassumption
            | left; eexists; split; [eassumption | exact Hk'] ]
          | rewrite lookup_insert_ne in Hjp' by done;
            left; eexists; split; [exact Hjp' | exact Hk'] ]
      end ].

Lemma place_good task hostname status w job w' :
  place task hostname status w = Ok (job, w') -> good_step w w'.
Proof.
  intros H. split; [by apply place_kept in H as [_ ?]|].
  unfold place, UpdateTaskStatus, AddTask in H. mexec H.
  all: simplify_eq; from_buckets.
Qed.

Lemma dispatch_good task w r w' : dispatch task w = Ok (r, w') -> good_step w w'.
Proof.
  intros H. split; [by eapply dispatch_kept|].
  unfold dispatch, UpdateTaskStatus in H. mexec H.
  all: simplify_eq; from_buckets.
Qed.

Lemma Evict_good reclaimee reason w r w' :
  Evict reclaimee reason w = Ok (r, w') -> good_step w w'.
Proof.
  intros H. split; [by eapply Evict_kept|].
  unfold Evict, UpdateTaskStatus, UpdateTask in H. mexec H.
  all: simplify_eq; from_buckets.
Qed.

(** A step that changes the trace and the backfill-ready set only. *)
Lemma good_step_same_heap w w' :
  world_kept w w' -> heap w' = heap w -> good_step w w'.
Proof.
  intros Hk Hh. split; [done|]. intros jp job s k p Hjp Hp. rewrite Hh in Hjp.
  left. eauto.
Qed.

Lemma dispatch_logged_good task w w' :
  dispatch_logged task w = Ok (tt, w') -> good_step w w'.
Proof.
  intros H. unfold dispatch_logged in H. mexec H.
  all: simplify_eq.
  all: match goal with
       | Hd : dispatch _ _ = Ok _ |- _ => apply dispatch_good in Hd
       end.
  - eapply good_step_trans; [eassumption|].
    apply good_step_same_heap; [kept_world | done].
  - done.
Qed.

Lemma dispatch_ready_good jp w w' :
  dispatch_ready jp w = Ok (tt, w') -> good_step w w'.
Proof.
  intros H. unfold dispatch_ready, range_tasks in H. mrun in H.
  destruct (jobs (heap w) !! jp) as [job|]; [| done]. mrun in H.
  revert H. apply for_each_rel; [apply good_step_refl | apply good_step_trans |].
  intros [k p] w1 w2 H. unfold range_entry in H. mexec H.
  - by eapply dispatch_logged_good.
  - simplify_eq. apply good_step_refl.
Qed.

Lemma world_kept_TopDog w u jp k :
  JobIndex (ssn w) !! k = Some jp ->
  world_kept w (mkWorld (ssn_with_TopDogReadyJobs (ssn w)
                           (<[u := jp]> (TopDogReadyJobs (ssn w))))
                        (heap w) (trace w)).
Proof.
  intros Hk. split; [by eapply session_kept_TopDog|].
  split; [apply heap_kept_refl | exists []; by rewrite app_nil_r].
Qed.

Lemma Allocate_good task hostname b w r w' :
  Allocate task hostname b w = Ok (r, w') -> good_step w w'.
Proof.
  intros H. unfold Allocate, Allocate_ready in H. mexec H.
  all: simplify_eq.
  all: try (match goal with Hx : _ && negb true = true |- _ =>
              cbn in Hx; rewrite andb_false_r in Hx; discriminate end).
  all: try match goal with
       | Hp : place _ _ _ ?w0 = Ok _ |- _ =>
           assert (good_step w w0) as Hg0
             by (apply good_step_same_heap; [kept_world | done]);
           pose proof (place_effect _ _ _ _ _ _ Hp) as (t & _ & Ht & _ & _ & Hjob & Hs & _);
           apply place_good in Hp;
           pose proof (good_step_trans _ _ _ Hg0 Hp) as Hg1;
           cbn [ssn heap] in Ht, Hjob, Hs
       end.
  all: try match goal with
       | Hd : dispatch_ready _ _ = Ok (?u, _) |- _ =>
           destruct u; apply dispatch_ready_good in Hd
       end.
  - apply good_step_same_heap; [kept_world | done].
  - eapply good_step_trans; [exact Hg1|].
    apply good_step_same_heap; [| done].
    eapply world_kept_TopDog. rewrite Hs. symmetry. exact Hjob.
  - exact Hg1.
  - by eapply good_step_trans.
  - exact Hg1.
Qed.

Lemma run_op_good o w r w' : run_op o w = Ok (r, w') -> good_step w w'.
Proof.
  intros H. destruct o as [task hostname | task hostname b | task reason]; cbn [run_op] in H.
  - unfold Pipeline in H. mexec H. simplify_eq. by eapply place_good.
  - by eapply Allocate_good.
  - by eapply Evict_good.
Qed.

Lemma run_ops_good ops : forall w w', run_ops ops w = Ok (tt, w') -> good_step w w'.
Proof.
  induction ops as [|o ops IH]; intros w w' H.
  - cbn in H. mrun in H. simplify_eq. apply good_step_refl.
  - cbn [run_ops] in H. unfold bind in H.
    destruct (run_op o w) as [[r w1]|] eqn:Ho; [| done].
    eapply good_step_trans; [by eapply run_op_good | by apply IH].
Qed.

Lemma good_pointers_valid w w' : good_step w w' -> pointers_valid w -> pointers_valid w'.
Proof.
  intros [((_ & _ & Hji & _ & Hni & _) & (_ & Ht & Hj & Hn) & _) Hb] (Vj & Vn & Vb).
  split; [|split].
  - intros u jp Hu. rewrite Hji in Hu. eapply is_Some_kept; [apply Hj | by eapply Vj].
  - intros h np Hh. rewrite Hni in Hh. eapply is_Some_kept; [apply Hn | by eapply Vn].
  - intros jp job' k p Hjp Hk. eapply is_Some_kept; [apply Ht|].
    destruct (Hb jp job' Allocated k p Hjp Hk) as [(job & Hjob & Hk') | (t & Hp & _)].
    + by eapply Vb.
    + eauto.
Qed.

Lemma good_consistent w w' : good_step w w' -> index_consistent w -> index_consistent w'.
Proof.
  intros [((_ & _ & Hji & _) & (_ & Ht & Hj & _) & _) Hb] [C1 C2]. split.
  - intros u jp Hu. rewrite Hji in Hu. destruct (C1 u jp Hu) as (job & Hjob & Huid).
    destruct (Some_kept_fwd _ _ _ _ (Hj jp) Hjob) as (job' & Hjob' & (Huid' & _)).
    exists job'. split; [done | congruence].
  - intros u jp job' s k p t' Hu Hjob' Hk Ht'. rewrite Hji in Hu.
    destruct (Some_kept _ _ _ _ (Ht p) Ht') as (t & Hp & (_ & Hjob & _)).
    rewrite Hjob.
    destruct (Hb jp job' s k p Hjob' Hk) as [(job & Hjob0 & Hk') | (t0 & Hp0 & Hidx)].
    + by eapply C2.
    + simplify_eq. destruct (C1 u jp Hu) as (job & Hjob0 & Huid).
      destruct (C1 _ jp Hidx) as (job1 & Hjob1 & Huid1). congruence.
Qed.

(** ** Conditions, once more *)

Lemma find_condition_Some ty conds i c :
  conds !! i = Some c -> cond_Type c = ty ->
  (forall j c', (j < i)%nat -> conds !! j = Some c' -> cond_Type c' <> ty) ->
  find_condition ty conds = Some i.
Proof.
  intros Hi Hty Hfirst. unfold find_condition.
  assert (list_find (fun c => cond_Type c = ty) conds = Some (i, c)) as ->; [| done].
  apply list_find_Some. split; [done|]. split; [done|].
  intros j c' Hj Hlt. by eapply Hfirst.
Qed.

Lemma find_condition_None ty conds :
  (forall c, c ∈ conds -> cond_Type c <> ty) -> find_condition ty conds = None.
Proof.
  intros Hnone. unfold find_condition.
  assert (list_find (fun c => cond_Type c = ty) conds = None) as ->; [| done].
  apply list_find_None. apply Forall_forall. intros c Hc. by apply Hnone.
Qed.

(** Setting a condition and then another of the same type is setting the
    second. *)
Lemma set_condition_overwrite conds c1 c2 :
  cond_Type c1 = cond_Type c2 ->
  set_condition (set_condition conds c1) c2 = set_condition conds c2.
Proof.
  intros Hty.
  destruct (set_condition_cases conds c1)
    as [(i & c & Hi & Hc & Hfirst & ->) | (Hnone & ->)].
  - assert (i < length conds)%nat as Hlen by (by eapply lookup_lt_Some).
    unfold set_condition at 1.
    rewrite (find_condition_Some (cond_Type c2) (<[i := c1]> conds) i c1); [| | done |].
    + rewrite list_insert_insert_eq. unfold set_condition.
      rewrite (find_condition_Some (cond_Type c2) conds i c); [done | done | congruence |].
      intros j c' Hj Hc'. rewrite <- Hty. by eapply Hfirst.
    + by apply list_lookup_insert_eq.
    + intros j c' Hj Hc'. rewrite list_lookup_insert_ne in Hc' by lia.
      rewrite <- Hty. by eapply Hfirst.
  - unfold set_condition.
    rewrite (find_condition_Some (cond_Type c2) (conds ++ [c1]) (length conds) c1);
      [| | done |].
    + rewrite (find_condition_None (cond_Type c2) conds)
        by (intros c Hc; rewrite <- Hty; by apply Hnone).
      replace (length conds) with (length conds + 0)%nat at 1 by lia.
      by rewrite insert_app_r.
    + by apply list_lookup_middle.
    + intros j c' Hj Hc'. rewrite lookup_app_l in Hc' by done.
      rewrite <- Hty. apply Hnone. by eapply list_elem_of_lookup_2.
Qed.

(** A condition that was set is in the list. *)
Lemma set_condition_elem conds cond : cond ∈ set_condition conds cond.
Proof.
  destruct (set_condition_cases conds cond)
    as [(i & c & Hi & _ & _ & ->) | (_ & ->)].
  - eapply list_elem_of_lookup_2. apply list_lookup_insert_eq. by eapply lookup_lt_Some.
  - apply elem_of_app. right. by left.
Qed.

Lemma UpdateJobCondition_effect jobInfo cond w r w' :
  UpdateJobCondition jobInfo cond w = Ok (r, w') ->
  exists ji,
    jobs (heap w) !! jobInfo = Some ji
    /\ match JobIndex (ssn w) !! job_UID ji with
       | None => r = Some (not_indexed_error ji) /\ w' = w
       | Some jp =>
           r = None
           /\ exists job pg,
                jobs (heap w) !! jp = Some job
                /\ job_PodGroup job = Some pg
                /\ w' = mkWorld (ssn w)
                          (mkStore
                             (<[jp := job_with_Conditions job pg
                                        (set_condition (st_Conditions (pg_Status pg)) cond)]>
                                (jobs (heap w)))
                             (tasks (heap w)) (nodes (heap w)) (queues (heap w)))
                          (trace w)
       end.
Proof.
  intros H. unfold UpdateJobCondition in H. mexec H.
  all: simplify_eq; eexists; (split; [reflexivity|]).
  all: match goal with Hx : JobIndex _ !! _ = _ |- _ => rewrite Hx end.
  - split; [done|]. eauto.
  - done.
Qed.

(** ** Closing a session *)

Lemma reconcile_idem s ji ji' : reconcile s ji = Ok ji' -> reconcile s ji' = Ok ji'.
Proof.
  unfold reconcile. destruct (jobStatus s ji) as [st|] eqn:Hst; [| done].
  destruct (job_PodGroup ji) as [pg|] eqn:Hpg; [| done]. intros [= <-].
  rewrite (jobStatus_ext s ji _ pg (pg_with_Status pg st)); try done.
  - rewrite Hst. cbn. by destruct ji.
  - pose proof (jobStatus_Conditions _ _ _ _ Hpg Hst) as Hc. by rewrite <- Hc.
Qed.

Lemma closed_job_idem s ji : closed_job s (closed_job s ji) = closed_job s ji.
Proof.
  unfold closed_job at 2. destruct (reconcile s ji) as [ji'|] eqn:Hr.
  - unfold closed_job. by rewrite (reconcile_idem _ _ _ Hr), Hr.
  - unfold closed_job. by rewrite Hr.
Qed.

Lemma closed_job_PodGroup s ji :
  is_Some (job_PodGroup (closed_job s ji)) <-> is_Some (job_PodGroup ji).
Proof.
  unfold closed_job, reconcile. destruct (jobStatus s ji) as [st|]; [| done].
  destruct (job_PodGroup ji) as [pg|] eqn:Hpg; [| by rewrite Hpg].
  cbn. split; eauto.
Qed.

Lemma close_call_insert h p ji s q :
  jobs h !! p = Some ji ->
  close_call (mkStore (<[p := closed_job s ji]> (jobs h)) (tasks h) (nodes h) (queues h)) q
  = close_call h q.
Proof.
  intros Hp. unfold close_call. cbn [jobs].
  destruct (decide (q = p)) as [->|Hne].
  - rewrite lookup_insert_eq, Hp.
    pose proof (closed_job_PodGroup s ji) as Hpg.
    destruct (job_PodGroup (closed_job s ji)), (job_PodGroup ji); try done.
    + destruct Hpg as [Hpg _]. by destruct Hpg.
    + destruct Hpg as [_ Hpg]. by destruct Hpg.
  - by rewrite lookup_insert_ne.
Qed.

Local Abbreviation close_body :=
  (fun job : loc =>
     ji <- deref_job job ;;
     match job_PodGroup ji with
     | None => cache_call (RecordJobStatusEvent job) ;; ret tt
     | Some _ =>
         w <- get ;;
         ji' <- lift_res (reconcile (ssn w) ji) ;;
         store_job job ji' ;;
         err <- cache_call (UpdateJobStatus job) ;;
         match err with
         | Some e => glog_Errorf (LogUpdateJob job e)
         | None => ret tt
         end
     end).

(** One turn of the loop of lines 135-148. *)
Lemma close_step p w ji :
  jobs (heap w) !! p = Some ji ->
  exists w1 evs r,
    close_body p w = Ok (tt, w1)
    /\ ssn w1 = ssn w
    /\ tasks (heap w1) = tasks (heap w)
    /\ nodes (heap w1) = nodes (heap w)
    /\ queues (heap w1) = queues (heap w)
    /\ jobs (heap w1) = <[p := closed_job (ssn w) ji]> (jobs (heap w))
    /\ trace w1 = trace w ++ evs
    /\ cache_calls evs = [(close_call (heap w) p, r)]
    /\ logged evs = omap close_log (cache_calls evs)
    /\ callbacks evs = [].
Proof.
  intros Hp. mrun. rewrite Hp. mrun. unfold close_call, closed_job, reconcile. rewrite Hp.
  destruct (job_PodGroup ji) as [pg|] eqn:Hpg.
  - destruct (jobStatus_total (ssn w) ji pg Hpg) as [st Hst]. rewrite Hst. mrun.
    match goal with
    | |- context [cache ?w1 (UpdateJobStatus p)] =>
        destruct (cache w1 (UpdateJobStatus p)) as [e|] eqn:Hc
    end; mrun.
    + eexists _, [_; _], _. split; [reflexivity|]. wsimp.
      conjs; try done; [by rewrite <- app_assoc | reflexivity ..].
    + eexists _, [_], _. split; [reflexivity|]. wsimp. by conjs.
  - destruct (jobStatus (ssn w) ji); mrun.
    all: eexists _, [_], _; (split; [reflexivity|]); wsimp.
    all: conjs; try done; by rewrite insert_id.
Qed.

Lemma close_loop l : forall w,
  Forall (fun p => is_Some (jobs (heap w) !! p)) l ->
  exists w' evs,
    for_each l close_body w = Ok (tt, w')
    /\ ssn w' = ssn w
    /\ tasks (heap w') = tasks (heap w)
    /\ nodes (heap w') = nodes (heap w)
    /\ queues (heap w') = queues (heap w)
    /\ (forall p, jobs (heap w') !! p
                  = if decide (p ∈ l) then closed_job (ssn w) <$> jobs (heap w) !! p
                    else jobs (heap w) !! p)
    /\ trace w' = trace w ++ evs
    /\ (cache_calls evs).*1 = close_call (heap w) <$> l
    /\ logged evs = omap close_log (cache_calls evs)
    /\ callbacks evs = [].
Proof.
  induction l as [|p l IH]; intros w Hl.
  - exists w, []. cbn. unfold ret. conjs; try done. by rewrite app_nil_r.
  - apply Forall_cons in Hl as [[ji Hp] Hl].
    destruct (close_step p w ji Hp)
      as (w1 & evs1 & r & Hrun & Hs & Ht & Hn & Hq & Hj & Htr & Hcc & Hlog & Hcb).
    destruct (IH w1) as (w' & evs & Hrun' & Hs' & Ht' & Hn' & Hq' & Hj' & Htr' & Hcc' & Hlog' & Hcb').
    { rewrite Hj. eapply Forall_impl; [exact Hl|]. intros q Hq0. cbn beta in *.
      destruct (decide (q = p)) as [->|Hne];
        [rewrite lookup_insert_eq | rewrite lookup_insert_ne by done]; eauto. }
    exists w', (evs1 ++ evs). split.
    { rewrite for_each_cons. cbv beta. by rewrite Hrun. }
    conjs; try congruence.
    + intros q. rewrite Hj', Hs, Hj.
      destruct (decide (q = p)) as [->|Hne].
      * rewrite lookup_insert_eq, Hp. rewrite (decide_True (P := p ∈ p :: l)) by left. cbn.
        destruct (decide (p ∈ l)); cbn; by rewrite ?closed_job_idem.
      * rewrite lookup_insert_ne by done.
        destruct (decide (q ∈ l)) as [Hin|Hnin].
        -- by rewrite (decide_True (P := q ∈ p :: l)) by (by right).
        -- rewrite (decide_False (P := q ∈ p :: l)); [done|].
           intros [?|?]%elem_of_cons; done.
    + by rewrite Htr', Htr, app_assoc.
    + rewrite cache_calls_app, fmap_app, Hcc, Hcc'. cbn. f_equal.
      apply list_fmap_ext. intros i q _.
      replace (heap w1) with (mkStore (<[p := closed_job (ssn w) ji]> (jobs (heap w)))
                                      (tasks (heap w)) (nodes (heap w)) (queues (heap w))).
      * by apply close_call_insert.
      * destruct (heap w1). cbn in *. congruence.
    + rewrite logged_app, cache_calls_app, omap_app. congruence.
    + rewrite callbacks_app, Hcb, Hcb'. done.
Qed.

(** What [closeSession] returns. *)
Lemma closeSession_run w :
  Forall (fun p => is_Some (jobs (heap w) !! p)) (Jobs (ssn w)) ->
  exists w' evs,
    closeSession w = Ok (tt, w')
    /\ ssn w'
       = mkSession (UID (ssn w)) [] (TopDogReadyJobs (ssn w)) ∅ [] ∅ (Queues (ssn w))
                   (QueueIndex (ssn w)) (Others (ssn w)) [] []
    /\ tasks (heap w') = tasks (heap w)
    /\ nodes (heap w') = nodes (heap w)
    /\ queues (heap w') = queues (heap w)
    /\ (forall p, jobs (heap w') !! p
                  = if decide (p ∈ Jobs (ssn w))
                    then closed_job (ssn w) <$> jobs (heap w) !! p
                    else jobs (heap w) !! p)
    /\ trace w' = trace w ++ evs
    /\ (cache_calls evs).*1 = close_call (heap w) <$> Jobs (ssn w)
    /\ logged evs = omap close_log (cache_calls evs)
    /\ callbacks evs = [].
Proof.
  intros Hl.
  destruct (close_loop (Jobs (ssn w)) w Hl)
    as (w1 & evs & Hrun & Hs & Ht & Hn & Hq & Hj & Htr & Hcc & Hlog & Hcb).
  eexists _, evs. split.
  { transitivity
      (match for_each (Jobs (ssn w)) close_body w with
       | Ok (_, w1) =>
           modify_ssn (fun s =>
             mkSession (UID s) [] (TopDogReadyJobs s) ∅ [] ∅ (Queues s) (QueueIndex s)
                       (Others s) [] []) w1
       | Panic => Panic
       end); [reflexivity|].
    rewrite Hrun. unfold modify_ssn. reflexivity. }
  wsimp. rewrite Hs. by conjs.
Qed.

(** ** The indices [openSession] builds *)

Lemma build_index_app key l1 l2 idx :
  build_index key (l1 ++ l2) idx = build_index key l2 (build_index key l1 idx).
Proof. unfold build_index. apply foldl_app. Qed.

Lemma build_index_cons key p l idx :
  build_index key (p :: l) idx
  = build_index key l (match key p with Some k => <[k := p]> idx | None => idx end).
Proof. reflexivity. Qed.

Lemma build_index_lookup key l : forall idx k p,
  build_index key l idx !! k = Some p ->
  idx !! k = Some p \/ (p ∈ l /\ key p = Some k).
Proof.
  induction l as [|q l IH]; intros idx k p Hk; [by left|].
  rewrite build_index_cons in Hk.
  apply IH in Hk as [Hk | [Hin Hkey]]; [| right; split; [by right | done]].
  destruct (key q) as [kq|] eqn:Hq; [| by left].
  destruct (decide (kq = k)) as [->|Hne].
  - rewrite lookup_insert_eq in Hk. simplify_eq. right. split; [by left | done].
  - rewrite lookup_insert_ne in Hk by done. by left.
Qed.

Lemma build_index_keeps key l : forall idx k,
  (forall q, q ∈ l -> key q <> Some k) ->
  build_index key l idx !! k = idx !! k.
Proof.
  induction l as [|q l IH]; intros idx k Hl; [done|].
  rewrite build_index_cons.
  rewrite IH by (intros q' Hq'; apply Hl; by right).
  destruct (key q) as [kq|] eqn:Hq; [| done].
  rewrite lookup_insert_ne; [done|]. intros ->. apply (Hl q); [by left | done].
Qed.

Lemma build_index_last key l1 p l2 idx k :
  key p = Some k ->
  (forall q, q ∈ l2 -> key q <> Some k) ->
  build_index key (l1 ++ p :: l2) idx !! k = Some p.
Proof.
  intros Hp Hl2. rewrite build_index_app, build_index_cons, Hp.
  rewrite build_index_keeps by done. apply lookup_insert_eq.
Qed.

Lemma build_index_indexes {A} (objs : gmap loc A) (key : A -> string) l :
  indexes objs key l (build_index (fun p => key <$> objs !! p) l ∅).
Proof.
  split.
  - intros k p Hk. apply build_index_lookup in Hk as [Hk | [Hin Hkey]].
    + by rewrite lookup_empty in Hk.
    + split; [done|]. destruct (objs !! p) as [x|]; [| done].
      cbn in Hkey. simplify_eq. eauto.
  - intros l1 p l2 x -> Hp Hl2. apply build_index_last.
    + by rewrite Hp.
    + intros q Hq Hkey. destruct (objs !! q) as [y|] eqn:Hy; [| done].
      cbn in Hkey. simplify_eq. by eapply Hl2.
Qed.

Lemma build_JobIndex_build_index h l : forall idx,
  build_JobIndex h l idx = build_index (fun p => job_UID <$> jobs h !! p) l idx.
Proof.
  induction l as [|p l IH]; intros idx; [done|].
  rewrite build_index_cons. cbn [build_JobIndex foldl].
  change (foldl _ ?i l) with (build_JobIndex h l i).
  rewrite IH. by destruct (jobs h !! p).
Qed.

Lemma index_nodes_build l : forall w,
  Forall (fun node => is_Some (nodes (heap w) !! node)) l ->
  for_each l index_node w
  = Ok (tt, mkWorld (ssn_with_NodeIndex (ssn w)
                       (build_index (fun p => node_Name <$> nodes (heap w) !! p) l
                                    (NodeIndex (ssn w))))
                    (heap w) (trace w)).
Proof.
  induction l as [|node l IH]; intros w Hl.
  - cbn. unfold ret. by destruct w as [[] ? ?].
  - apply Forall_cons in Hl as [[n Hn] Hl].
    rewrite for_each_cons. unfold index_node at 1. mrun. rewrite Hn.
    rewrite IH by done. cbn [ssn heap trace]. rewrite build_index_cons, Hn.
    by destruct (ssn w).
Qed.

Lemma index_queues_build l : forall w,
  Forall (fun queue => is_Some (queues (heap w) !! queue)) l ->
  for_each l index_queue w
  = Ok (tt, mkWorld (ssn_with_QueueIndex (ssn w)
                       (build_index (fun p => queue_UID <$> queues (heap w) !! p) l
                                    (QueueIndex (ssn w))))
                    (heap w) (trace w)).
Proof.
  induction l as [|queue l IH]; intros w Hl.
  - cbn. unfold ret. by destruct w as [[] ? ?].
  - apply Forall_cons in Hl as [[q Hq] Hl].
    rewrite for_each_cons. unfold index_queue at 1. mrun. rewrite Hq.
    rewrite IH by done. cbn [ssn heap trace]. rewrite build_index_cons, Hq.
    by destruct (ssn w).
Qed.

Lemma accepted_jobs_valid h l :
  Forall (fun job => is_Some (jobs h !! job)) l ->
  Forall (fun job => is_Some (jobs h !! job)) (accepted_jobs h l).
Proof.
  intros Hl. unfold accepted_jobs. rewrite Forall_forall in Hl |- *.
  intros job Hjob. apply list_elem_of_filter in Hjob as [_ Hjob]. by apply Hl.
Qed.

(** What [openSession] returns, with its three indices. *)
Lemma openSession_built uid snapshot w :
  snapshot_valid (heap w) snapshot ->
  openSession uid snapshot w
  = Ok (tt,
        mkWorld
          (mkSession uid (accepted_jobs (heap w) (ci_Jobs snapshot)) ∅
             (build_index (fun p => job_UID <$> jobs (heap w) !! p)
                          (accepted_jobs (heap w) (ci_Jobs snapshot)) ∅)
             (ci_Nodes snapshot)
             (build_index (fun p => node_Name <$> nodes (heap w) !! p)
                          (ci_Nodes snapshot) ∅)
             (ci_Queues snapshot)
             (build_index (fun p => queue_UID <$> queues (heap w) !! p)
                          (ci_Queues snapshot) ∅)
             (ci_Others snapshot) [] [])
          (heap w)
          (trace w ++ flat_map (validate_log (heap w)) (ci_Jobs snapshot))).
Proof.
  intros (Hjobs & Hnodes & Hqueues). unfold openSession.
  cbv [bind modify_ssn get]. cbn [ssn heap trace].
  rewrite validate_jobs_run by done. cbn [ssn heap trace new_Session Jobs ssn_with_Jobs].
  rewrite index_jobs_run by (by apply accepted_jobs_valid).
  cbn [ssn heap trace ssn_with_JobIndex ssn_with_Nodes Nodes].
  rewrite index_nodes_build by done.
  cbn [ssn heap trace ssn_with_NodeIndex ssn_with_Queues Queues].
  rewrite index_queues_build by done.
  rewrite build_JobIndex_build_index. reflexivity.
Qed.

Lemma cache_calls_validate_log h l : cache_calls (flat_map (validate_log h) l) = [].
Proof.
  induction l as [|job l IH]; [done|]. cbn [flat_map]. rewrite cache_calls_app, IH.
  unfold validate_log. destruct (JobValid h job) as [vjr|]; [| done].
  destruct (jobs h !! job); [| done]. by destruct (vr_Pass vjr).
Qed.

Lemma callbacks_validate_log h l : callbacks (flat_map (validate_log h) l) = [].
Proof.
  induction l as [|job l IH]; [done|]. cbn [flat_map]. rewrite callbacks_app, IH.
  unfold validate_log. destruct (JobValid h job) as [vjr|]; [| done].
  destruct (jobs h !! job); [| done]. by destruct (vr_Pass vjr).
Qed.

(** ** Event handlers *)

Lemma AddEventHandlers_run ehs : forall w,
  for_each ehs AddEventHandler w
  = Ok (tt, mkWorld (ssn_with_eventHandlers (ssn w) (eventHandlers (ssn w) ++ ehs))
                    (heap w) (trace w)).
Proof.
  induction ehs as [|eh ehs IH]; intros w.
  - cbn. unfold ret. rewrite app_nil_r. by destruct w as [[] ? ?].
  - rewrite for_each_cons. unfold AddEventHandler at 1. mrun. rewrite IH.
    cbn [ssn heap trace ssn_with_eventHandlers eventHandlers].
    by rewrite <- app_assoc.
Qed.

Lemma alloc_events_app l1 l2 task :
  alloc_events (l1 ++ l2) task = alloc_events l1 task ++ alloc_events l2 task.
Proof. apply flat_map_app. Qed.

Lemma dealloc_events_app l1 l2 task :
  dealloc_events (l1 ++ l2) task = dealloc_events l1 task ++ dealloc_events l2 task.
Proof. apply flat_map_app. Qed.

Lemma status_calls_app tr1 tr2 :
  status_calls (tr1 ++ tr2) = status_calls tr1 ++ status_calls tr2.
Proof. unfold status_calls. by rewrite cache_calls_app, List.filter_app. Qed.

Lemma status_calls_all tr :
  Forall (fun c => is_status_call c = true) (cache_calls tr).*1 ->
  status_calls tr = cache_calls tr.
Proof.
  unfold status_calls. generalize (cache_calls tr). intros l Hl.
  induction l as [|[c r] l IH]; [done|].
  apply Forall_cons in Hl as [Hc Hl]. cbn in Hc |- *. rewrite Hc. f_equal. by apply IH.
Qed.

Lemma close_call_status h job : is_status_call (close_call h job) = true.
Proof.
  unfold close_call. destruct (jobs h !! job) as [ji|]; [| done].
  by destruct (job_PodGroup ji).
Qed.

(** ** Further properties of the primitives *)


(** X2.  [dispatch] returns for a task that is not nil whose job, if indexed,
    is not nil.  It never touches the session record, the nodes, another task
    or the callbacks.  When it returns an error, that is the answer of the
    cache to BindVolumes or, BindVolumes having succeeded, to Bind on the
    task's node; the session's objects are then as before and nothing is
    logged.  When it returns nil both calls succeeded, in that order; the
    task is then Binding, or the job was not indexed or the transition was
    refused, which leaves the objects as before and one line in the log. *)
Theorem dispatch_outcomes (w : World) (task : loc) (t : TaskInfo) :
  tasks (heap w) !! task = Some t ->
  (forall jp, JobIndex (ssn w) !! task_Job t = Some jp -> is_Some (jobs (heap w) !! jp)) ->
  exists r w',
    dispatch task w = Ok (r, w')
    /\ ssn w' = ssn w
    /\ nodes (heap w') = nodes (heap w)
    /\ callbacks (trace w') = callbacks (trace w)
    /\ (forall q, q <> task -> tasks (heap w') !! q = tasks (heap w) !! q)
    /\ match r with
       | Some err =>
           heap w' = heap w
           /\ logged (trace w') = logged (trace w)
           /\ (cache_calls (trace w')
               = cache_calls (trace w) ++ [(BindVolumes task, Some err)]
               \/ cache_calls (trace w')
                  = cache_calls (trace w)
                    ++ [(BindVolumes task, None);
                        (Bind task (task_NodeName t), Some err)])
       | None =>
           cache_calls (trace w')
           = cache_calls (trace w)
             ++ [(BindVolumes task, None); (Bind task (task_NodeName t), None)]
           /\ ((exists t', tasks (heap w') !! task = Some t'
                           /\ task_Status t' = Binding)
               /\ logged (trace w') = logged (trace w)
               \/ heap w' = heap w
                  /\ exists m, logged (trace w') = logged (trace w) ++ [m])
       end.
Proof.
  intros Ht Hj. destruct (dispatch_returns task w t Ht Hj) as (r & w' & Hrun).
  exists r, w'. split; [exact Hrun|].
  apply dispatch_effect in Hrun as (Hs & Hn & _ & Hc & Hot & _ & _ & Hr).
  conjs; try done. destruct r as [err|].
  - destruct Hr as (Hh & Hl & [Hcc | (t0 & Ht0 & Hcc)]); conjs; try done; [by left|].
    simplify_eq. by right.
  - destruct Hr as (t0 & t' & Ht0 & Ht' & Hcc & Hst). simplify_eq.
    split; [done|]. destruct Hst as [[Hst Hl] | [Hh Hm]]; [left | by right].
    split; [| done]. by exists t'.
Qed.

(** X3.  [Evict] returns for a task that is not nil, in a session whose
    indices hold no nil pointer for the task's job and node, and what it
    returns is the answer of the cache: a miss in the job index or the node
    index, a refused transition and a failed node update never surface.  The
    cache is asked once; the session record and the other tasks are as
    before.  On an error the objects are as before, no callback ran and
    nothing was logged.  On nil the task is Releasing or in the status it had,
    and the deallocate callbacks ran for it, in registration order. *)
Theorem Evict_outcomes (w : World) (reclaimee : loc) (reason : string) (t : TaskInfo) :
  tasks (heap w) !! reclaimee = Some t ->
  (forall jp, JobIndex (ssn w) !! task_Job t = Some jp -> is_Some (jobs (heap w) !! jp)) ->
  (forall np, NodeIndex (ssn w) !! task_NodeName t = Some np ->
     is_Some (nodes (heap w) !! np)) ->
  exists w',
    Evict reclaimee reason w = Ok (cache w (CacheEvict reclaimee reason), w')
    /\ ssn w' = ssn w
    /\ cache_calls (trace w')
       = cache_calls (trace w)
         ++ [(CacheEvict reclaimee reason, cache w (CacheEvict reclaimee reason))]
    /\ (forall q, q <> reclaimee -> tasks (heap w') !! q = tasks (heap w) !! q)
    /\ match cache w (CacheEvict reclaimee reason) with
       | Some _ =>
           heap w' = heap w
           /\ callbacks (trace w') = callbacks (trace w)
           /\ logged (trace w') = logged (trace w)
       | None =>
           (exists t', tasks (heap w') !! reclaimee = Some t'
                       /\ placed_as t (task_NodeName t) Releasing t')
           /\ callbacks (trace w')
              = callbacks (trace w) ++ dealloc_events (eventHandlers (ssn w)) reclaimee
       end.
Proof.
  intros Ht Hj Hn. destruct (Evict_returns reclaimee reason w t Ht Hj Hn) as [w' Hrun].
  exists w'. split; [exact Hrun|].
  apply Evict_effect in Hrun as (_ & Hs & _ & Hcc & Hot & Hr).
  conjs; try done. destruct (cache w (CacheEvict reclaimee reason)) as [err|]; [done|].
  destruct Hr as (t0 & t' & Ht0 & Ht' & Hpl & Hcb & _). simplify_eq.
  split; [by exists t' | done].
Qed.

(** X4.  [Evict] when the session does not know the task's job or node.  The
    cache has evicted the task and [Evict] returns nil.  If the job is not in
    the job index the task is exactly as it was, so the session still shows
    its old status, and the miss is logged; the deallocate callbacks run all
    the same.  If the node is not in the node index no node is changed, and
    the miss is not logged: the log grew by one line at most, the one about
    the job or its status update. *)
Theorem Evict_unindexed (w w' : World) (reclaimee : loc) (reason : string)
    (t : TaskInfo) :
  tasks (heap w) !! reclaimee = Some t ->
  Evict reclaimee reason w = Ok (None, w') ->
  (JobIndex (ssn w) !! task_Job t = None ->
     tasks (heap w') !! reclaimee = Some t
     /\ jobs (heap w') = jobs (heap w)
     /\ LogJobNotFound (task_Job t) ∈ logged (trace w')
     /\ callbacks (trace w')
        = callbacks (trace w) ++ dealloc_events (eventHandlers (ssn w)) reclaimee)
  /\ (NodeIndex (ssn w) !! task_NodeName t = None ->
        nodes (heap w') = nodes (heap w)
        /\ (length (logged (trace w')) <= S (length (logged (trace w))))%nat).
Proof.
  intros Ht Hrun.
  apply Evict_effect in Hrun
    as (_ & _ & _ & _ & _ & t0 & t' & Ht0 & Ht' & _ & Hcb & Hj & Hn & Hjn & Hnn).
  simplify_eq. split.
  - intros Hnone. destruct (Hjn Hnone) as [-> Hlog]. conjs; try done.
    apply map_eq. intros p. apply Hj. by rewrite Hnone.
  - intros Hnone. split; [| by apply Hnn].
    apply map_eq. intros p. apply Hn. by rewrite Hnone.
Qed.

(** X5.  An allocation over backfill never binds.  Whatever the session
    holds, when [Allocate] with [usingBackfillTaskRes] returns, the one call
    the cache got is AllocateVolumes and its answer is what [Allocate]
    returns; no task other than the one allocated is touched; the allocate
    callbacks ran once for the task if the reservation succeeded and not at
    all otherwise; and the session record is as before but for the
    backfill-ready set, which lost no key and gained only indexed jobs. *)
Theorem Allocate_over_backfill_only_reserves (w w' : World) (task : loc)
    (hostname : string) (r : option error) :
  Allocate task hostname true w = Ok (r, w') ->
  r = cache w (AllocateVolumes task hostname)
  /\ cache_calls (trace w')
     = cache_calls (trace w) ++ [(AllocateVolumes task hostname, r)]
  /\ (forall q, q <> task -> tasks (heap w') !! q = tasks (heap w) !! q)
  /\ callbacks (trace w')
     = callbacks (trace w)
       ++ match r with
          | None => alloc_events (eventHandlers (ssn w)) task
          | Some _ => []
          end
  /\ session_kept (ssn w) (ssn w').
Proof.
  intros Hrun.
  apply Allocate_effect in Hrun as (Hr & (Hk & _) & _ & Hcc & Hot & Hcb & _).
  conjs; auto.
Qed.

(** X6.  An allocation that is not over backfill leaves the session record
    alone, the backfill-ready set included.  When it returns, the result is
    the cache's answer to AllocateVolumes; if that is nil the task carries the
    host name, whatever else went wrong on the way; and the allocate
    callbacks ran once, for the allocated task: the tasks dispatched because
    the job became ready trigger none. *)
Theorem Allocate_keeps_session_record (w w' : World) (task : loc)
    (hostname : string) (r : option error) :
  Allocate task hostname false w = Ok (r, w') ->
  r = cache w (AllocateVolumes task hostname)
  /\ ssn w' = ssn w
  /\ callbacks (trace w')
     = callbacks (trace w)
       ++ match r with
          | None => alloc_events (eventHandlers (ssn w)) task
          | Some _ => []
          end
  /\ match r with
     | None => exists t', tasks (heap w') !! task = Some t'
                          /\ task_NodeName t' = hostname
     | Some _ => True
     end.
Proof.
  intros Hrun.
  apply Allocate_effect in Hrun as (Hr & _ & Hs & _ & _ & Hcb & Ht).
  conjs; auto. destruct r; [done|].
  destruct (Ht eq_refl) as (t & t' & _ & Ht' & _ & Hnn). eauto.
Qed.

(** X7.  What a scheduling cycle keeps.  Over any sequence of [Pipeline],
    [Allocate] and [Evict] calls that returns: no task, job or node appears or
    disappears and the queues are untouched; a task keeps its UID, job, name,
    namespace and resource request, a job its UID, name, namespace and
    PodGroup (the primitives never write a condition or a phase), a node its
    name; the trace only grows; the session's snapshot lists, indices and
    handlers are as before, and the backfill-ready set lost no key and gained
    only indexed jobs.  If no allocation of the cycle is over backfill the
    session record is unchanged altogether. *)
Theorem cycle_keeps (ops : list Op) : forall w w' : World,
  run_ops ops w = Ok (tt, w') ->
  world_kept w w'
  /\ (forallb no_backfill ops = true -> ssn w' = ssn w).
Proof.
  induction ops as [|o ops IH]; intros w w' H.
  - cbn in H. mrun in H. simplify_eq. split; [apply world_kept_refl | done].
  - cbn [run_ops] in H. unfold bind in H.
    destruct (run_op o w) as [[r w1]|] eqn:Ho; [| done].
    apply run_op_kept in Ho as [Hk Hs]. apply IH in H as [Hk' Hs'].
    split; [by eapply world_kept_trans|].
    cbn [forallb]. intros [Hb Hbs]%andb_prop. rewrite Hs', Hs; done.
Qed.

(** X8.  Once the placement is done, [Allocate] returns nil.  When the
    reservation succeeded and the placement returned, in a session that held
    no nil pointer (indexed jobs and nodes exist, and so do the tasks in the
    Allocated buckets), [Allocate] returns nil if the task's job was found, or
    was not and the readiness policy turns the nil job down: neither the
    readiness check nor the dispatch of the batch panics, whatever the cache
    answers to the binds, and the session it leaves has no nil pointer
    either. *)
Theorem Allocate_returns (w w2 : World) (task : loc) (hostname : string)
    (usingBackfillTaskRes : bool) (job : option loc) :
  cache w (AllocateVolumes task hostname) = None ->
  place task hostname
        (if usingBackfillTaskRes then AllocatedOverBackfill else Allocated)
        (after_call w (AllocateVolumes task hostname) None) = Ok (job, w2) ->
  pointers_valid w ->
  (job = None -> JobReady w2 None = false) ->
  exists w',
    Allocate task hostname usingBackfillTaskRes w = Ok (None, w')
    /\ pointers_valid w'.
Proof.
  intros Hc Hplace Hv Hnil.
  assert (exists w', Allocate task hostname usingBackfillTaskRes w = Ok (None, w'))
    as [w' Hrun].
  { pose proof (place_valid _ _ _ _ _ _ Hplace Hv) as Hv2.
    pose proof (place_effect _ _ _ _ _ _ Hplace)
      as (t & _ & _ & _ & _ & Hjob & Hs & _).
    destruct (Allocate_ready_returns job usingBackfillTaskRes w2 Hv2 Hnil) as [w' Hrun].
    { intros jp ->. exists (task_Job t). rewrite Hs. by symmetry. }
    exists w'. unfold Allocate. mrun. rewrite Hc. unfold after_call in Hplace.
    rewrite Hplace. unfold bind. by rewrite Hrun. }
  exists w'. split; [exact Hrun|].
  eapply good_pointers_valid; [by eapply Allocate_good | done].
Qed.

(** X9.  The latest condition of a type wins.  Two calls of
    [UpdateJobCondition] for the same job with conditions of one type leave
    the world, and return, exactly what the second call alone does: the first
    condition is overwritten in its slot, the list does not grow, and a job
    that is not indexed gets the same error twice. *)
Theorem UpdateJobCondition_latest_wins (w : World) (jobInfo : loc)
    (c1 c2 : PodGroupCondition) :
  cond_Type c1 = cond_Type c2 ->
  (UpdateJobCondition jobInfo c1 ;; UpdateJobCondition jobInfo c2) w
  = UpdateJobCondition jobInfo c2 w.
Proof.
  intros Hty. unfold bind at 1.
  destruct (UpdateJobCondition jobInfo c1 w) as [[r w1]|] eqn:H1.
  - apply UpdateJobCondition_effect in H1 as (ji & Hji & Hm).
    destruct (JobIndex (ssn w) !! job_UID ji) as [jp|] eqn:Hidx.
    + destruct Hm as (-> & job & pg & Hjob & Hpg & ->).
      unfold UpdateJobCondition. mrun. rewrite Hji. mrun. rewrite Hidx. mrun.
      rewrite Hjob. mrun. rewrite Hpg. mrun.
      destruct (decide (jobInfo = jp)) as [->|Hne].
      * rewrite lookup_insert_eq. mrun. simplify_eq.
        cbn [job_UID job_with_Conditions job_with_PodGroup]. rewrite Hidx. mrun.
        rewrite lookup_insert_eq. mrun.
        cbn [job_PodGroup job_with_Conditions job_with_PodGroup pg_with_Status
             pg_Status st_Conditions]. mrun.
        rewrite insert_insert_eq. unfold job_with_Conditions at 1.
        cbn. by rewrite set_condition_overwrite.
      * rewrite lookup_insert_ne by done. rewrite Hji. mrun. rewrite Hidx. mrun.
        rewrite lookup_insert_eq. mrun.
        cbn [job_PodGroup job_with_Conditions job_with_PodGroup pg_with_Status
             pg_Status st_Conditions]. mrun.
        rewrite insert_insert_eq. unfold job_with_Conditions at 1.
        cbn. by rewrite set_condition_overwrite.
    + by destruct Hm as (-> & ->).
  - unfold UpdateJobCondition in H1 |- *. mexec H1; mrun.
    all: repeat match goal with
                | Hx : ?a = _ |- context [?a] => rewrite Hx; mrun
                end.
    all: done.
Qed.

(** X10.  A condition written by [UpdateJobCondition] is what [jobStatus]
    reads.  After a call that returned nil with an Unschedulable condition of
    status true carrying this session's UID, the status [jobStatus] computes
    for the indexed job holds that condition, and its phase is Unknown exactly
    when the job has a running task, whatever conditions the job had before
    and however many of its tasks are allocated. *)
Theorem UpdateJobCondition_flags_status (w w' : World) (jobInfo : loc)
    (cond : PodGroupCondition) :
  cond_Type cond = PodGroupUnschedulableType ->
  cond_Status cond = ConditionTrue ->
  cond_TransitionID cond = UID (ssn w) ->
  UpdateJobCondition jobInfo cond w = Ok (None, w') ->
  exists ji jp job' st,
    jobs (heap w) !! jobInfo = Some ji
    /\ JobIndex (ssn w) !! job_UID ji = Some jp
    /\ jobs (heap w') !! jp = Some job'
    /\ jobStatus (ssn w') job' = Ok st
    /\ cond ∈ st_Conditions st
    /\ (st_Phase st = PodGroupUnknown
        <-> size (bucket (job_TaskStatusIndex job') Running) <> 0%nat).
Proof.
  intros Hty Hst Hid Hrun.
  apply UpdateJobCondition_effect in Hrun as (ji & Hji & Hm).
  destruct (JobIndex (ssn w) !! job_UID ji) as [jp|] eqn:Hidx; [| by destruct Hm].
  destruct Hm as (_ & job & pg & Hjob & Hpg & ->).
  eexists ji, jp, _, _. split; [done|]. split; [done|].
  split; [wsimp; apply lookup_insert_eq|]. split; [reflexivity|].
  cbn [st_Conditions st_Phase job_PodGroup job_with_Conditions job_with_PodGroup
       pg_with_Status pg_Status job_TaskStatusIndex ssn].
  split; [apply set_condition_elem|].
  assert (scan_unschedulable (UID (ssn w))
            (set_condition (st_Conditions (pg_Status pg)) cond) = true) as ->.
  { apply scan_unschedulable_spec. exists cond. split; [apply set_condition_elem | done]. }
  rewrite andb_true_r.
  destruct (len (bucket (job_TaskStatusIndex job) Running) =? 0)%Z eqn:Hlen; cbn [negb].
  - apply Z.eqb_eq, len_zero_iff in Hlen. split; [| done].
    destruct (int32 _ >? _)%Z; discriminate.
  - apply Z.eqb_neq in Hlen. split; [| done]. intros _ Hz. apply Hlen. by apply len_zero_iff.
Qed.

(** X11.  [closeSession] returns for a session whose job pointers are not
    nil, also when jobs have no PodGroup.  It empties the job and node lists
    and indices, the backlog and the event handlers; it keeps the session's
    UID, the queues and their index, the other tasks and, unlike the job
    index, the backfill-ready set.  It touches no task, node or queue and runs
    no callback. *)
Theorem closeSession_clears (w : World) :
  Forall (fun p => is_Some (jobs (heap w) !! p)) (Jobs (ssn w)) ->
  exists w',
    closeSession w = Ok (tt, w')
    /\ Jobs (ssn w') = [] /\ JobIndex (ssn w') = ∅
    /\ Nodes (ssn w') = [] /\ NodeIndex (ssn w') = ∅
    /\ Backlog (ssn w') = [] /\ eventHandlers (ssn w') = []
    /\ UID (ssn w') = UID (ssn w)
    /\ TopDogReadyJobs (ssn w') = TopDogReadyJobs (ssn w)
    /\ Queues (ssn w') = Queues (ssn w) /\ QueueIndex (ssn w') = QueueIndex (ssn w)
    /\ Others (ssn w') = Others (ssn w)
    /\ tasks (heap w') = tasks (heap w)
    /\ nodes (heap w') = nodes (heap w)
    /\ queues (heap w') = queues (heap w)
    /\ callbacks (trace w') = callbacks (trace w).
Proof.
  intros Hl.
  destruct (closeSession_run w Hl)
    as (w' & evs & Hrun & Hs & Ht & Hn & Hq & _ & Htr & _ & _ & Hcb).
  exists w'. split; [exact Hrun|]. rewrite Hs, Htr, callbacks_app, Hcb, app_nil_r.
  by conjs.
Qed.

(** X12.  [closeSession] reports every job of the session to the cache, once
    per entry of [Session.Jobs] and in that order: UpdateJobStatus for a job
    with a PodGroup, RecordJobStatusEvent for a job without.  A failed
    UpdateJobStatus is logged and does not stop the loop; the log gets nothing
    else, so the result of RecordJobStatusEvent goes unnoticed. *)
Theorem closeSession_reports_each_job (w : World) :
  Forall (fun p => is_Some (jobs (heap w) !! p)) (Jobs (ssn w)) ->
  exists w' calls,
    closeSession w = Ok (tt, w')
    /\ cache_calls (trace w') = cache_calls (trace w) ++ calls
    /\ calls.*1 = close_call (heap w) <$> Jobs (ssn w)
    /\ logged (trace w') = logged (trace w) ++ omap close_log calls.
Proof.
  intros Hl.
  destruct (closeSession_run w Hl)
    as (w' & evs & Hrun & _ & _ & _ & _ & _ & Htr & Hcc & Hlog & _).
  exists w', (cache_calls evs). split; [exact Hrun|].
  rewrite Htr, cache_calls_app, logged_app, Hlog. by conjs.
Qed.

(** X13.  [closeSession] reconciles the status of the session's jobs and of
    no other.  A job of [Session.Jobs] with a PodGroup ends with the status
    [jobStatus] computes from the job as it was when [closeSession] was
    called, also when the list names it more than once; a job of the list
    without a PodGroup, and every job that is not in the list, is as it
    was. *)
Theorem closeSession_reconciles (w : World) :
  Forall (fun p => is_Some (jobs (heap w) !! p)) (Jobs (ssn w)) ->
  exists w',
    closeSession w = Ok (tt, w')
    /\ (forall p, p ∉ Jobs (ssn w) -> jobs (heap w') !! p = jobs (heap w) !! p)
    /\ (forall p ji, p ∈ Jobs (ssn w) -> jobs (heap w) !! p = Some ji ->
          match job_PodGroup ji with
          | Some pg =>
              exists st, jobStatus (ssn w) ji = Ok st
                         /\ jobs (heap w') !! p
                            = Some (job_with_PodGroup ji (Some (pg_with_Status pg st)))
          | None => jobs (heap w') !! p = Some ji
          end).
Proof.
  intros Hl.
  destruct (closeSession_run w Hl) as (w' & evs & Hrun & _ & _ & _ & _ & Hj & _).
  exists w'. split; [exact Hrun|]. split.
  - intros p Hp. by rewrite Hj, decide_False.
  - intros p ji Hp Hji. rewrite Hj, decide_True, Hji by done. cbn.
    unfold closed_job, reconcile.
    destruct (job_PodGroup ji) as [pg|] eqn:Hpg.
    + destruct (jobStatus_total (ssn w) ji pg Hpg) as [st Hst]. rewrite Hst. eauto.
    + by destruct (jobStatus (ssn w) ji).
Qed.

(** X14.  The three indices [openSession] builds.  For a snapshot without nil
    pointers, the job index is the index by UID of the session's jobs, the
    node index the index by name of the snapshot's nodes, and the queue index
    the index by UID of the snapshot's queues: every entry is an object of the
    list under its own key, and a key that several objects of the list carry
    is mapped to the last of them.  The node, queue and other-task lists are
    the snapshot's. *)
Theorem openSession_indexes (uid : string) (snapshot : ClusterInfo) (w : World) :
  snapshot_valid (heap w) snapshot ->
  exists w',
    openSession uid snapshot w = Ok (tt, w')
    /\ indexes (jobs (heap w)) job_UID (Jobs (ssn w')) (JobIndex (ssn w'))
    /\ Nodes (ssn w') = ci_Nodes snapshot
    /\ indexes (nodes (heap w)) node_Name (ci_Nodes snapshot) (NodeIndex (ssn w'))
    /\ Queues (ssn w') = ci_Queues snapshot
    /\ indexes (queues (heap w)) queue_UID (ci_Queues snapshot) (QueueIndex (ssn w'))
    /\ Others (ssn w') = ci_Others snapshot.
Proof.
  intros Hvalid. eexists. split; [by apply openSession_built|].
  cbn [ssn Jobs JobIndex Nodes NodeIndex Queues QueueIndex Others].
  conjs; try done; apply build_index_indexes.
Qed.

(** X15.  [openSession] starts afresh and hands over a session without nil
    pointers.  For a snapshot without nil pointers it returns and runs no
    callback; the session carries the given UID, an empty backfill-ready set,
    no backlog and no event handler, and its jobs are jobs of the snapshot in
    the snapshot's order.  Nothing of the session the world held before
    survives: from the same objects the session is the same whatever that
    session was.  If the Allocated buckets of the snapshot's jobs hold no nil
    task, the session has no nil pointer in the sense the primitives need. *)
Theorem openSession_fresh (uid : string) (snapshot : ClusterInfo) (w : World) :
  snapshot_valid (heap w) snapshot ->
  exists w',
    openSession uid snapshot w = Ok (tt, w')
    /\ callbacks (trace w') = callbacks (trace w)
    /\ UID (ssn w') = uid
    /\ TopDogReadyJobs (ssn w') = ∅
    /\ Backlog (ssn w') = [] /\ eventHandlers (ssn w') = []
    /\ sublist (Jobs (ssn w')) (ci_Jobs snapshot)
    /\ (forall s0 tr0, exists w'',
          openSession uid snapshot (mkWorld s0 (heap w) tr0) = Ok (tt, w'')
          /\ ssn w'' = ssn w')
    /\ ((forall jp job k p,
           jobs (heap w) !! jp = Some job ->
           bucket (job_TaskStatusIndex job) Allocated !! k = Some p ->
           is_Some (tasks (heap w) !! p)) ->
        pointers_valid w').
Proof.
  intros Hvalid. eexists. split; [by apply openSession_built|].
  cbn [ssn heap trace UID TopDogReadyJobs Backlog eventHandlers Jobs].
  rewrite callbacks_app, callbacks_validate_log, !app_nil_r.
  conjs; try done.
  - apply sublist_filter.
  - intros s0 tr0. eexists. split; [by apply openSession_built|]. done.
  - intros Hb. split; [|split]; cbn [ssn heap JobIndex NodeIndex]; [| | done].
    + intros u jp Hu. apply build_index_indexes in Hu as (_ & x & Hx & _). eauto.
    + intros h np Hh. apply build_index_indexes in Hh as (_ & x & Hx & _). eauto.
Qed.

(** X16.  Opening and closing with no cycle in between: the status reports
    the cache gets, UpdateJobStatus and RecordJobStatusEvent, are exactly one
    for each job the session took in, in the snapshot's order; a job that was
    not taken in is not reported. *)
Theorem open_then_close (uid : string) (snapshot : ClusterInfo) (w : World) :
  snapshot_valid (heap w) snapshot ->
  exists w' calls,
    (openSession uid snapshot ;; closeSession) w = Ok (tt, w')
    /\ status_calls (trace w') = status_calls (trace w) ++ calls
    /\ calls.*1 = close_call (heap w) <$> accepted_jobs (heap w) (ci_Jobs snapshot).
Proof.
  intros Hvalid. pose proof (openSession_built uid snapshot w Hvalid) as Hopen.
  match type of Hopen with _ = Ok (tt, ?w1) =>
    destruct (closeSession_run w1)
      as (w' & evs & Hrun & _ & _ & _ & _ & _ & Htr & Hcc & _)
  end.
  { cbn [ssn heap Jobs]. apply accepted_jobs_valid. by destruct Hvalid. }
  cbn [ssn heap trace Jobs] in Htr, Hcc.
  exists w', (cache_calls evs). split; [unfold bind; by rewrite Hopen|].
  split; [| done].
  rewrite Htr, !status_calls_app. unfold status_calls at 2.
  rewrite cache_calls_validate_log. cbn [List.filter]. rewrite app_nil_r. f_equal.
  apply status_calls_all. rewrite Hcc. apply Forall_fmap, Forall_forall.
  intros p _. apply close_call_status.
Qed.

(** X17.  Event handlers run in registration order, the allocate callbacks
    on placement and the deallocate callbacks on eviction.  Whenever
    [AddEventHandler] for each handler of a list, then a [Pipeline] of a task
    and then its [Evict] return, the handlers of the session are those
    registered before followed by the new ones, and the callbacks that ran are
    the allocate callbacks of the handlers registered before and then of the
    new ones, in the order of registration and leaving out the handlers that
    have none, followed, if the cache evicted the task, by the deallocate
    callbacks in the same order. *)
Theorem handlers_run_in_registration_order (w w' : World) (ehs : list EventHandler)
    (task : loc) (hostname reason : string) (r : option error) :
  (for_each ehs AddEventHandler ;; Pipeline task hostname ;; Evict task reason) w
  = Ok (r, w') ->
  eventHandlers (ssn w') = eventHandlers (ssn w) ++ ehs
  /\ callbacks (trace w')
     = callbacks (trace w)
       ++ (alloc_events (eventHandlers (ssn w)) task ++ alloc_events ehs task)
       ++ match r with
          | None => dealloc_events (eventHandlers (ssn w)) task
                    ++ dealloc_events ehs task
          | Some _ => []
          end.
Proof.
  intros H. unfold bind at 1 in H. rewrite AddEventHandlers_run in H.
  unfold bind at 1 in H. unfold Pipeline, bind at 1 in H.
  match type of H with
  | context [place task hostname Pipelined ?w0] =>
      destruct (place task hostname Pipelined w0) as [[job w1]|] eqn:Hplace; [| done]
  end.
  unfold ret in H.
  pose proof (place_effect _ _ _ _ _ _ Hplace)
    as (t & t' & _ & _ & _ & _ & Hs1 & _ & _ & _ & _ & _ & Hcb).
  cbn [ssn heap trace] in Hs1, Hcb.
  pose proof (Evict_effect _ _ _ _ _ H) as (_ & Hs & _ & _ & _ & Hr).
  rewrite Hs, Hs1. cbn [ssn eventHandlers ssn_with_eventHandlers]. split; [done|].
  destruct r as [err|].
  - destruct Hr as (_ & -> & _). rewrite Hcb, app_nil_r.
    cbn [ssn eventHandlers ssn_with_eventHandlers]. by rewrite alloc_events_app.
  - destruct Hr as (t1 & t1' & _ & _ & _ & -> & _). rewrite Hcb, Hs1.
    cbn [ssn eventHandlers ssn_with_eventHandlers].
    by rewrite alloc_events_app, dealloc_events_app, <- app_assoc.
Qed.

(** X18.  A scheduling cycle keeps the session well formed.  Over any
    sequence of [Pipeline], [Allocate] and [Evict] calls that returns, a
    session without nil pointers (indexed jobs and nodes exist, and so do the
    tasks of the Allocated buckets) is still one, and a consistent job index
    (an indexed job is indexed by its UID and the tasks in its task-status
    index are its own) is still consistent. *)
Theorem cycle_stays_well_formed (ops : list Op) (w w' : World) :
  run_ops ops w = Ok (tt, w') ->
  (pointers_valid w -> pointers_valid w')
  /\ (index_consistent w -> index_consistent w').
Proof.
  intros Hrun. apply run_ops_good in Hrun. split.
  - by apply good_pointers_valid.
  - by apply good_consistent.
Qed.

(** X20.  [UpdateJobCondition] writes to one object, the job the index
    holds for the UID of the job it is given.  When it returns, the session
    record, the trace, the tasks, the nodes and the queues are as before, and
    so is every job other than the indexed one: a job object passed in that
    is not the one in the index is not changed.  It returns an error exactly
    when the UID is not in the index, and the world is then as before. *)
Theorem UpdateJobCondition_writes_indexed_job (w w' : World) (jobInfo : loc)
    (ji : JobInfo) (cond : PodGroupCondition) (r : option error) :
  jobs (heap w) !! jobInfo = Some ji ->
  UpdateJobCondition jobInfo cond w = Ok (r, w') ->
  ssn w' = ssn w /\ trace w' = trace w
  /\ tasks (heap w') = tasks (heap w) /\ nodes (heap w') = nodes (heap w)
  /\ queues (heap w') = queues (heap w)
  /\ (forall p, JobIndex (ssn w) !! job_UID ji <> Some p ->
        jobs (heap w') !! p = jobs (heap w) !! p)
  /\ (r = None <-> is_Some (JobIndex (ssn w) !! job_UID ji))
  /\ (JobIndex (ssn w) !! job_UID ji = None ->
        r = Some (not_indexed_error ji) /\ w' = w).
Proof.
  intros Hji Hrun. apply UpdateJobCondition_effect in Hrun as (ji0 & Hji0 & Hm).
  simplify_eq. destruct (JobIndex (ssn w) !! job_UID ji) as [jp|].
  - destruct Hm as (-> & job & pg & Hjob & Hpg & ->). wsimp. conjs; try done.
    all: first [ intros p Hp; rewrite lookup_insert_ne; [done | congruence]
               | split; eauto ].
  - destruct Hm as (-> & ->). conjs; try done.
    all: split; [done | by intros []].
Qed.

(** X21.  No bind before the job is ready.  When the reservation succeeded
    and the readiness policy turns the job down after the placement,
    [Allocate] returns nil and stops there: the cache was asked for
    AllocateVolumes and nothing else, the session record is unchanged, the
    backfill-ready set included, and no task other than the allocated one is
    touched, whether or not the allocation is over backfill. *)
Theorem Allocate_not_ready_binds_nothing (w w2 : World) (task : loc)
    (hostname : string) (usingBackfillTaskRes : bool) (job : option loc) :
  cache w (AllocateVolumes task hostname) = None ->
  place task hostname
        (if usingBackfillTaskRes then AllocatedOverBackfill else Allocated)
        (after_call w (AllocateVolumes task hostname) None) = Ok (job, w2) ->
  JobReady w2 job = false ->
  Allocate task hostname usingBackfillTaskRes w = Ok (None, w2)
  /\ cache_calls (trace w2)
     = cache_calls (trace w) ++ [(AllocateVolumes task hostname, None)]
  /\ ssn w2 = ssn w
  /\ (forall q, q <> task -> tasks (heap w2) !! q = tasks (heap w) !! q).
Proof.
  intros Hc Hplace Hready. split.
  - unfold Allocate. mrun. rewrite Hc. unfold after_call in Hplace. rewrite Hplace.
    unfold Allocate_ready. mrun. rewrite Hready. cbn [andb]. by mrun.
  - apply place_effect in Hplace as (t & t' & _ & _ & _ & _ & Hs & _ & Hot & _ & _ & Hcc & _).
    unfold after_call in *. cbn [ssn heap trace] in *.
    rewrite cache_calls_app in Hcc. by conjs.
Qed.

End Framework.

(** ** The properties on the small cluster *)

(** C4 on [ex_job]: two committed tasks against a minimum of two, and a stale
    condition of an earlier session: the phase is Pending. *)
Lemma jobStatus_phase_witness :
  job_PodGroup ex_job = Some ex_pg
  /\ committed_count ex_AllocatedStatus ex_job < 2 ^ 31
  /\ exists st, jobStatus ex_AllocatedStatus ex_ssn ex_job = Ok st
                /\ st_Phase st = PodGroupPending.
Proof.
  split; [reflexivity |]. split; [vm_compute; reflexivity |].
  destruct (jobStatus_phase ex_AllocatedStatus ex_ssn ex_job ex_pg eq_refl)
    as (st & Hst & _ & _ & Hpending); [vm_compute; reflexivity |].
  exists st. split; [exact Hst |]. apply Hpending.
  - intros [_ (c & Hc & _ & _ & Hid)].
    apply list_elem_of_singleton in Hc. subst c. discriminate Hid.
  - vm_compute. intros H. discriminate H.
Defined.

(** C8 on [ex_job] and a copy of it with other counters and phase. *)
Lemma jobStatus_idempotent_witness :
  exists st job1,
    jobStatus ex_AllocatedStatus ex_ssn ex_job = Ok st
    /\ jobStatus ex_AllocatedStatus ex_ssn
         (job_with_PodGroup ex_job
            (Some (mkPodGroup 2 (mkStatus PodGroupUnknown [ex_cond] 0 1 2)))) = Ok st
    /\ reconcile ex_AllocatedStatus ex_ssn ex_job = Ok job1
    /\ reconcile ex_AllocatedStatus ex_ssn job1 = Ok job1
    /\ st_Running st = 1 /\ st_Failed st = 0 /\ st_Succeeded st = 0.
Proof.
  destruct (jobStatus_idempotent ex_AllocatedStatus ex_ssn ex_job
              (job_with_PodGroup ex_job
                 (Some (mkPodGroup 2 (mkStatus PodGroupUnknown [ex_cond] 0 1 2))))
              ex_pg (mkPodGroup 2 (mkStatus PodGroupUnknown [ex_cond] 0 1 2))
              eq_refl eq_refl eq_refl eq_refl eq_refl)
    as (st & job1 & H1 & H2 & H3 & H4 & _ & Hr & Hf & Hs & _ & _ & _).
  exists st, job1. repeat (split; [assumption |]). exact Hs.
Defined.

(** C9 on [ex_world]: the job has one Unschedulable condition, of an earlier
    session; a new one replaces it. *)
Lemma UpdateJobCondition_one_slot_witness :
  exists conds',
    UpdateJobCondition 1%positive
      (mkCond PodGroupUnschedulableType ConditionTrue 5 "ssn-1" "NotEnoughPods" "new")
      ex_world
    = Ok (None,
          mkWorld ex_ssn
            (mkStore (<[1%positive := job_with_Conditions ex_job ex_pg conds']> (jobs ex_store))
                     (tasks ex_store) (nodes ex_store) (queues ex_store))
            [])
    /\ conds' = [mkCond PodGroupUnschedulableType ConditionTrue 5 "ssn-1" "NotEnoughPods" "new"]
    /\ one_slot_per_type conds'.
Proof.
  destruct (UpdateJobCondition_one_slot ex_world 1%positive 1%positive ex_job ex_job ex_pg
              (mkCond PodGroupUnschedulableType ConditionTrue 5 "ssn-1" "NotEnoughPods" "new")
              eq_refl eq_refl eq_refl eq_refl)
    as (conds' & Hrun & [(i & c & Hi & _ & Hfirst & Hc) | (Hnone & _)] & Hslot).
  - exists conds'. split; [exact Hrun |].
    assert (i = 0%nat) as ->.
    { destruct i as [|i]; [reflexivity |]. destruct i; discriminate Hi. }
    split; [exact Hc |]. apply Hslot. apply NoDup_singleton.
  - exfalso. apply (Hnone ex_cond); [left | reflexivity].
Defined.

(** C5 on [ex_world] with a cache that cannot reserve volumes. *)
Lemma Allocate_volumes_error_witness :
  ex_cache_no_volumes ex_world (AllocateVolumes 11%positive "node-a")
  = Some "no persistent volume for claim"
  /\ Allocate ex_validate ex_JobReady ex_cache_no_volumes ex_range_order
       11%positive "node-a" false ex_world
     = Ok (Some "no persistent volume for claim",
           mkWorld ex_ssn ex_store
             [ECache (AllocateVolumes 11%positive "node-a")
                     (Some "no persistent volume for claim")]).
Proof.
  split; [reflexivity |].
  exact (Allocate_volumes_error ex_validate ex_JobReady ex_cache_no_volumes ex_range_order
           ex_world 11%positive "node-a" false "no persistent volume for claim" eq_refl).
Defined.

Lemma ex_snapshot_valid : snapshot_valid ex_store ex_snapshot.
Proof.
  repeat split; repeat constructor; eexists; reflexivity.
Defined.

(** C1 on [ex_snapshot] when no validity function objects: [JobValid]
    answers nil. *)
Lemma openSession_accepts_witness :
  snapshot_valid (heap ex_world0) ex_snapshot
  /\ ex_JobValid_nil (heap ex_world0) 1%positive = None
  /\ exists w',
       openSession ex_JobValid_nil ex_Now "ssn-1" ex_snapshot ex_world0 = Ok (tt, w')
       /\ 1%positive ∈ Jobs (ssn w')
       /\ JobIndex (ssn w') !! "job-1" = Some 1%positive.
Proof.
  split; [exact ex_snapshot_valid |]. split; [reflexivity |].
  destruct (openSession_accepts ex_JobValid_nil ex_Now "ssn-1" ex_snapshot ex_world0
              1%positive ex_job ex_snapshot_valid ltac:(left) eq_refl)
    as (w' & Hrun & _ & Hin & Hindexed).
  destruct (Hindexed eq_refl) as (jp' & ji' & Hidx & _ & _ & _ & Huniq).
  exists w'. split; [exact Hrun |]. split; [apply Hin; reflexivity |].
  assert (jp' = 1%positive) as <-.
  { apply Huniq. intros q qi Hq _ _. by apply list_elem_of_singleton in Hq. }
  exact Hidx.
Defined.

(** C2 on [ex_snapshot] when the job fails validity: the job is left out, it
    carries no new condition, and the lookup failure is in the log. *)
Lemma openSession_condition_not_recorded_witness :
  snapshot_valid (heap ex_world0) ex_snapshot
  /\ ex_JobValid_fail (heap ex_world0) 1%positive
     = Some (mkValidateResult false "NotEnoughPods"
                              "not enough valid tasks for gang-scheduling")
  /\ exists w',
       openSession ex_JobValid_fail ex_Now "ssn-1" ex_snapshot ex_world0 = Ok (tt, w')
       /\ jobs (heap w') !! 1%positive = Some ex_job
       /\ job_PodGroup ex_job = Some ex_pg
       /\ st_Conditions (pg_Status ex_pg) = [ex_cond]
       /\ cond_TransitionID ex_cond = "ssn-0"
       /\ ELog (LogUpdateJobCondition "failed to find job <default/train>") ∈ trace w'.
Proof.
  split; [exact ex_snapshot_valid |]. split; [reflexivity |].
  destruct (openSession_condition_not_recorded ex_JobValid_fail ex_Now "ssn-1" ex_snapshot
              ex_world0 1%positive ex_job _ ex_snapshot_valid ltac:(left) eq_refl eq_refl
              eq_refl)
    as (w' & Hrun & Hjob & _ & Hlog).
  exists w'. repeat (split; [assumption || reflexivity |]). exact Hlog.
Defined.

(** C7 on [ex_world]: evicting the running task [t3] when the cache refuses,
    and when it accepts. *)
Lemma Evict_spec_witness :
  Evict ex_validate ex_cache_no_evict 13%positive "preempted" ex_world
  = Ok (Some "pod not found",
        mkWorld ex_ssn ex_store [ECache (CacheEvict 13%positive "preempted")
                                        (Some "pod not found")])
  /\ exists job' node',
       Evict ex_validate ex_cache 13%positive "preempted" ex_world
       = Ok (None,
             mkWorld ex_ssn
               (mkStore (<[1%positive := job']> (jobs ex_store))
                        (<[13%positive := task_with_Status ex_t3 Releasing]> (tasks ex_store))
                        (<[21%positive := node']> (nodes ex_store))
                        (queues ex_store))
               [ECache (CacheEvict 13%positive "preempted") None;
                EDeallocateFunc 1 13%positive])
       /\ bucket (job_TaskStatusIndex job') Releasing !! "t3" = Some 13%positive
       /\ bucket (job_TaskStatusIndex job') Running !! "t3" = None
       /\ node_Used node' = mkResource 1000 1024
       /\ node_Releasing node' = mkResource 1000 1024
       /\ node_Idle node' = mkResource 2000 6144.
Proof.
  split.
  - exact (proj1 (Evict_spec ex_validate ex_cache_no_evict ex_world 13%positive "preempted")
             "pod not found" eq_refl).
  - destruct (proj2 (Evict_spec ex_validate ex_cache ex_world 13%positive "preempted")
                ex_t3 1%positive ex_job 21%positive ex_node ex_t3
                eq_refl eq_refl eq_refl eq_refl eq_refl eq_refl eq_refl eq_refl
                ltac:(discriminate) eq_refl)
      as (job' & node' & Hrun & Hnew & Hold & Hused & Hrel & Hidle & _).
    exists job', node'. split; [exact Hrun |]. split; [exact Hnew |].
    split; [apply Hold; discriminate |].
    split; [exact Hused |]. split; [exact Hrel |]. exact Hidle.
Defined.

(** C10 on [ex_world_unindexed]: the task's job is not in the index, no
    readiness policy objects, and [Allocate] panics. *)
Lemma Allocate_missing_job_panics_witness :
  JobIndex (ssn ex_world_unindexed) !! task_Job ex_t1 = None
  /\ ex_cache ex_world_unindexed (AllocateVolumes 11%positive "node-a") = None
  /\ Allocate ex_validate ex_JobReady_pass ex_cache ex_range_order
       11%positive "node-a" false ex_world_unindexed = Panic
  /\ Allocate ex_validate ex_JobReady_pass ex_cache ex_range_order
       11%positive "node-a" true ex_world_unindexed = Panic.
Proof.
  split; [reflexivity |]. split; [reflexivity |]. split.
  - destruct (place ex_validate 11%positive "node-a" Allocated
                (after_call ex_world_unindexed (AllocateVolumes 11%positive "node-a") None))
      as [[[jp|] w2]|] eqn:Hplace.
    + exfalso. vm_compute in Hplace. discriminate Hplace.
    + exact (Allocate_missing_job_panics ex_validate ex_JobReady_pass ex_cache ex_range_order
               ex_world_unindexed 11%positive "node-a" false w2 eq_refl Hplace eq_refl).
    + exfalso. vm_compute in Hplace. discriminate Hplace.
  - destruct (place ex_validate 11%positive "node-a" AllocatedOverBackfill
                (after_call ex_world_unindexed (AllocateVolumes 11%positive "node-a") None))
      as [[[jp|] w2]|] eqn:Hplace.
    + exfalso. vm_compute in Hplace. discriminate Hplace.
    + exact (Allocate_missing_job_panics ex_validate ex_JobReady_pass ex_cache ex_range_order
               ex_world_unindexed 11%positive "node-a" true w2 eq_refl Hplace eq_refl).
    + exfalso. vm_compute in Hplace. discriminate Hplace.
Defined.


Lemma ex_world_consistent : index_consistent ex_world.
Proof.
  split.
  - intros u jp Hu.
    change (({["job-1" := 1%positive]} : gmap string loc) !! u = Some jp) in Hu.
    apply lookup_singleton_Some in Hu as [<- <-].
    exists ex_job. split; reflexivity.
  - intros u jp job s k p t Hu _ _ Ht.
    change (({["job-1" := 1%positive]} : gmap string loc) !! u = Some jp) in Hu.
    apply lookup_singleton_Some in Hu as [<- _].
    change ((<[11%positive := ex_t1]> (<[12%positive := ex_t2]> {[13%positive := ex_t3]})
             : gmap loc TaskInfo) !! p = Some t) in Ht.
    apply lookup_insert_Some in Ht as [[_ <-] | [_ Ht]]; [reflexivity |].
    apply lookup_insert_Some in Ht as [[_ <-] | [_ Ht]]; [reflexivity |].
    apply lookup_singleton_Some in Ht as [_ <-]. reflexivity.
Defined.

(** C3 on [ex_world]: [t1] is placed over backfill, which makes the job ready;
    no task of the job is Binding or was handed to the cache for binding, and
    the job is in the backfill-ready set. *)
Lemma backfill_deferral_witness :
  index_consistent ex_world
  /\ exists w',
       run_ops ex_validate ex_JobReady ex_cache ex_range_order
               [OpAllocate 11%positive "node-a" true] ex_world = Ok (tt, w')
       /\ (forall tp t', tasks (heap w') !! tp = Some t' ->
             task_Job t' = "job-1" -> task_Status t' = Binding ->
             exists t0, tasks (heap ex_world) !! tp = Some t0 /\ task_Status t0 = Binding)
       /\ (forall e tp t', e ∈ trace w' -> dispatched_task e = Some tp ->
             tasks (heap w') !! tp = Some t' -> task_Job t' = "job-1" ->
             e ∈ trace ex_world)
       /\ task_Status <$> tasks (heap w') !! 11%positive = Some AllocatedOverBackfill
       /\ TopDogReadyJobs (ssn w') !! "job-1" = Some 1%positive.
Proof.
  split; [exact ex_world_consistent |].
  destruct (run_ops ex_validate ex_JobReady ex_cache ex_range_order
              [OpAllocate 11%positive "node-a" true] ex_world)
    as [[[] w']|] eqn:Hrun; [| vm_compute in Hrun; discriminate Hrun].
  exists w'. split; [reflexivity |].
  destruct (backfill_deferral ex_validate ex_JobReady ex_cache ex_range_order
              "job-1" ex_world [OpAllocate 11%positive "node-a" true] w'
              ex_world_consistent) as (Hbinding & Htrace & Htopdog).
  - intros task hostname t0 Hin. apply list_elem_of_singleton in Hin. discriminate Hin.
  - exact Hrun.
  - split; [exact Hbinding |]. split; [exact Htrace |]. split.
    + pose proof Hrun as Hnf. vm_compute in Hnf. injection Hnf as <-.
      vm_compute. reflexivity.
    + destruct (place ex_validate 11%positive "node-a" AllocatedOverBackfill
                  (after_call ex_world (AllocateVolumes 11%positive "node-a") None))
        as [[job wc]|] eqn:Hplace; [| vm_compute in Hplace; discriminate Hplace].
      pose proof Hplace as Hnf. vm_compute in Hnf. injection Hnf as Hjob Hwc.
      subst job wc.
      eapply (Htopdog [] 11%positive "node-a" [] ex_world 1%positive);
        [reflexivity | reflexivity | reflexivity | exact Hplace | reflexivity |].
      vm_compute. reflexivity.
Defined.

(** ** The further properties on the small cluster *)

Lemma ex_jobs_valid :
  forall jp, JobIndex (ssn ex_world) !! "job-1" = Some jp ->
             is_Some (jobs (heap ex_world) !! jp).
Proof.
  intros jp Hjp. vm_compute in Hjp. injection Hjp as <-. eexists. reflexivity.
Defined.

Lemma ex_nodes_valid :
  forall np, NodeIndex (ssn ex_world) !! "node-a" = Some np ->
             is_Some (nodes (heap ex_world) !! np).
Proof.
  intros np Hnp. vm_compute in Hnp. injection Hnp as <-. eexists. reflexivity.
Defined.


(** X2 on [ex_world] with a cache that rejects the bind of [t2]: the error
    comes back and the session shows nothing of the attempt. *)
Lemma dispatch_outcomes_witness :
  tasks (heap ex_world) !! 12%positive = Some ex_t2
  /\ exists w',
       dispatch ex_validate ex_cache_bind_fails 12%positive ex_world
       = Ok (Some "binding rejected", w')
       /\ heap w' = ex_store /\ ssn w' = ex_ssn
       /\ logged (trace w') = []
       /\ cache_calls (trace w')
          = [(BindVolumes 12%positive, None);
             (Bind 12%positive "node-a", Some "binding rejected")].
Proof.
  split; [reflexivity |].
  destruct (dispatch_outcomes ex_validate ex_cache_bind_fails ex_world 12%positive ex_t2
              eq_refl ex_jobs_valid)
    as (r & w' & Hrun & Hs & _ & _ & _ & Hr).
  pose proof Hrun as Hnf. vm_compute in Hnf. injection Hnf as <- <-.
  eexists. split; [exact Hrun |].
  destruct Hr as (Hh & Hl & _).
  split; [exact Hh |]. split; [exact Hs |]. split; [exact Hl |]. reflexivity.
Defined.

(** X3 on [ex_world]: evicting the running task [t3]. *)
Lemma Evict_outcomes_witness :
  tasks (heap ex_world) !! 13%positive = Some ex_t3
  /\ exists w' t',
       Evict ex_validate ex_cache 13%positive "preempted" ex_world = Ok (None, w')
       /\ ssn w' = ex_ssn
       /\ cache_calls (trace w') = [(CacheEvict 13%positive "preempted", None)]
       /\ tasks (heap w') !! 13%positive = Some t'
       /\ task_Status t' = Releasing
       /\ callbacks (trace w') = [EDeallocateFunc 1 13%positive].
Proof.
  split; [reflexivity |].
  destruct (Evict_outcomes ex_validate ex_cache ex_world 13%positive "preempted" ex_t3
              eq_refl ex_jobs_valid ex_nodes_valid)
    as (w' & Hrun & Hs & Hcc & _ & (t' & Ht' & _) & Hcb).
  exists w', t'. split; [exact Hrun |]. split; [exact Hs |]. split; [exact Hcc |].
  split; [exact Ht' |].
  pose proof Hrun as Hnf. vm_compute in Hnf. injection Hnf as <-.
  vm_compute in Ht'. injection Ht' as <-.
  split; [reflexivity | exact Hcb].
Defined.

(** X4 on [ex_world_unindexed]: the job of [t3] is not in the index. *)
Lemma Evict_unindexed_witness :
  tasks (heap ex_world_unindexed) !! 13%positive = Some ex_t3
  /\ JobIndex (ssn ex_world_unindexed) !! task_Job ex_t3 = None
  /\ exists w',
       Evict ex_validate ex_cache 13%positive "preempted" ex_world_unindexed
       = Ok (None, w')
       /\ tasks (heap w') !! 13%positive = Some ex_t3
       /\ jobs (heap w') = jobs ex_store
       /\ LogJobNotFound "job-1" ∈ logged (trace w')
       /\ callbacks (trace w') = [EDeallocateFunc 1 13%positive].
Proof.
  split; [reflexivity |]. split; [reflexivity |].
  destruct (Evict ex_validate ex_cache 13%positive "preempted" ex_world_unindexed)
    as [[[e|] w']|] eqn:Hrun;
    [exfalso; vm_compute in Hrun; discriminate Hrun | |
     exfalso; vm_compute in Hrun; discriminate Hrun].
  exists w'. split; [reflexivity |].
  destruct (Evict_unindexed ex_validate ex_cache ex_world_unindexed w' 13%positive
              "preempted" ex_t3 eq_refl Hrun) as [Hjob _].
  exact (Hjob eq_refl).
Defined.

(** X5 on [ex_world]: [t1] is allocated over backfill, which makes the job
    ready. *)
Lemma Allocate_over_backfill_only_reserves_witness :
  exists w',
    Allocate ex_validate ex_JobReady ex_cache ex_range_order
             11%positive "node-a" true ex_world = Ok (None, w')
    /\ cache_calls (trace w') = [(AllocateVolumes 11%positive "node-a", None)]
    /\ tasks (heap w') !! 12%positive = Some ex_t2
    /\ callbacks (trace w') = [EAllocateFunc 0 11%positive]
    /\ session_kept ex_ssn (ssn w').
Proof.
  destruct (Allocate ex_validate ex_JobReady ex_cache ex_range_order
              11%positive "node-a" true ex_world)
    as [[[e|] w']|] eqn:Hrun;
    [exfalso; vm_compute in Hrun; discriminate Hrun | |
     exfalso; vm_compute in Hrun; discriminate Hrun].
  exists w'. split; [reflexivity |].
  destruct (Allocate_over_backfill_only_reserves ex_validate ex_JobReady ex_cache
              ex_range_order ex_world w' 11%positive "node-a" None Hrun)
    as (_ & Hcc & Hot & Hcb & Hk).
  split; [exact Hcc |]. split; [rewrite Hot by discriminate; reflexivity |].
  split; [exact Hcb | exact Hk].
Defined.

(** X6 on [ex_world] with a cache that rejects the bind of [t2]: allocating
    [t1] makes the job ready and both Allocated tasks are dispatched. *)
Lemma Allocate_keeps_session_record_witness :
  exists w' t',
    Allocate ex_validate ex_JobReady ex_cache_bind_fails ex_range_order
             11%positive "node-a" false ex_world = Ok (None, w')
    /\ ssn w' = ex_ssn
    /\ callbacks (trace w') = [EAllocateFunc 0 11%positive]
    /\ tasks (heap w') !! 11%positive = Some t'
    /\ task_NodeName t' = "node-a".
Proof.
  destruct (Allocate ex_validate ex_JobReady ex_cache_bind_fails ex_range_order
              11%positive "node-a" false ex_world)
    as [[[e|] w']|] eqn:Hrun;
    [exfalso; vm_compute in Hrun; discriminate Hrun | |
     exfalso; vm_compute in Hrun; discriminate Hrun].
  destruct (Allocate_keeps_session_record ex_validate ex_JobReady ex_cache_bind_fails
              ex_range_order ex_world w' 11%positive "node-a" None Hrun)
    as (_ & Hs & Hcb & t' & Ht' & Hnn).
  exists w', t'. split; [reflexivity |]. split; [exact Hs |]. split; [exact Hcb |].
  split; [exact Ht' | exact Hnn].
Defined.

(** X7 on [ex_world]: a cycle that pipelines [t1] on a host the session does
    not know and evicts [t3]. *)
Lemma cycle_keeps_witness :
  exists w',
    run_ops ex_validate ex_JobReady ex_cache ex_range_order
            [OpPipeline 11%positive "node-x"; OpEvict 13%positive "preempted"] ex_world
    = Ok (tt, w')
    /\ world_kept ex_world w'
    /\ ssn w' = ex_ssn.
Proof.
  destruct (run_ops ex_validate ex_JobReady ex_cache ex_range_order
              [OpPipeline 11%positive "node-x"; OpEvict 13%positive "preempted"] ex_world)
    as [[[] w']|] eqn:Hrun; [| exfalso; vm_compute in Hrun; discriminate Hrun].
  exists w'. split; [reflexivity |].
  destruct (cycle_keeps ex_validate ex_JobReady ex_cache ex_range_order _ _ _ Hrun)
    as [Hk Hs].
  split; [exact Hk | exact (Hs eq_refl)].
Defined.

Lemma ex_pointers_valid : pointers_valid ex_world.
Proof.
  split; [| split].
  - intros u jp Hu.
    change (({["job-1" := 1%positive]} : gmap string positive) !! u = Some jp) in Hu.
    apply lookup_singleton_Some in Hu as [_ <-]. eexists. reflexivity.
  - intros h np Hh.
    change (({["node-a" := 21%positive]} : gmap string positive) !! h = Some np) in Hh.
    apply lookup_singleton_Some in Hh as [_ <-]. eexists. reflexivity.
  - intros jp job k p Hjp Hk.
    change (({[1%positive := ex_job]} : gmap positive JobInfo) !! jp = Some job) in Hjp.
    apply lookup_singleton_Some in Hjp as [_ <-].
    apply elem_of_map_to_list in Hk. vm_compute in Hk.
    apply elem_of_cons in Hk as [Hk | Hk]; [| by apply elem_of_nil in Hk].
    injection Hk as -> ->. eexists. reflexivity.
Defined.

(** X8 on [ex_world] with a cache that rejects the bind of [t2]: the
    placement of [t1] makes the job ready and the batch is dispatched. *)
Lemma Allocate_returns_witness :
  ex_cache_bind_fails ex_world (AllocateVolumes 11%positive "node-a") = None
  /\ pointers_valid ex_world
  /\ exists w2 w',
       place ex_validate 11%positive "node-a" Allocated
             (after_call ex_world (AllocateVolumes 11%positive "node-a") None)
       = Ok (Some 1%positive, w2)
       /\ Allocate ex_validate ex_JobReady ex_cache_bind_fails ex_range_order
                   11%positive "node-a" false ex_world = Ok (None, w')
       /\ pointers_valid w'.
Proof.
  split; [reflexivity |]. split; [exact ex_pointers_valid |].
  destruct (place ex_validate 11%positive "node-a" Allocated
              (after_call ex_world (AllocateVolumes 11%positive "node-a") None))
    as [[[jp|] w2]|] eqn:Hplace;
    [| exfalso; vm_compute in Hplace; discriminate Hplace
     | exfalso; vm_compute in Hplace; discriminate Hplace].
  assert (jp = 1%positive) as ->.
  { pose proof Hplace as Hnf. vm_compute in Hnf. by injection Hnf as <- _. }
  destruct (Allocate_returns ex_validate ex_JobReady ex_cache_bind_fails ex_range_order
              ex_world w2 11%positive "node-a" false (Some 1%positive) eq_refl Hplace
              ex_pointers_valid ltac:(discriminate)) as (w' & Hrun & Hv).
  exists w2, w'. split; [reflexivity |]. split; [exact Hrun | exact Hv].
Defined.

(** X9 on [ex_world]: two Unschedulable conditions in a row. *)
Lemma UpdateJobCondition_latest_wins_witness :
  cond_Type ex_cond_a = cond_Type ex_cond_b
  /\ (UpdateJobCondition 1%positive ex_cond_a ;;
      UpdateJobCondition 1%positive ex_cond_b) ex_world
     = UpdateJobCondition 1%positive ex_cond_b ex_world.
Proof.
  split; [reflexivity |].
  exact (UpdateJobCondition_latest_wins ex_world 1%positive ex_cond_a ex_cond_b eq_refl).
Defined.

(** X10 on [ex_world]: the job has a running task, [t3]; flagged by this
    session, its phase is Unknown. *)
Lemma UpdateJobCondition_flags_status_witness :
  exists w' job' st,
    UpdateJobCondition 1%positive ex_cond_a ex_world = Ok (None, w')
    /\ jobs (heap w') !! 1%positive = Some job'
    /\ jobStatus ex_AllocatedStatus (ssn w') job' = Ok st
    /\ st_Phase st = PodGroupUnknown.
Proof.
  destruct (UpdateJobCondition 1%positive ex_cond_a ex_world)
    as [[[e|] w']|] eqn:Hrun;
    [exfalso; vm_compute in Hrun; discriminate Hrun | |
     exfalso; vm_compute in Hrun; discriminate Hrun].
  destruct (UpdateJobCondition_flags_status ex_AllocatedStatus ex_world w' 1%positive
              ex_cond_a eq_refl eq_refl eq_refl Hrun)
    as (ji & jp & job' & st & Hji & Hjp & Hjob' & Hst & _ & Hphase).
  vm_compute in Hji. injection Hji as <-. vm_compute in Hjp. injection Hjp as <-.
  exists w', job', st. split; [reflexivity |]. split; [exact Hjob' |].
  split; [exact Hst |]. apply Hphase.
  pose proof Hrun as Hnf. vm_compute in Hnf. injection Hnf as <-.
  vm_compute in Hjob'. injection Hjob' as <-. vm_compute. discriminate.
Defined.

Lemma ex_Jobs_valid :
  Forall (fun p => is_Some (jobs (heap ex_world) !! p)) (Jobs (ssn ex_world)).
Proof. repeat constructor. eexists. reflexivity. Defined.

(** X11 on [ex_world]. *)
Lemma closeSession_clears_witness :
  Forall (fun p => is_Some (jobs (heap ex_world) !! p)) (Jobs (ssn ex_world))
  /\ exists w',
       closeSession ex_AllocatedStatus ex_cache ex_world = Ok (tt, w')
       /\ ssn w' = mkSession "ssn-1" [] ∅ ∅ [] ∅ [] ∅ [] [] []
       /\ tasks (heap w') = tasks ex_store
       /\ nodes (heap w') = nodes ex_store.
Proof.
  split; [exact ex_Jobs_valid |].
  destruct (closeSession_clears ex_AllocatedStatus ex_cache ex_world ex_Jobs_valid)
    as (w' & Hrun & _ & _ & _ & _ & _ & _ & _ & _ & _ & _ & _ & Ht & Hn & _).
  exists w'. split; [exact Hrun |].
  split; [| split; [exact Ht | exact Hn]].
  pose proof Hrun as Hnf. vm_compute in Hnf. injection Hnf as <-. reflexivity.
Defined.

(** X12 on [ex_world] with a cache that accepts every call. *)
Lemma closeSession_reports_each_job_witness :
  Forall (fun p => is_Some (jobs (heap ex_world) !! p)) (Jobs (ssn ex_world))
  /\ exists w',
       closeSession ex_AllocatedStatus ex_cache ex_world = Ok (tt, w')
       /\ (cache_calls (trace w')).*1 = [UpdateJobStatus 1%positive]
       /\ logged (trace w') = [].
Proof.
  split; [exact ex_Jobs_valid |].
  destruct (closeSession_reports_each_job ex_AllocatedStatus ex_cache ex_world
              ex_Jobs_valid) as (w' & calls & Hrun & Hcc & Hcalls & Hlog).
  exists w'. split; [exact Hrun |].
  pose proof Hrun as Hnf. vm_compute in Hnf. injection Hnf as <-.
  split; reflexivity.
Defined.

(** X13 on [ex_world]: the job's stale counters are replaced; with two
    committed tasks against a minimum of two the phase is Pending. *)
Lemma closeSession_reconciles_witness :
  Forall (fun p => is_Some (jobs (heap ex_world) !! p)) (Jobs (ssn ex_world))
  /\ exists w' st,
       closeSession ex_AllocatedStatus ex_cache ex_world = Ok (tt, w')
       /\ jobStatus ex_AllocatedStatus ex_ssn ex_job = Ok st
       /\ jobs (heap w') !! 1%positive
          = Some (job_with_PodGroup ex_job (Some (pg_with_Status ex_pg st)))
       /\ st_Phase st = PodGroupPending /\ st_Running st = 1.
Proof.
  split; [exact ex_Jobs_valid |].
  destruct (closeSession_reconciles ex_AllocatedStatus ex_cache ex_world ex_Jobs_valid)
    as (w' & Hrun & _ & Hin).
  destruct (Hin 1%positive ex_job ltac:(left) eq_refl) as (st & Hst & Hjob).
  exists w', st. split; [exact Hrun |]. split; [exact Hst |]. split; [exact Hjob |].
  vm_compute in Hst. injection Hst as <-. split; reflexivity.
Defined.

(** X14 on [ex_snapshot]: the node is found under its name. *)
Lemma openSession_indexes_witness :
  snapshot_valid (heap ex_world0) ex_snapshot
  /\ exists w',
       openSession ex_JobValid_nil ex_Now "ssn-1" ex_snapshot ex_world0 = Ok (tt, w')
       /\ NodeIndex (ssn w') !! "node-a" = Some 21%positive
       /\ JobIndex (ssn w') !! "job-1" = Some 1%positive.
Proof.
  split; [exact ex_snapshot_valid |].
  destruct (openSession_indexes ex_JobValid_nil ex_Now "ssn-1" ex_snapshot ex_world0
              ex_snapshot_valid) as (w' & Hrun & [_ Hj] & Hnodes & [_ Hn] & _).
  exists w'. split; [exact Hrun |]. split.
  - apply (Hn [] 21%positive [] ex_node eq_refl eq_refl).
    intros q y Hq. by apply elem_of_nil in Hq.
  - pose proof Hrun as Hnf. vm_compute in Hnf. injection Hnf as <-.
    apply (Hj [] 1%positive [] ex_job eq_refl eq_refl).
    intros q y Hq. by apply elem_of_nil in Hq.
Defined.

(** X15 on [ex_snapshot], from a world that still holds an old session. *)
Lemma openSession_fresh_witness :
  snapshot_valid (heap ex_world) ex_snapshot
  /\ exists w',
       openSession ex_JobValid_nil ex_Now "ssn-2" ex_snapshot ex_world = Ok (tt, w')
       /\ UID (ssn w') = "ssn-2"
       /\ eventHandlers (ssn w') = []
       /\ pointers_valid w'.
Proof.
  split; [exact ex_snapshot_valid |].
  destruct (openSession_fresh ex_JobValid_nil ex_Now "ssn-2" ex_snapshot ex_world
              ex_snapshot_valid)
    as (w' & Hrun & _ & Hu & _ & _ & He & _ & _ & Hv).
  exists w'. split; [exact Hrun |]. split; [exact Hu |].
  split; [exact He |]. apply Hv. apply ex_pointers_valid.
Defined.

(** X16 on [ex_snapshot] when [JobValid] has no objection: one status report,
    for the one job. *)
Lemma open_then_close_witness :
  snapshot_valid (heap ex_world0) ex_snapshot
  /\ exists w',
       (openSession ex_JobValid_nil ex_Now "ssn-1" ex_snapshot ;;
        closeSession ex_AllocatedStatus ex_cache) ex_world0 = Ok (tt, w')
       /\ (status_calls (trace w')).*1 = [UpdateJobStatus 1%positive].
Proof.
  split; [exact ex_snapshot_valid |].
  destruct (open_then_close ex_AllocatedStatus ex_JobValid_nil ex_cache ex_Now "ssn-1"
              ex_snapshot ex_world0 ex_snapshot_valid)
    as (w' & calls & Hrun & Hsc & Hcalls).
  exists w'. split; [exact Hrun |]. rewrite Hsc. exact Hcalls.
Defined.

(** X17 on [ex_world]: two more handlers, one with an allocate callback only
    and one with a deallocate callback only; [t1] is pipelined on a host the
    session does not know and then evicted. *)
Lemma handlers_run_in_registration_order_witness :
  exists w',
    (for_each [mkEventHandler (Some 2%nat) None; mkEventHandler None (Some 3%nat)]
              AddEventHandler ;;
     Pipeline ex_validate 11%positive "node-x" ;;
     Evict ex_validate ex_cache 11%positive "preempted") ex_world = Ok (None, w')
    /\ callbacks (trace w')
       = [EAllocateFunc 0 11%positive; EAllocateFunc 2 11%positive;
          EDeallocateFunc 1 11%positive; EDeallocateFunc 3 11%positive].
Proof.
  destruct ((for_each [mkEventHandler (Some 2%nat) None; mkEventHandler None (Some 3%nat)]
                      AddEventHandler ;;
             Pipeline ex_validate 11%positive "node-x" ;;
             Evict ex_validate ex_cache 11%positive "preempted") ex_world)
    as [[[e|] w']|] eqn:Hrun;
    [exfalso; vm_compute in Hrun; discriminate Hrun | |
     exfalso; vm_compute in Hrun; discriminate Hrun].
  exists w'. split; [reflexivity |].
  exact (proj2 (handlers_run_in_registration_order ex_validate ex_cache ex_world w'
                  [mkEventHandler (Some 2%nat) None; mkEventHandler None (Some 3%nat)]
                  11%positive "node-x" "preempted" None Hrun)).
Defined.

(** X18 on [ex_world]: allocating [t1] makes the job ready and its Allocated
    tasks are dispatched. *)
Lemma cycle_stays_well_formed_witness :
  pointers_valid ex_world /\ index_consistent ex_world
  /\ exists w',
       run_ops ex_validate ex_JobReady ex_cache ex_range_order
               [OpAllocate 11%positive "node-a" false] ex_world = Ok (tt, w')
       /\ pointers_valid w' /\ index_consistent w'.
Proof.
  split; [exact ex_pointers_valid |]. split; [exact ex_world_consistent |].
  destruct (run_ops ex_validate ex_JobReady ex_cache ex_range_order
              [OpAllocate 11%positive "node-a" false] ex_world)
    as [[[] w']|] eqn:Hrun; [| exfalso; vm_compute in Hrun; discriminate Hrun].
  exists w'. split; [reflexivity |].
  destruct (cycle_stays_well_formed ex_validate ex_JobReady ex_cache ex_range_order
              _ _ _ Hrun) as [Hv Hc].
  split; [exact (Hv ex_pointers_valid) | exact (Hc ex_world_consistent)].
Defined.

(** X20 on [ex_world_unindexed]: the job is not in the index. *)
Lemma UpdateJobCondition_writes_indexed_job_witness :
  jobs (heap ex_world_unindexed) !! 1%positive = Some ex_job
  /\ exists r w',
       UpdateJobCondition 1%positive ex_cond_a ex_world_unindexed = Ok (r, w')
       /\ r = Some "failed to find job <default/train>"
       /\ w' = ex_world_unindexed.
Proof.
  split; [reflexivity |].
  destruct (UpdateJobCondition 1%positive ex_cond_a ex_world_unindexed)
    as [[r w']|] eqn:Hrun; [| exfalso; vm_compute in Hrun; discriminate Hrun].
  exists r, w'. split; [reflexivity |].
  destruct (UpdateJobCondition_writes_indexed_job ex_world_unindexed w' 1%positive ex_job
              ex_cond_a r eq_refl Hrun) as (_ & _ & _ & _ & _ & _ & _ & Hnone).
  exact (Hnone eq_refl).
Defined.

(** X21 on [ex_world] with a policy that finds no job ready. *)
Lemma Allocate_not_ready_binds_nothing_witness :
  ex_cache ex_world (AllocateVolumes 11%positive "node-a") = None
  /\ exists w2,
       Allocate ex_validate ex_JobReady_never ex_cache ex_range_order
                11%positive "node-a" false ex_world = Ok (None, w2)
       /\ cache_calls (trace w2) = [(AllocateVolumes 11%positive "node-a", None)]
       /\ ssn w2 = ex_ssn
       /\ tasks (heap w2) !! 12%positive = Some ex_t2.
Proof.
  split; [reflexivity |].
  destruct (place ex_validate 11%positive "node-a" Allocated
              (after_call ex_world (AllocateVolumes 11%positive "node-a") None))
    as [[job w2]|] eqn:Hplace; [| exfalso; vm_compute in Hplace; discriminate Hplace].
  destruct (Allocate_not_ready_binds_nothing ex_validate ex_JobReady_never ex_cache
              ex_range_order ex_world w2 11%positive "node-a" false job eq_refl Hplace
              eq_refl) as (Hrun & Hcc & Hs & Hot).
  exists w2. split; [exact Hrun |]. split; [exact Hcc |]. split; [exact Hs |].
  rewrite Hot by discriminate. reflexivity.
Defined.
